(** * DevAC Python structural parser: a shallow embedding and its properties

    Source: [packages/devac-core/src/parsers/python_parser.py].

    The parser object is a record threaded through the visit methods; each
    [visit_*] method is a function from parser to parser, and [_add_node]
    returns the new entity id with the updated parser.

    Python [str] values are modelled as [string] holding the UTF-8 encoding of
    the text, so that [s.encode()] is the identity on the representation.
    Library code the parser calls is modelled by its documented behaviour:
    [hashlib.sha256], text-mode [open] (strict UTF-8 decoding, universal
    newlines), [os.path.basename] (POSIX), [ast.NodeVisitor].  The front end
    [ast.parse], [ast.unparse] and [json.loads] are fields of a [pylib] record;
    the file system, the clock and [os.path.abspath] are fields of an
    [environment] record.  [time.time()] readings are binary64 floats.

    [visit], [parse_python_file] and [main] are the runs in which every call
    returns or raises an exception the program catches.  The exception the
    traversal itself can raise, RecursionError, is in [visit_within].  Not
    modelled: the uncaught exceptions of the entry point, which end the
    process with a traceback ([ast.parse] raising anything but SyntaxError, and
    a [--config] value that is valid JSON without being an object, on which
    [__init__] fails). *)

From Stdlib Require Import ZArith List String Ascii Bool Lia PrimFloat.
Import ListNotations.
Open Scope string_scope.
Open Scope list_scope.
Open Scope Z_scope.

Notation "a +++ b" := (String.append a b) (right associativity, at level 60).

(** ** [hashlib.sha256] (FIPS 180-4), on 32-bit words held in [Z] *)

Module Sha256.

Definition w32 (x : Z) : Z := x mod 2 ^ 32.

Definition add32 (x y : Z) : Z := w32 (x + y).

Definition rotr (n x : Z) : Z :=
  Z.lor (Z.shiftr x n) (w32 (Z.shiftl x (32 - n))).

Definition Ch (x y z : Z) : Z :=
  Z.lxor (Z.land x y) (Z.land (Z.lxor x (2 ^ 32 - 1)) z).

Definition Maj (x y z : Z) : Z :=
  Z.lxor (Z.lxor (Z.land x y) (Z.land x z)) (Z.land y z).

Definition Sigma0 (x : Z) : Z := Z.lxor (Z.lxor (rotr 2 x) (rotr 13 x)) (rotr 22 x).
Definition Sigma1 (x : Z) : Z := Z.lxor (Z.lxor (rotr 6 x) (rotr 11 x)) (rotr 25 x).
Definition sigma0 (x : Z) : Z := Z.lxor (Z.lxor (rotr 7 x) (rotr 18 x)) (Z.shiftr x 3).
Definition sigma1 (x : Z) : Z := Z.lxor (Z.lxor (rotr 17 x) (rotr 19 x)) (Z.shiftr x 10).

(** The round constants and the initial hash value are given by their
    definition: the first 32 bits of the fractional parts of the cube roots of
    the first 64 primes, and of the square roots of the first 8 primes. *)
Definition is_prime (n : nat) : bool :=
  forallb (fun d => negb (Nat.eqb (Nat.modulo n d) 0)) (seq 2 (n - 2)).

Definition primes : list Z := map Z.of_nat (filter is_prime (seq 2 310)).

(** The integer cube root of [n], by bisection between [lo] and [hi]. *)
Fixpoint cube_root (fuel : nat) (n lo hi : Z) : Z :=
  match fuel with
  | O => lo
  | S fuel' =>
      if hi - lo <=? 1 then lo
      else
        let mid := (lo + hi) / 2 in
        if mid * mid * mid <=? n then cube_root fuel' n mid hi
        else cube_root fuel' n lo mid
  end.

Definition frac_cube_root (p : Z) : Z := w32 (cube_root 64 (p * 2 ^ 96) 0 (2 ^ 35)).
Definition frac_square_root (p : Z) : Z := w32 (Z.sqrt (p * 2 ^ 64)).

Definition K : list Z := map frac_cube_root primes.

(** The eight working variables / chaining values. *)
Record regs : Type := Regs
  { ra : Z; rb : Z; rc : Z; rd : Z; re : Z; rf : Z; rg : Z; rh : Z }.

Definition H0 : regs :=
  Regs (frac_square_root 2) (frac_square_root 3) (frac_square_root 5)
       (frac_square_root 7) (frac_square_root 11) (frac_square_root 13)
       (frac_square_root 17) (frac_square_root 19).

(** Message padding: 0x80, zero bytes up to 56 mod 64, then the bit length
    as a 64-bit big-endian integer. *)
Definition be_bytes (n : nat) (x : Z) : list Z :=
  map (fun i => Z.land (Z.shiftr x (8 * Z.of_nat i)) 255) (rev (seq 0 n)).

Definition pad (msg : list Z) : list Z :=
  let len := Z.of_nat (List.length msg) in
  let zeros := Z.to_nat ((55 - len) mod 64) in
  msg ++ [128] ++ repeat 0 zeros ++ be_bytes 8 (8 * len).

Fixpoint words_of_bytes (bs : list Z) : list Z :=
  match bs with
  | b0 :: b1 :: b2 :: b3 :: rest =>
      (Z.shiftl b0 24 + Z.shiftl b1 16 + Z.shiftl b2 8 + b3) :: words_of_bytes rest
  | _ => []
  end.

(** Message schedule: sixteen block words extended to sixty-four. *)
Fixpoint extend (n : nat) (ws : list Z) : list Z :=
  match n with
  | O => ws
  | S n' =>
      let i := List.length ws in
      let w k := nth (i - k) ws 0 in
      extend n' (ws ++ [add32 (add32 (add32 (sigma1 (w 2%nat)) (w 7%nat))
                                       (sigma0 (w 15%nat))) (w 16%nat)])
  end.

Definition round (r : regs) (kw : Z * Z) : regs :=
  let t1 := add32 (add32 (add32 (add32 (rh r) (Sigma1 (re r))) (Ch (re r) (rf r) (rg r)))
                         (fst kw)) (snd kw) in
  let t2 := add32 (Sigma0 (ra r)) (Maj (ra r) (rb r) (rc r)) in
  Regs (add32 t1 t2) (ra r) (rb r) (rc r) (add32 (rd r) t1) (re r) (rf r) (rg r).

Definition compress (h : regs) (block : list Z) : regs :=
  let ws := extend 48 (words_of_bytes block) in
  let r := fold_left round (combine K ws) h in
  Regs (add32 (ra h) (ra r)) (add32 (rb h) (rb r)) (add32 (rc h) (rc r))
       (add32 (rd h) (rd r)) (add32 (re h) (re r)) (add32 (rf h) (rf r))
       (add32 (rg h) (rg r)) (add32 (rh h) (rh r)).

Fixpoint blocks (n : nat) (bs : list Z) (h : regs) : regs :=
  match n with
  | O => h
  | S n' => blocks n' (skipn 64 bs) (compress h (firstn 64 bs))
  end.

Definition digest (msg : list Z) : regs :=
  let p := pad msg in
  blocks (List.length p / 64) p H0.

Definition hex_digit (d : Z) : ascii :=
  if d <? 10 then ascii_of_N (Z.to_N (48 + d)) else ascii_of_N (Z.to_N (87 + d)).

(** Eight lower-case hexadecimal digits of a 32-bit word, followed by [k]. *)
Definition hex_word (x : Z) (k : string) : string :=
  String (hex_digit (Z.land (Z.shiftr x 28) 15))
 (String (hex_digit (Z.land (Z.shiftr x 24) 15))
 (String (hex_digit (Z.land (Z.shiftr x 20) 15))
 (String (hex_digit (Z.land (Z.shiftr x 16) 15))
 (String (hex_digit (Z.land (Z.shiftr x 12) 15))
 (String (hex_digit (Z.land (Z.shiftr x 8) 15))
 (String (hex_digit (Z.land (Z.shiftr x 4) 15))
 (String (hex_digit (Z.land x 15)) k))))))).

Definition hex_regs (r : regs) : string :=
  hex_word (ra r) (hex_word (rb r) (hex_word (rc r) (hex_word (rd r)
  (hex_word (re r) (hex_word (rf r) (hex_word (rg r) (hex_word (rh r) ""))))))).

Definition bytes_of_string (s : string) : list Z :=
  map (fun c => Z.of_N (N_of_ascii c)) (list_ascii_of_string s).

(** [hashlib.sha256(s.encode()).hexdigest()] *)
Definition hexdigest (s : string) : string := hex_regs (digest (bytes_of_string s)).

End Sha256.

Example round_constants :
  List.length Sha256.K = 64%nat /\
  firstn 2 Sha256.K = [0x428a2f98; 0x71374491] /\
  nth 63 Sha256.K 0 = 0xc67178f2 /\
  Sha256.ra Sha256.H0 = 0x6a09e667 /\ Sha256.rh Sha256.H0 = 0x5be0cd19.
Proof. vm_compute. repeat split. Qed.

Example sha256_abc :
  Sha256.hexdigest "abc"
  = "ba7816bf8f01cfea414140de5dae2223b00361a396177a9cb410ff61f20015ad".
Proof. vm_compute. reflexivity. Qed.

Example sha256_empty :
  Sha256.hexdigest ""
  = "e3b0c44298fc1c149afbf4c8996fb92427ae41e4649b934ca495991b7852b855".
Proof. vm_compute. reflexivity. Qed.

Example sha256_two_blocks :
  Sha256.hexdigest "abcdbcdecdefdefgefghfghighijhijkijkljklmklmnlmnomnopnopq"
  = "248d6a61d20638b8e5c026930c3e6039a33ce45964ff2167f6ecedd419db06c1".
Proof. vm_compute. reflexivity. Qed.


(** ** Python strings *)

(** Truthiness of a [str] and of an [Optional[str]] in a condition. *)
Definition truthy (s : string) : bool :=
  match s with EmptyString => false | String _ _ => true end.

Definition truthy_opt (o : option string) : bool :=
  match o with Some s => truthy s | None => false end.

(** [a or b] on optional strings, as Python evaluates it. *)
Definition py_or (a b : option string) : option string :=
  if truthy_opt a then a else b.

Definition backslash : ascii := ascii_of_nat 92.
Definition slash : ascii := ascii_of_nat 47.

(** [s.replace(backslash, "/")] *)
Fixpoint replace_backslash (s : string) : string :=
  match s with
  | EmptyString => EmptyString
  | String c r =>
      String (if Ascii.eqb c backslash then slash else c) (replace_backslash r)
  end.

Fixpoint contains_char (c : ascii) (s : string) : bool :=
  match s with
  | EmptyString => false
  | String d r => Ascii.eqb c d || contains_char c r
  end.

(** [os.path.basename] (posixpath): everything after the last slash. *)
Fixpoint basename (p : string) : string :=
  match p with
  | EmptyString => EmptyString
  | String c r =>
      if contains_char slash r then basename r
      else if Ascii.eqb c slash then r else p
  end.

(** [sep.join(parts)] is [String.concat sep parts]. *)
Definition join (sep : string) (parts : list string) : string := String.concat sep parts.

(** The code points of a text, read off its UTF-8 encoding. *)
Definition byte_value (c : ascii) : Z := Z.of_N (N_of_ascii c).

Fixpoint code_points (s : string) : list Z :=
  match s with
  | EmptyString => []
  | String c0 r0 =>
      if byte_value c0 <? 192 then byte_value c0 :: code_points r0
      else match r0 with
      | EmptyString => [byte_value c0]
      | String c1 r1 =>
          if byte_value c0 <? 224 then
            (byte_value c0 mod 32 * 64 + byte_value c1 mod 64) :: code_points r1
          else match r1 with
          | EmptyString => [byte_value c0]
          | String c2 r2 =>
              if byte_value c0 <? 240 then
                (byte_value c0 mod 16 * 4096 + byte_value c1 mod 64 * 64
                 + byte_value c2 mod 64) :: code_points r2
              else match r2 with
              | EmptyString => [byte_value c0]
              | String c3 r3 =>
                  (byte_value c0 mod 8 * 262144 + byte_value c1 mod 64 * 4096
                   + byte_value c2 mod 64 * 64 + byte_value c3 mod 64)
                  :: code_points r3
              end
          end
      end
  end.

(** A set of code points as runs [(first, last, step)]. *)
Definition in_runs (cp : Z) (runs : list (Z * Z * Z)) : bool :=
  existsb (fun '(first, last, step) =>
             (first <=? cp) && (cp <=? last) && ((cp - first) mod step =? 0)) runs.

(** The characters with the Uppercase property and those with the Lowercase
    property or of category Lt (title case), as [str.isupper] classifies them;
    Unicode 14.0, the character database of CPython 3.11. *)
Definition uppercase_runs : list (Z * Z * Z) :=
  [(65, 90, 1); (192, 214, 1); (216, 222, 1); (256, 310, 2); (313, 327, 2);
   (330, 374, 2); (376, 377, 1); (379, 381, 2); (385, 386, 1); (388, 388, 1);
   (390, 391, 1); (393, 395, 1); (398, 401, 1); (403, 404, 1); (406, 408, 1);
   (412, 413, 1); (415, 416, 1); (418, 420, 2); (422, 423, 1); (425, 425, 1);
   (428, 428, 1); (430, 431, 1); (433, 435, 1); (437, 437, 1); (439, 440, 1);
   (444, 444, 1); (452, 452, 1); (455, 455, 1); (458, 458, 1); (461, 475, 2);
   (478, 494, 2); (497, 497, 1); (500, 500, 1); (502, 504, 1); (506, 562, 2);
   (570, 571, 1); (573, 574, 1); (577, 577, 1); (579, 582, 1); (584, 590, 2);
   (880, 882, 2); (886, 886, 1); (895, 895, 1); (902, 902, 1); (904, 906, 1);
   (908, 908, 1); (910, 911, 1); (913, 929, 1); (931, 939, 1); (975, 975, 1);
   (978, 980, 1); (984, 1006, 2); (1012, 1012, 1); (1015, 1015, 1); (1017, 1018, 1);
   (1021, 1071, 1); (1120, 1152, 2); (1162, 1214, 2); (1216, 1217, 1); (1219, 1229, 2);
   (1232, 1326, 2); (1329, 1366, 1); (4256, 4293, 1); (4295, 4295, 1); (4301, 4301, 1);
   (5024, 5109, 1); (7312, 7354, 1); (7357, 7359, 1); (7680, 7828, 2); (7838, 7934, 2);
   (7944, 7951, 1); (7960, 7965, 1); (7976, 7983, 1); (7992, 7999, 1); (8008, 8013, 1);
   (8025, 8031, 2); (8040, 8047, 1); (8120, 8123, 1); (8136, 8139, 1); (8152, 8155, 1);
   (8168, 8172, 1); (8184, 8187, 1); (8450, 8450, 1); (8455, 8455, 1); (8459, 8461, 1);
   (8464, 8466, 1); (8469, 8469, 1); (8473, 8477, 1); (8484, 8488, 2); (8490, 8493, 1);
   (8496, 8499, 1); (8510, 8511, 1); (8517, 8517, 1); (8544, 8559, 1); (8579, 8579, 1);
   (9398, 9423, 1); (11264, 11311, 1); (11360, 11360, 1); (11362, 11364, 1);
   (11367, 11371, 2); (11373, 11376, 1); (11378, 11378, 1); (11381, 11381, 1);
   (11390, 11392, 1); (11394, 11490, 2); (11499, 11501, 2); (11506, 11506, 1);
   (42560, 42604, 2); (42624, 42650, 2); (42786, 42798, 2); (42802, 42862, 2);
   (42873, 42875, 2); (42877, 42878, 1); (42880, 42886, 2); (42891, 42893, 2);
   (42896, 42898, 2); (42902, 42920, 2); (42922, 42926, 1); (42928, 42932, 1);
   (42934, 42946, 2); (42948, 42951, 1); (42953, 42953, 1); (42960, 42960, 1);
   (42966, 42968, 2); (42997, 42997, 1); (65313, 65338, 1); (66560, 66599, 1);
   (66736, 66771, 1); (66928, 66938, 1); (66940, 66954, 1); (66956, 66962, 1);
   (66964, 66965, 1); (68736, 68786, 1); (71840, 71871, 1); (93760, 93791, 1);
   (119808, 119833, 1); (119860, 119885, 1); (119912, 119937, 1); (119964, 119964, 1);
   (119966, 119967, 1); (119970, 119970, 1); (119973, 119974, 1); (119977, 119980, 1);
   (119982, 119989, 1); (120016, 120041, 1); (120068, 120069, 1); (120071, 120074, 1);
   (120077, 120084, 1); (120086, 120092, 1); (120120, 120121, 1); (120123, 120126, 1);
   (120128, 120132, 1); (120134, 120134, 1); (120138, 120144, 1); (120172, 120197, 1);
   (120224, 120249, 1); (120276, 120301, 1); (120328, 120353, 1); (120380, 120405, 1);
   (120432, 120457, 1); (120488, 120512, 1); (120546, 120570, 1); (120604, 120628, 1);
   (120662, 120686, 1); (120720, 120744, 1); (120778, 120778, 1); (125184, 125217, 1);
   (127280, 127305, 1); (127312, 127337, 1); (127344, 127369, 1)].

Definition lowercase_or_titlecase_runs : list (Z * Z * Z) :=
  [(97, 122, 1); (170, 170, 1); (181, 181, 1); (186, 186, 1); (223, 246, 1);
   (248, 255, 1); (257, 309, 2); (311, 312, 1); (314, 326, 2); (328, 329, 1);
   (331, 375, 2); (378, 380, 2); (382, 384, 1); (387, 389, 2); (392, 392, 1);
   (396, 397, 1); (402, 402, 1); (405, 405, 1); (409, 411, 1); (414, 414, 1);
   (417, 421, 2); (424, 424, 1); (426, 427, 1); (429, 429, 1); (432, 432, 1);
   (436, 438, 2); (441, 442, 1); (445, 447, 1); (453, 454, 1); (456, 457, 1);
   (459, 460, 1); (462, 474, 2); (476, 477, 1); (479, 493, 2); (495, 496, 1);
   (498, 499, 1); (501, 501, 1); (505, 561, 2); (563, 569, 1); (572, 572, 1);
   (575, 576, 1); (578, 578, 1); (583, 589, 2); (591, 659, 1); (661, 696, 1);
   (704, 705, 1); (736, 740, 1); (837, 837, 1); (881, 883, 2); (887, 887, 1);
   (890, 893, 1); (912, 912, 1); (940, 974, 1); (976, 977, 1); (981, 983, 1);
   (985, 1005, 2); (1007, 1011, 1); (1013, 1013, 1); (1016, 1016, 1); (1019, 1020, 1);
   (1072, 1119, 1); (1121, 1153, 2); (1163, 1215, 2); (1218, 1228, 2); (1230, 1231, 1);
   (1233, 1327, 2); (1376, 1416, 1); (4304, 4346, 1); (4349, 4351, 1); (5112, 5117, 1);
   (7296, 7304, 1); (7424, 7615, 1); (7681, 7827, 2); (7829, 7837, 1); (7839, 7933, 2);
   (7935, 7943, 1); (7952, 7957, 1); (7968, 7975, 1); (7984, 7991, 1); (8000, 8005, 1);
   (8016, 8023, 1); (8032, 8039, 1); (8048, 8061, 1); (8064, 8116, 1); (8118, 8119, 1);
   (8124, 8126, 2); (8130, 8132, 1); (8134, 8135, 1); (8140, 8140, 1); (8144, 8147, 1);
   (8150, 8151, 1); (8160, 8167, 1); (8178, 8180, 1); (8182, 8183, 1); (8188, 8188, 1);
   (8305, 8305, 1); (8319, 8319, 1); (8336, 8348, 1); (8458, 8458, 1); (8462, 8463, 1);
   (8467, 8467, 1); (8495, 8495, 1); (8500, 8500, 1); (8505, 8505, 1); (8508, 8509, 1);
   (8518, 8521, 1); (8526, 8526, 1); (8560, 8575, 1); (8580, 8580, 1); (9424, 9449, 1);
   (11312, 11359, 1); (11361, 11361, 1); (11365, 11366, 1); (11368, 11372, 2);
   (11377, 11377, 1); (11379, 11380, 1); (11382, 11389, 1); (11393, 11489, 2);
   (11491, 11492, 1); (11500, 11502, 2); (11507, 11507, 1); (11520, 11557, 1);
   (11559, 11559, 1); (11565, 11565, 1); (42561, 42605, 2); (42625, 42649, 2);
   (42651, 42653, 1); (42787, 42797, 2); (42799, 42801, 1); (42803, 42861, 2);
   (42863, 42872, 1); (42874, 42876, 2); (42879, 42887, 2); (42892, 42894, 2);
   (42897, 42897, 1); (42899, 42901, 1); (42903, 42921, 2); (42927, 42927, 1);
   (42933, 42947, 2); (42952, 42954, 2); (42961, 42969, 2); (42998, 42998, 1);
   (43000, 43002, 1); (43824, 43866, 1); (43868, 43880, 1); (43888, 43967, 1);
   (64256, 64262, 1); (64275, 64279, 1); (65345, 65370, 1); (66600, 66639, 1);
   (66776, 66811, 1); (66967, 66977, 1); (66979, 66993, 1); (66995, 67001, 1);
   (67003, 67004, 1); (67456, 67456, 1); (67459, 67461, 1); (67463, 67504, 1);
   (67506, 67514, 1); (68800, 68850, 1); (71872, 71903, 1); (93792, 93823, 1);
   (119834, 119859, 1); (119886, 119892, 1); (119894, 119911, 1); (119938, 119963, 1);
   (119990, 119993, 1); (119995, 119995, 1); (119997, 120003, 1); (120005, 120015, 1);
   (120042, 120067, 1); (120094, 120119, 1); (120146, 120171, 1); (120198, 120223, 1);
   (120250, 120275, 1); (120302, 120327, 1); (120354, 120379, 1); (120406, 120431, 1);
   (120458, 120485, 1); (120514, 120538, 1); (120540, 120545, 1); (120572, 120596, 1);
   (120598, 120603, 1); (120630, 120654, 1); (120656, 120661, 1); (120688, 120712, 1);
   (120714, 120719, 1); (120746, 120770, 1); (120772, 120777, 1); (120779, 120779, 1);
   (122624, 122633, 1); (122635, 122654, 1); (125218, 125251, 1)].

Definition is_upper_char (cp : Z) : bool := in_runs cp uppercase_runs.
Definition is_lower_or_title_char (cp : Z) : bool :=
  in_runs cp lowercase_or_titlecase_runs.

(** [s.isupper()]: no lower-case or title-case character, and at least one
    upper-case one. *)
Definition isupper (s : string) : bool :=
  existsb is_upper_char (code_points s)
  && negb (existsb is_lower_or_title_char (code_points s)).

(** [s.startswith(".")] *)
Definition startswith_dot (s : string) : bool := String.prefix "." s.

(** ["." * n] *)
Fixpoint dots (n : nat) : string :=
  match n with O => "" | S k => String "." (dots k) end.

(** [s[:n]] *)
Fixpoint take (n : nat) (s : string) : string :=
  match n, s with
  | S k, String c r => String c (take k r)
  | _, _ => EmptyString
  end.

(** ** Text-mode reading: strict UTF-8 decoding and universal newlines *)

Definition bytes := string.

Definition byte_in (lo hi : nat) (c : ascii) : bool :=
  let n := nat_of_ascii c in (lo <=? n)%nat && (n <=? hi)%nat.

Definition cont (c : ascii) : bool := byte_in 128 191 c.

(** Well-formed UTF-8 byte sequences (the strict [utf-8] codec). *)
Fixpoint utf8_valid (b : bytes) : bool :=
  match b with
  | EmptyString => true
  | String c0 r0 =>
      if byte_in 0 127 c0 then utf8_valid r0
      else match r0 with
      | EmptyString => false
      | String c1 r1 =>
          if byte_in 194 223 c0 then cont c1 && utf8_valid r1
          else match r1 with
          | EmptyString => false
          | String c2 r2 =>
              if byte_in 224 239 c0 then
                (if byte_in 224 224 c0 then byte_in 160 191 c1
                 else if byte_in 237 237 c0 then byte_in 128 159 c1
                 else cont c1) && cont c2 && utf8_valid r2
              else match r2 with
              | EmptyString => false
              | String c3 r3 =>
                  byte_in 240 244 c0 &&
                  (if byte_in 240 240 c0 then byte_in 144 191 c1
                   else if byte_in 244 244 c0 then byte_in 128 143 c1
                   else cont c1) && cont c2 && cont c3 && utf8_valid r3
              end
          end
      end
  end.

Definition CR : ascii := ascii_of_nat 13.
Definition LF : ascii := ascii_of_nat 10.

(** Newline translation of text mode ([newline=None]): CR LF and a lone CR
    both read as LF. *)
Fixpoint universal_newlines (s : string) : string :=
  match s with
  | EmptyString => EmptyString
  | String c r =>
      if Ascii.eqb c CR then
        match r with
        | String d r' =>
            if Ascii.eqb d LF then String LF (universal_newlines r')
            else String LF (universal_newlines r)
        | EmptyString => String LF EmptyString
        end
      else String c (universal_newlines r)
  end.

(** What [open(filepath, "r", encoding="utf-8")] followed by [f.read()] meets. *)
Inductive open_outcome : Type :=
| FileNotFound
| OtherError (text : string)       (* any other exception, with its [str(e)] *)
| Opened (raw : bytes).

(** ** The syntax tree ([ast]) *)

(** [lineno], [end_lineno], [col_offset], [end_col_offset]; [None] when the
    attribute is absent. *)
Record position : Type := Position
  { lineno : option Z; end_lineno : option Z;
    col_offset : option Z; end_col_offset : option Z }.

Inductive constant : Type :=
| CStr (s : string)
| COther.

Record alias : Type := Alias { alias_name : string; asname : option string }.

(** [ast.arg] and [ast.arguments], over the expression type. *)
Record arg_of (A : Type) : Type := Arg
  { arg : string; annotation : option A; arg_pos : position }.
Arguments Arg {A}.
Arguments arg {A}.
Arguments annotation {A}.
Arguments arg_pos {A}.

Record arguments_of (A : Type) : Type := Arguments_
  { posonlyargs : list (arg_of A);
    args : list (arg_of A);
    vararg : option (arg_of A);
    kwonlyargs : list (arg_of A);
    kw_defaults : list (option A);
    kwarg : option (arg_of A);
    defaults : list A }.
Arguments Arguments_ {A}.
Arguments posonlyargs {A}.
Arguments args {A}.
Arguments vararg {A}.
Arguments kwonlyargs {A}.
Arguments kw_defaults {A}.
Arguments kwarg {A}.
Arguments defaults {A}.

Scheme All for list.
Scheme All for option.
Scheme All for arg_of.
Scheme All for arguments_of.

(** The node classes the parser tells apart, with their fields in [_fields]
    order; every other class is [Other] with its child nodes in field order.
    [FunctionDef true ...] is [ast.AsyncFunctionDef].  Position attributes are
    kept on the classes whose location the parser reads. *)
Inductive ast : Type :=
| Module (body : list ast)
| ClassDef (name : string) (bases keywords body decorator_list type_params : list ast)
           (pos : position)
| FunctionDef (async : bool) (name : string) (fargs : arguments_of ast)
              (body decorator_list : list ast) (returns : option ast)
              (type_params : list ast) (pos : position)
| Import (names : list alias)
| ImportFrom (module : option string) (names : list alias) (level : nat)
| Assign (targets : list ast) (value : ast) (pos : position)
| AnnAssign (target annotation : ast) (value : option ast) (pos : position)
| Call (func : ast) (cargs keywords : list ast) (pos : position)
| Name (id : string)
| Attribute (value : ast) (attr : string)
| Subscript (value slice : ast)
| Expr (value : ast)
| Constant (c : constant)
| Yield (value : option ast)
| YieldFrom (value : ast)
| Other (children : list ast).

Definition arg_ := arg_of ast.
Definition arguments := arguments_of ast.

(** What [_add_node] is handed as [node]. *)
Inductive any_node : Type :=
| AstNode (n : ast)
| ArgNode (a : arg_).

(** ** Output records *)

(** The free-form property bag of a node. *)
Record property_bag : Type := PropertyBag
  { is_class_method : bool;                 (* key present, value True *)
    decorators : option (list string) }.

(** The keyword arguments [**extra_props] of [_add_node]; a [bool] is [true]
    when the key is present (its value is then [True]). *)
Record extra_props : Type := ExtraProps
  { is_async : bool;
    is_static : bool;
    properties : option property_bag;
    is_property : bool;
    is_generator : bool;
    return_type : option string;
    type_annotation : option (option string) }.

Definition no_extra : extra_props :=
  ExtraProps false false None false false None None.

Record node_data : Type := NodeData
  { entity_id : string;
    kind : string;
    node_name : string;
    qualified_name : string;
    file_path : string;
    start_line : Z;
    end_line : Z;
    start_column : Z;
    end_column : Z;
    language : string;
    is_exported : bool;
    extra : extra_props;
    documentation : option string }.

(** The keyword arguments [**extra_props] of [_add_edge]. *)
Inductive edge_extra : Type :=
| NoExtra
| ExtendsExtra (target_name : string)
| CallsExtra (callee : string) (argument_count : nat) (call_line call_column : Z).

Record edge_data : Type := EdgeData
  { edge_id : string;
    edge_type : string;
    source_entity_id : string;
    target_entity_id : string;
    source_file_path : string;
    edge_props : edge_extra }.

Record ref_data : Type := RefData
  { ref_source_entity_id : string;
    ref_source_file_path : string;
    module_specifier : string;
    imported_symbol : string;
    is_type_only : bool;
    is_relative : bool;
    local_name : option string }.

Record location : Type := Location
  { loc_start_line : Z; loc_end_line : Z; loc_start_column : Z; loc_end_column : Z }.

(** ** The parser object *)

Record config : Type := Config
  { repoName : option string; packagePath : option string; branch : option string }.

(** [d.get(key, "")] *)
Definition get_default (o : option string) : string :=
  match o with Some s => s | None => "" end.

(** The attributes of [DevACPythonParser] ([config] is kept through
    [repo_name] and [package_path]; [pending_decorators] is never read or
    written after [__init__]). *)
Record parser : Type := Parser
  { filepath : string;
    source : string;
    repo_name : string;
    package_path : string;
    nodes : list node_data;
    edges : list edge_data;
    external_refs : list ref_data;
    warnings : list string;
    scope_stack : list string;
    current_class_name : option string;
    current_class_entity_id : option string;
    current_function_entity_id : option string }.

(** [DevACPythonParser.__init__] *)
Definition init (filepath_ source_ : string) (cfg : config) : parser :=
  {| filepath := replace_backslash filepath_;
     source := source_;
     repo_name := get_default (repoName cfg);
     package_path := get_default (packagePath cfg);
     nodes := []; edges := []; external_refs := []; warnings := [];
     scope_stack := [];
     current_class_name := None;
     current_class_entity_id := None;
     current_function_entity_id := None |}.

Definition append_node (n : node_data) (p : parser) : parser :=
  {| filepath := filepath p; source := source p; repo_name := repo_name p;
     package_path := package_path p;
     nodes := nodes p ++ [n]; edges := edges p;
     external_refs := external_refs p; warnings := warnings p;
     scope_stack := scope_stack p;
     current_class_name := current_class_name p;
     current_class_entity_id := current_class_entity_id p;
     current_function_entity_id := current_function_entity_id p |}.

Definition append_edge (e : edge_data) (p : parser) : parser :=
  {| filepath := filepath p; source := source p; repo_name := repo_name p;
     package_path := package_path p;
     nodes := nodes p; edges := edges p ++ [e];
     external_refs := external_refs p; warnings := warnings p;
     scope_stack := scope_stack p;
     current_class_name := current_class_name p;
     current_class_entity_id := current_class_entity_id p;
     current_function_entity_id := current_function_entity_id p |}.

Definition append_ref (r : ref_data) (p : parser) : parser :=
  {| filepath := filepath p; source := source p; repo_name := repo_name p;
     package_path := package_path p;
     nodes := nodes p; edges := edges p;
     external_refs := external_refs p ++ [r]; warnings := warnings p;
     scope_stack := scope_stack p;
     current_class_name := current_class_name p;
     current_class_entity_id := current_class_entity_id p;
     current_function_entity_id := current_function_entity_id p |}.

(** Assignment to the scope-tracking attributes. *)
Definition set_scope (stack : list string) (cname cid fid : option string)
  (p : parser) : parser :=
  {| filepath := filepath p; source := source p; repo_name := repo_name p;
     package_path := package_path p;
     nodes := nodes p; edges := edges p;
     external_refs := external_refs p; warnings := warnings p;
     scope_stack := stack;
     current_class_name := cname;
     current_class_entity_id := cid;
     current_function_entity_id := fid |}.

(** ** Helpers of the visitor *)

Definition position_of (n : any_node) : position :=
  match n with
  | AstNode (ClassDef _ _ _ _ _ _ pos) => pos
  | AstNode (FunctionDef _ _ _ _ _ _ _ pos) => pos
  | AstNode (Assign _ _ pos) => pos
  | AstNode (AnnAssign _ _ _ pos) => pos
  | AstNode (Call _ _ _ pos) => pos
  | ArgNode a => arg_pos a
  | _ => Position None None None None
  end.

Definition getattr (o : option Z) (default : Z) : Z :=
  match o with Some v => v | None => default end.

Definition _get_location (n : any_node) : location :=
  match n with
  | AstNode (Module _) => Location 1 1 0 0
  | _ =>
      let p := position_of n in
      {| loc_start_line := getattr (lineno p) 0;
         loc_end_line := getattr (end_lineno p) (getattr (lineno p) 0);
         loc_start_column := getattr (col_offset p) 0;
         loc_end_column := getattr (end_col_offset p) 0 |}
  end.

Definition _generate_scope_hash (scoped_name : string) : string :=
  take 12 (Sha256.hexdigest scoped_name).

Definition _generate_entity_id (p : parser) (kind_ scoped_name : string) : string :=
  repo_name p +++ ":" +++ package_path p +++ ":" +++ kind_ +++ ":"
  +++ _generate_scope_hash scoped_name.

Arguments Sha256.hexdigest : simpl never.
Arguments _generate_entity_id : simpl never.

Definition _get_scoped_name (p : parser) (name : string) : string :=
  match scope_stack p with
  | [] => name
  | _ => join "." (scope_stack p ++ [name])
  end.

Definition _get_qualified_name (p : parser) (name : string) : string :=
  _get_scoped_name p name.

Definition body_docstring (body : list ast) : option string :=
  match body with
  | Expr (Constant (CStr s)) :: _ => Some s
  | _ => None
  end.

Definition _get_docstring (n : any_node) : option string :=
  match n with
  | AstNode (FunctionDef _ _ _ body _ _ _ _) => body_docstring body
  | AstNode (ClassDef _ _ _ body _ _ _) => body_docstring body
  | AstNode (Module body) => body_docstring body
  | _ => None
  end.

(** [hasattr(node, "body")], for the nodes [_add_node] is called on. *)
Definition has_body (n : any_node) : bool :=
  match n with
  | AstNode (FunctionDef _ _ _ _ _ _ _ _) | AstNode (ClassDef _ _ _ _ _ _ _)
  | AstNode (Module _) => true
  | _ => false
  end.

Definition _has_decorator (decs : list ast) (name : string) : bool :=
  existsb (fun dec =>
             match dec with
             | Name id => String.eqb id name
             | Attribute _ attr => String.eqb attr name
             | _ => false
             end) decs.

Definition yield_in_arg (f : ast -> bool) (a : arg_) : bool :=
  match annotation a with Some x => f x | None => false end.

Definition yield_in_opt (f : ast -> bool) (o : option ast) : bool :=
  match o with Some x => f x | None => false end.

(** Some node of [ast.walk(n)] is a [Yield] or a [YieldFrom]. *)
Fixpoint walk_has_yield (n : ast) : bool :=
  match n with
  | Yield _ | YieldFrom _ => true
  | Module body => existsb walk_has_yield body
  | ClassDef _ bases keywords body decs tps _ =>
      existsb walk_has_yield bases || existsb walk_has_yield keywords
      || existsb walk_has_yield body || existsb walk_has_yield decs
      || existsb walk_has_yield tps
  | FunctionDef _ _ a body decs returns tps _ =>
      existsb (yield_in_arg walk_has_yield) (posonlyargs a)
      || existsb (yield_in_arg walk_has_yield) (args a)
      || match vararg a with Some x => yield_in_arg walk_has_yield x | None => false end
      || existsb (yield_in_arg walk_has_yield) (kwonlyargs a)
      || existsb (yield_in_opt walk_has_yield) (kw_defaults a)
      || match kwarg a with Some x => yield_in_arg walk_has_yield x | None => false end
      || existsb walk_has_yield (defaults a)
      || existsb walk_has_yield body || existsb walk_has_yield decs
      || yield_in_opt walk_has_yield returns || existsb walk_has_yield tps
  | Import _ | ImportFrom _ _ _ | Name _ | Constant _ => false
  | Assign targets v _ => existsb walk_has_yield targets || walk_has_yield v
  | AnnAssign t an v _ =>
      walk_has_yield t || walk_has_yield an || yield_in_opt walk_has_yield v
  | Call f cargs kws _ =>
      walk_has_yield f || existsb walk_has_yield cargs || existsb walk_has_yield kws
  | Attribute v _ => walk_has_yield v
  | Subscript v sl => walk_has_yield v || walk_has_yield sl
  | Expr v => walk_has_yield v
  | Other children => existsb walk_has_yield children
  end.

Definition _is_generator (n : ast) : bool := walk_has_yield n.

(** [_extract_object_name] *)
Fixpoint _extract_object_name (node : ast) : option string :=
  match node with
  | Name id => Some id
  | Attribute value attr =>
      let obj_name := _extract_object_name value in
      if truthy_opt obj_name then Some (get_default obj_name +++ "." +++ attr)
      else Some attr
  | Call _ _ _ _ => None
  | _ => None
  end.

(** [_extract_callee_name] *)
Fixpoint _extract_callee_name (func : ast) : option string :=
  match func with
  | Name id => Some id
  | Attribute value attr =>
      let obj_name := _extract_object_name value in
      if truthy_opt obj_name then Some (get_default obj_name +++ "." +++ attr)
      else Some attr
  | Call _ _ _ _ => None
  | Subscript value _ => _extract_callee_name value
  | _ => None
  end.

(** The dictionary [_add_edge] appends. *)
Definition edge_record (self : parser) (edge_type_ source_entity_id_ target_entity_id_ : string)
  (ex : edge_extra) : edge_data :=
  {| edge_id := edge_type_ +++ ":" +++ source_entity_id_ +++ ":" +++ target_entity_id_;
     edge_type := edge_type_;
     source_entity_id := source_entity_id_;
     target_entity_id := target_entity_id_;
     source_file_path := filepath self;
     edge_props := ex |}.

(** [_add_edge] *)
Definition _add_edge (self : parser) (edge_type_ source_entity_id_ target_entity_id_ : string)
  (ex : edge_extra) : parser :=
  append_edge (edge_record self edge_type_ source_entity_id_ target_entity_id_ ex) self.

(** The dictionary [_add_node] appends. *)
Definition node_record (self : parser) (kind_ name : string) (node : any_node)
  (ex : extra_props) : node_data :=
  let location := _get_location node in
  let scoped_name := _get_scoped_name self name in
  let entity_id_ := _generate_entity_id self kind_ scoped_name in
  let qualified_name_ := _get_qualified_name self name in
  let docstring := if has_body node then _get_docstring node else None in
  {| entity_id := entity_id_;
     kind := kind_;
     node_name := name;
     qualified_name := qualified_name_;
     file_path := filepath self;
     start_line := loc_start_line location;
     end_line := loc_end_line location;
     start_column := loc_start_column location;
     end_column := loc_end_column location;
     language := "python";
     is_exported := true;
     extra := ex;
     documentation := if truthy_opt docstring then docstring else None |}.

(** [_add_node]: the new entity id and the updated parser. *)
Definition _add_node (self : parser) (kind_ name : string) (node : any_node)
  (parent_entity_id : option string) (ex : extra_props) : string * parser :=
  let node_data_ := node_record self kind_ name node ex in
  let entity_id_ := entity_id node_data_ in
  let self1 := append_node node_data_ self in
  let self2 :=
    if truthy_opt parent_entity_id
    then _add_edge self1 "CONTAINS" (get_default parent_entity_id) entity_id_ NoExtra
    else self1 in
  (entity_id_, self2).

(** [_add_external_ref] *)
Definition _add_external_ref (self : parser)
  (module_specifier_ imported_symbol_ source_entity_id_ : string)
  (local_name_ : option string) : parser :=
  append_ref
    {| ref_source_entity_id := source_entity_id_;
       ref_source_file_path := filepath self;
       module_specifier := module_specifier_;
       imported_symbol := imported_symbol_;
       is_type_only := false;
       is_relative := startswith_dot module_specifier_;
       local_name :=
         if truthy_opt local_name_
            && negb (String.eqb (get_default local_name_) imported_symbol_)
         then local_name_ else None |} self.

(** The synthesized module-level entity id. *)
Definition module_entity_id (self : parser) : string :=
  _generate_entity_id self "module" (basename (filepath self)).

(** [self.current_function_entity_id or self.current_class_entity_id or ""],
    replaced by the module-level id when empty. *)
Definition import_source (self : parser) : string :=
  let source_entity_id_ :=
    get_default (py_or (py_or (current_function_entity_id self)
                              (current_class_entity_id self)) (Some "")) in
  if negb (truthy source_entity_id_) then module_entity_id self else source_entity_id_.

(** [visit_Import] *)
Definition visit_Import (self : parser) (names : list alias) : parser :=
  let source_entity_id_ := import_source self in
  fold_left (fun s a => _add_external_ref s (alias_name a) "*" source_entity_id_ (asname a))
            names self.

(** [visit_ImportFrom] *)
Definition visit_ImportFrom (self : parser) (module_ : option string)
  (names : list alias) (level : nat) : parser :=
  let source_entity_id_ := import_source self in
  let module0 := get_default (py_or module_ (Some "")) in
  let module1 :=
    match level with
    | O => module0
    | S _ => if truthy module0 then dots level +++ module0 else dots level
    end in
  fold_left (fun s a => _add_external_ref s module1 (alias_name a) source_entity_id_ (asname a))
            names self.

Definition primitive_type_names : list string :=
  ["str"; "int"; "float"; "bool"; "bytes"; "list"; "dict"; "set"; "tuple"].

Section Walker.

(** [ast.unparse], the library's printer of expressions. *)
Variable unparse : ast -> string.

Definition _get_type_annotation (annotation_ : option ast) : option string :=
  match annotation_ with
  | None => None
  | Some a => Some (unparse a)
  end.

(** The keyword arguments [visit_ClassDef] passes to [_add_node]. *)
Definition class_extra_props (decorator_list : list ast) : extra_props :=
  let decorators_ := map unparse decorator_list in
  {| is_async := false; is_static := false;
     properties := Some (PropertyBag false
                           (match decorators_ with [] => None | _ => Some decorators_ end));
     is_property := false; is_generator := false;
     return_type := None; type_annotation := None |}.

(** The loop of [visit_ClassDef] over [node.bases]. *)
Definition extends_loop (self : parser) (entity_id_ : string) (bases : list ast) : parser :=
  fold_left (fun s base =>
               let base_name := unparse base in
               let base_entity_id := _generate_entity_id s "class" base_name in
               _add_edge s "EXTENDS" entity_id_ base_entity_id (ExtendsExtra base_name))
            bases self.

(** [visit_ClassDef], up to the traversal of the body. *)
Definition ClassDef_enter (self : parser) (node : ast) (name : string)
  (bases decorator_list : list ast) : parser :=
  let '(entity_id_, self1) :=
    _add_node self "class" name (AstNode node) (current_class_entity_id self)
      (class_extra_props decorator_list) in
  let self2 := extends_loop self1 entity_id_ bases in
  set_scope (scope_stack self2 ++ [name]) (Some name) (Some entity_id_)
            (current_function_entity_id self2) self2.

(** [visit_ClassDef], after the traversal of the body. *)
Definition ClassDef_leave (prev_class_name prev_class_entity_id : option string)
  (self : parser) : parser :=
  set_scope (removelast (scope_stack self)) prev_class_name prev_class_entity_id
            (current_function_entity_id self) self.

(** The parameters [_process_function_args] collects, in order. *)
Definition all_args (a : arguments) : list arg_ :=
  filter (fun x => negb (String.eqb (arg x) "self" || String.eqb (arg x) "cls")) (args a)
  ++ (match vararg a with Some v => [v] | None => [] end)
  ++ kwonlyargs a
  ++ (match kwarg a with Some k => [k] | None => [] end).

Definition parameter_extra_props (x : arg_) : extra_props :=
  {| is_async := false; is_static := false; properties := None;
     is_property := false; is_generator := false; return_type := None;
     type_annotation := Some (_get_type_annotation (annotation x)) |}.

(** The body of the loop of [_process_function_args] over [all_args]. *)
Definition add_parameter (func_entity_id : string) (s : parser) (x : arg_) : parser :=
  let '(param_entity_id, s1) :=
    _add_node s "parameter" (arg x) (ArgNode x) None (parameter_extra_props x) in
  _add_edge s1 "PARAMETER_OF" param_entity_id func_entity_id NoExtra.

(** [_process_function_args] *)
Definition _process_function_args (self : parser) (a : arguments)
  (func_entity_id : string) : parser :=
  fold_left (add_parameter func_entity_id) (all_args a) self.

(** The keyword arguments [_visit_function] builds for its node. *)
Definition function_extra_props (is_async_ : bool) (node : ast)
  (decorator_list : list ast) (returns : option ast) : extra_props :=
  let is_static_ := _has_decorator decorator_list "staticmethod" in
  let is_classmethod := _has_decorator decorator_list "classmethod" in
  let is_property_ := _has_decorator decorator_list "property" in
  let is_generator_ := _is_generator node in
  let return_type_ := _get_type_annotation returns in
  let decorators_ := map unparse decorator_list in
  {| is_async := is_async_;
     is_static := is_static_;
     properties :=
       match is_classmethod, decorators_ with
       | true, [] => Some (PropertyBag true None)
       | true, _ => Some (PropertyBag true (Some decorators_))
       | false, [] => None
       | false, _ => Some (PropertyBag false (Some decorators_))
       end;
     is_property := is_property_;
     is_generator := is_generator_;
     return_type := if truthy_opt return_type_ then return_type_ else None;
     type_annotation := None |}.

(** [_visit_function], up to the traversal of the node's children. *)
Definition function_enter (self : parser) (node : ast) (is_async_ : bool) (name : string)
  (a : arguments) (decorator_list : list ast) (returns : option ast) : parser :=
  let is_method :=
    match current_class_entity_id self with Some _ => true | None => false end in
  let kind_ := if is_method then "method" else "function" in
  let parent_id := if is_method then current_class_entity_id self else None in
  let '(entity_id_, self1) :=
    _add_node self kind_ name (AstNode node) parent_id
      (function_extra_props is_async_ node decorator_list returns) in
  let self2 :=
    set_scope (scope_stack self1 ++ [name]) (current_class_name self1)
              (current_class_entity_id self1) (Some entity_id_) self1 in
  _process_function_args self2 a entity_id_.

(** [_visit_function], after the traversal of the node's children. *)
Definition function_leave (prev_function_entity_id : option string)
  (self : parser) : parser :=
  set_scope (removelast (scope_stack self)) (current_class_name self)
            (current_class_entity_id self) prev_function_entity_id self.

(** [visit_Assign], before [generic_visit]. *)
Definition Assign_emit (self : parser) (node : ast) (targets : list ast) : parser :=
  match current_function_entity_id self with
  | None =>
      fold_left (fun s target =>
                   match target with
                   | Name id =>
                       let is_constant := isupper id in
                       let kind_ := if is_constant then "constant" else "variable" in
                       snd (_add_node s kind_ id (AstNode node)
                                      (current_class_entity_id s) no_extra)
                   | _ => s
                   end)
                targets self
  | Some _ => self
  end.

(** [visit_AnnAssign], before [generic_visit]. *)
Definition AnnAssign_emit (self : parser) (node target annotation_ : ast)
  (value : option ast) : parser :=
  match current_function_entity_id self, target with
  | None, Name name =>
      let type_annotation_ := _get_type_annotation (Some annotation_) in
      let is_type_alias :=
        match value with
        | Some (Name id) => existsb (String.eqb id) primitive_type_names
        | _ => false
        end in
      let kind_ :=
        if is_type_alias then "type"
        else if isupper name then "constant" else "variable" in
      snd (_add_node self kind_ name (AstNode node) (current_class_entity_id self)
             {| is_async := false; is_static := false; properties := None;
                is_property := false; is_generator := false; return_type := None;
                type_annotation := Some type_annotation_ |})
  | _, _ => self
  end.

(** [visit_Call], before [generic_visit]. *)
Definition Call_emit (self : parser) (node func : ast) (cargs keywords : list ast) : parser :=
  let source_entity_id_ :=
    if truthy_opt (current_function_entity_id self)
    then get_default (current_function_entity_id self)
    else module_entity_id self in
  let callee_name := _extract_callee_name func in
  if truthy_opt callee_name then
    let target_entity_id_ := "unresolved:" +++ get_default callee_name in
    let location := _get_location (AstNode node) in
    _add_edge self "CALLS" source_entity_id_ target_entity_id_
      (CallsExtra (get_default callee_name)
                  (List.length cargs + List.length keywords)
                  (loc_start_line location) (loc_start_column location))
  else self.

(** [generic_visit] of an [arg] node: its annotation. *)
Definition visit_arg (visit : parser -> ast -> parser) (self : parser) (x : arg_) : parser :=
  match annotation x with Some e => visit self e | None => self end.

Definition visit_opt (visit : parser -> ast -> parser) (self : parser) (o : option ast)
  : parser :=
  match o with Some e => visit self e | None => self end.

Definition visit_opt_arg (visit : parser -> ast -> parser) (self : parser)
  (o : option arg_) : parser :=
  match o with Some x => visit_arg visit self x | None => self end.

(** [generic_visit] of an [arguments] node. *)
Definition visit_arguments (visit : parser -> ast -> parser) (self : parser)
  (a : arguments) : parser :=
  let s1 := fold_left (visit_arg visit) (posonlyargs a) self in
  let s2 := fold_left (visit_arg visit) (args a) s1 in
  let s3 := visit_opt_arg visit s2 (vararg a) in
  let s4 := fold_left (visit_arg visit) (kwonlyargs a) s3 in
  let s5 := fold_left (visit_opt visit) (kw_defaults a) s4 in
  let s6 := visit_opt_arg visit s5 (kwarg a) in
  fold_left visit (defaults a) s6.

(** [NodeVisitor.visit]: dispatch on the node class to the [visit_*] methods
    of the parser, [generic_visit] for every other class. *)
Fixpoint visit (self : parser) (node : ast) {struct node} : parser :=
  match node with
  | Module body_ => fold_left visit body_ self
  | ClassDef name bases keywords body_ decorator_list type_params pos =>
      let prev_class_name := current_class_name self in
      let prev_class_entity_id := current_class_entity_id self in
      let s0 := ClassDef_enter self node name bases decorator_list in
      let s1 := fold_left visit bases s0 in
      let s2 := fold_left visit keywords s1 in
      let s3 := fold_left visit body_ s2 in
      let s4 := fold_left visit decorator_list s3 in
      let s5 := fold_left visit type_params s4 in
      ClassDef_leave prev_class_name prev_class_entity_id s5
  | FunctionDef is_async_ name a body_ decorator_list returns type_params pos =>
      let prev_function_entity_id := current_function_entity_id self in
      let s0 := function_enter self node is_async_ name a decorator_list returns in
      let s1 := visit_arguments visit s0 a in
      let s2 := fold_left visit body_ s1 in
      let s3 := fold_left visit decorator_list s2 in
      let s4 := visit_opt visit s3 returns in
      let s5 := fold_left visit type_params s4 in
      function_leave prev_function_entity_id s5
  | Import names => visit_Import self names
  | ImportFrom module_ names level => visit_ImportFrom self module_ names level
  | Assign targets value pos =>
      let s0 := Assign_emit self node targets in
      let s1 := fold_left visit targets s0 in
      visit s1 value
  | AnnAssign target annotation_ value pos =>
      let s0 := AnnAssign_emit self node target annotation_ value in
      let s1 := visit s0 target in
      let s2 := visit s1 annotation_ in
      visit_opt visit s2 value
  | Call func cargs keywords pos =>
      let s0 := Call_emit self node func cargs keywords in
      let s1 := visit s0 func in
      let s2 := fold_left visit cargs s1 in
      fold_left visit keywords s2
  | Name _ => self
  | Attribute value _ => visit self value
  | Subscript value slice => visit (visit self value) slice
  | Expr value => visit self value
  | Constant _ => self
  | Yield value => visit_opt visit self value
  | YieldFrom value => visit self value
  | Other children => fold_left visit children self
  end.

(** [NodeVisitor.generic_visit]: visit the child nodes of [node], field by
    field ([Import] and [ImportFrom] have no child the parser looks at). *)
Definition generic_visit (self : parser) (node : ast) : parser :=
  match node with
  | Module body_ => fold_left visit body_ self
  | ClassDef _ bases keywords body_ decorator_list type_params _ =>
      fold_left visit type_params
        (fold_left visit decorator_list
           (fold_left visit body_ (fold_left visit keywords (fold_left visit bases self))))
  | FunctionDef _ _ a body_ decorator_list returns type_params _ =>
      fold_left visit type_params
        (visit_opt visit
           (fold_left visit decorator_list
              (fold_left visit body_ (visit_arguments visit self a))) returns)
  | Import _ | ImportFrom _ _ _ | Name _ | Constant _ => self
  | Assign targets value _ => visit (fold_left visit targets self) value
  | AnnAssign target annotation_ value _ =>
      visit_opt visit (visit (visit self target) annotation_) value
  | Call func cargs keywords _ =>
      fold_left visit keywords (fold_left visit cargs (visit self func))
  | Attribute value _ | Expr value | YieldFrom value => visit self value
  | Subscript value slice => visit (visit self value) slice
  | Yield value => visit_opt visit self value
  | Other children => fold_left visit children self
  end.

(** ** The traversal when a call can fail

    [visit] is the traversal in which every call returns.  No method of the
    parser catches an exception and none has a [finally] clause, so an
    exception raised under [generic_visit] leaves [visit_ClassDef] and
    [_visit_function] before their restoring assignments.  The exception a
    traversal raises on its own is RecursionError, when the calls of
    [NodeVisitor.visit] nest deeper than the interpreter allows.
    [visit_within depth] is the traversal with room for [depth] nested calls of
    [visit]; the frames of the other calls are taken to fit. *)
Inductive visit_exit : Type :=
| Returned (after : parser)     (* the call returned; the parser after it *)
| Raised (at_raise : parser).   (* RecursionError left the call; the parser as it left it *)

(** The next statement runs only if the call before it returned. *)
Definition and_then (o : visit_exit) (k : parser -> visit_exit) : visit_exit :=
  match o with
  | Returned s => k s
  | Raised s => Raised s
  end.

(** [for item in value: self.visit(item)] *)
Fixpoint each {A : Type} (v : parser -> A -> visit_exit) (l : list A) (self : parser)
  : visit_exit :=
  match l with
  | [] => Returned self
  | x :: r => and_then (v self x) (each v r)
  end.

Definition arg_with (v : parser -> ast -> visit_exit) (self : parser) (x : arg_)
  : visit_exit :=
  match annotation x with Some e => v self e | None => Returned self end.

Definition opt_with (v : parser -> ast -> visit_exit) (self : parser) (o : option ast)
  : visit_exit :=
  match o with Some e => v self e | None => Returned self end.

Definition opt_arg_with (v : parser -> ast -> visit_exit) (self : parser)
  (o : option arg_) : visit_exit :=
  match o with Some x => arg_with v self x | None => Returned self end.

Definition arguments_with (v : parser -> ast -> visit_exit) (self : parser)
  (a : arguments) : visit_exit :=
  and_then (each (arg_with v) (posonlyargs a) self) (fun s1 =>
  and_then (each (arg_with v) (args a) s1) (fun s2 =>
  and_then (opt_arg_with v s2 (vararg a)) (fun s3 =>
  and_then (each (arg_with v) (kwonlyargs a) s3) (fun s4 =>
  and_then (each (opt_with v) (kw_defaults a) s4) (fun s5 =>
  and_then (opt_arg_with v s5 (kwarg a)) (fun s6 =>
  each v (defaults a) s6)))))).

(** [generic_visit], the children visited by [v]: the first call that raises
    ends the loop. *)
Definition generic_visit_with (v : parser -> ast -> visit_exit) (self : parser)
  (node : ast) : visit_exit :=
  match node with
  | Module body_ => each v body_ self
  | ClassDef _ bases keywords body_ decorator_list type_params _ =>
      and_then (each v bases self) (fun s1 =>
      and_then (each v keywords s1) (fun s2 =>
      and_then (each v body_ s2) (fun s3 =>
      and_then (each v decorator_list s3) (fun s4 =>
      each v type_params s4))))
  | FunctionDef _ _ a body_ decorator_list returns type_params _ =>
      and_then (arguments_with v self a) (fun s1 =>
      and_then (each v body_ s1) (fun s2 =>
      and_then (each v decorator_list s2) (fun s3 =>
      and_then (opt_with v s3 returns) (fun s4 =>
      each v type_params s4))))
  | Import _ | ImportFrom _ _ _ | Name _ | Constant _ => Returned self
  | Assign targets value _ => and_then (each v targets self) (fun s1 => v s1 value)
  | AnnAssign target annotation_ value _ =>
      and_then (v self target) (fun s1 =>
      and_then (v s1 annotation_) (fun s2 =>
      opt_with v s2 value))
  | Call func cargs keywords _ =>
      and_then (v self func) (fun s1 =>
      and_then (each v cargs s1) (fun s2 =>
      each v keywords s2))
  | Attribute value _ | Expr value | YieldFrom value => v self value
  | Subscript value slice => and_then (v self value) (fun s1 => v s1 slice)
  | Yield value => opt_with v self value
  | Other children => each v children self
  end.

Fixpoint visit_within (depth : nat) (self : parser) (node : ast) {struct depth}
  : visit_exit :=
  match depth with
  | O => Raised self
  | S d =>
      match node with
      | ClassDef name bases _ _ decorator_list _ _ =>
          let prev_class_name := current_class_name self in
          let prev_class_entity_id := current_class_entity_id self in
          let s0 := ClassDef_enter self node name bases decorator_list in
          and_then (generic_visit_with (visit_within d) s0 node) (fun s1 =>
          Returned (ClassDef_leave prev_class_name prev_class_entity_id s1))
      | FunctionDef is_async_ name a _ decorator_list returns _ _ =>
          let prev_function_entity_id := current_function_entity_id self in
          let s0 := function_enter self node is_async_ name a decorator_list returns in
          and_then (generic_visit_with (visit_within d) s0 node) (fun s1 =>
          Returned (function_leave prev_function_entity_id s1))
      | Import names => Returned (visit_Import self names)
      | ImportFrom module_ names level =>
          Returned (visit_ImportFrom self module_ names level)
      | Assign targets _ _ =>
          generic_visit_with (visit_within d) (Assign_emit self node targets) node
      | AnnAssign target annotation_ value _ =>
          generic_visit_with (visit_within d)
            (AnnAssign_emit self node target annotation_ value) node
      | Call func cargs keywords _ =>
          generic_visit_with (visit_within d) (Call_emit self node func cargs keywords) node
      | _ => generic_visit_with (visit_within d) self node
      end
  end.

End Walker.

(** ** The top-level entry point *)

(** The library functions the entry point calls. *)
Record pylib : Type := PyLib
  { ast_parse : string -> string -> ast + string;  (* tree, or [str(e)] of the SyntaxError *)
    ast_unparse : ast -> string;
    decode_error_text : bytes -> string;           (* [str(e)] of the UnicodeDecodeError *)
    json_loads : string -> config + string }.      (* value, or [str(e)] of the JSONDecodeError *)

(** The process environment: the file system, the successive readings of
    [time.time()] and [os.path.abspath]. *)
Record environment : Type := Environment
  { open_file : string -> open_outcome;
    clock : nat -> float;
    abspath : string -> string }.

(** A JSON number: the literal [0] or a float. *)
Inductive py_number : Type :=
| PyInt (z : Z)
| PyFloat (f : float).

Record parse_result : Type := ParseResult
  { res_error : option string;                 (* the key is absent when [None] *)
    res_nodes : list node_data;
    res_edges : list edge_data;
    res_externalRefs : list ref_data;
    res_sourceFileHash : string;
    res_filePath : string;
    res_parseTimeMs : py_number;
    res_warnings : list string }.

(** [(t1 - t0) * 1000] *)
Definition elapsed_ms (t0 t1 : float) : float :=
  PrimFloat.mul (PrimFloat.sub t1 t0) 1000%float.

Definition io_failure (text filepath_ : string) : parse_result :=
  {| res_error := Some text;
     res_nodes := []; res_edges := []; res_externalRefs := [];
     res_sourceFileHash := "";
     res_filePath := filepath_;
     res_parseTimeMs := PyInt 0;
     res_warnings := [text] |}.

(** The text read from the file, or the result returned by the [except]
    clause that caught the failure. *)
Definition read_source (lib : pylib) (env : environment) (filepath_ : string)
  : string + parse_result :=
  match open_file env filepath_ with
  | FileNotFound => inr (io_failure ("File not found: " +++ filepath_) filepath_)
  | OtherError text => inr (io_failure ("Error reading file: " +++ text) filepath_)
  | Opened raw =>
      if utf8_valid raw then inl (universal_newlines raw)
      else inr (io_failure ("Error reading file: " +++ decode_error_text lib raw) filepath_)
  end.

(** [parse_python_file] *)
Definition parse_python_file (lib : pylib) (env : environment) (filepath_ : string)
  (cfg : config) : parse_result :=
  let start_time := clock env 0 in
  let warnings0 : list string := [] in
  match read_source lib env filepath_ with
  | inr failure => failure
  | inl source_ =>
      let source_hash := Sha256.hexdigest source_ in
      match ast_parse lib source_ filepath_ with
      | inr text =>
          let warnings1 := warnings0 ++ ["Syntax error: " +++ text] in
          let parse_time_ms := elapsed_ms start_time (clock env 1) in
          {| res_error := None;
             res_nodes := []; res_edges := []; res_externalRefs := [];
             res_sourceFileHash := source_hash;
             res_filePath := filepath_;
             res_parseTimeMs := PyFloat parse_time_ms;
             res_warnings := warnings1 |}
      | inl tree =>
          let parser_ := visit (ast_unparse lib) (init filepath_ source_ cfg) tree in
          let parse_time_ms := elapsed_ms start_time (clock env 1) in
          {| res_error := None;
             res_nodes := nodes parser_;
             res_edges := edges parser_;
             res_externalRefs := external_refs parser_;
             res_sourceFileHash := source_hash;
             res_filePath := filepath_;
             res_parseTimeMs := PyFloat parse_time_ms;
             res_warnings := warnings parser_ ++ warnings0 |}
      end
  end.

(** What [print(json.dumps(...))] writes. *)
Inductive printed : Type :=
| ErrorObject (text : string)                       (* [json.dumps({"error": text})] *)
| ResultObject (r : parse_result) (indent : option nat).

Record cli_outcome : Type := CliOutcome
  { stdout : list printed; stderr : list printed; exit_code : Z }.

Definition default_config : config := Config (Some "") (Some "") (Some "base").

(** The configuration [main] ends up with, or the text of the JSON error. *)
Definition cli_config (lib : pylib) (argv : list string) : config + string :=
  match argv with
  | _ :: _ :: flag :: json :: _ =>
      if String.eqb flag "--config" then json_loads lib json else inl default_config
  | _ => inl default_config
  end.

(** [main] *)
Definition main (lib : pylib) (env : environment) (argv : list string) : cli_outcome :=
  match argv with
  | [] | [_] =>
      {| stdout := []; stderr := [ErrorObject "File path argument required"]; exit_code := 1 |}
  | _ :: path :: _ =>
      let filepath_ := abspath env path in
      match cli_config lib argv with
      | inr text =>
          {| stdout := []; stderr := [ErrorObject ("Invalid config JSON: " +++ text)];
             exit_code := 1 |}
      | inl cfg =>
          let result := parse_python_file lib env filepath_ cfg in
          match res_error result, res_nodes result with
          | Some _, [] =>
              {| stdout := []; stderr := [ResultObject result None]; exit_code := 1 |}
          | _, _ =>
              {| stdout := [ResultObject result (Some 2%nat)]; stderr := []; exit_code := 0 |}
          end
      end
  end.

(** ** The model on small inputs *)

Example basename_of_path : basename "/repo/pkg/a.py" = "a.py".
Proof. reflexivity. Qed.

Example basename_of_directory : basename "/repo/pkg/" = "".
Proof. reflexivity. Qed.

Example windows_separators :
  replace_backslash (String "c" (String backslash "a.py")) = "c/a.py".
Proof. reflexivity. Qed.

Example upper_case_names :
  isupper "MAX_SIZE" = true /\ isupper "Max" = false /\ isupper "_1" = false.
Proof. vm_compute. repeat split. Qed.

(** Cased characters outside ASCII count: capital E with acute (U+00C9), small
    e with acute (U+00E9), the title-case digraph U+01C5, and the Roman numeral
    one U+2160, which is upper case without being a letter. *)
Example upper_case_beyond_ascii :
  code_points "É" = [201] /\ isupper "É" = true /\ isupper "Aé" = false
  /\ isupper "Aǅ" = false /\ isupper "Ⅰ" = true /\ isupper "日本" = false.
Proof. vm_compute. repeat split. Qed.

Example newlines_translated :
  universal_newlines (String "a" (String CR (String LF (String "b" (String CR "c")))))
  = String "a" (String LF (String "b" (String LF "c"))).
Proof. reflexivity. Qed.

Example utf8_accepts_two_byte_sequence :
  utf8_valid (String (ascii_of_nat 195) (String (ascii_of_nat 169) "")) = true.
Proof. reflexivity. Qed.

Example utf8_rejects_lone_continuation :
  utf8_valid (String (ascii_of_nat 128) "") = false.
Proof. reflexivity. Qed.

Example utf8_rejects_surrogate :
  utf8_valid (String (ascii_of_nat 237)
                (String (ascii_of_nat 160) (String (ascii_of_nat 128) ""))) = false.
Proof. reflexivity. Qed.

Example scope_hash_of_name : _generate_scope_hash "A" = "559aead08264".
Proof. vm_compute. reflexivity. Qed.

(** * Properties *)

(** ** Traversal: one induction for every relation between the parser before
    and after a visit *)

Section VisitRel.

Variable unparse : ast -> string.
Variable R : parser -> parser -> Prop.

Hypothesis R_refl : forall s, R s s.
Hypothesis R_trans : forall a b c, R a b -> R b c -> R a c.
Hypothesis R_class : forall self node name bases decs s',
  R (ClassDef_enter unparse self node name bases decs) s' ->
  R self (ClassDef_leave (current_class_name self) (current_class_entity_id self) s').
Hypothesis R_function : forall self node is_async_ name a decs returns s',
  R (function_enter unparse self node is_async_ name a decs returns) s' ->
  R self (function_leave (current_function_entity_id self) s').
Hypothesis R_import : forall self names, R self (visit_Import self names).
Hypothesis R_import_from : forall self m names level,
  R self (visit_ImportFrom self m names level).
Hypothesis R_assign : forall self node targets, R self (Assign_emit self node targets).
Hypothesis R_ann_assign : forall self node target ann value,
  R self (AnnAssign_emit unparse self node target ann value).
Hypothesis R_call : forall self node func cargs kws,
  R self (Call_emit self node func cargs kws).

Let V (n : ast) : Prop := forall self, R self (visit unparse self n).

Lemma fold_visit_rel (l : list ast) :
  list_all ast V l -> forall self, R self (fold_left (visit unparse) l self).
Proof.
  induction 1 as [|x Hx l _ IH]; intros self; simpl.
  - apply R_refl.
  - eapply R_trans; [apply Hx | apply IH].
Qed.

Lemma visit_opt_rel (o : option ast) :
  option_all ast V o -> forall self, R self (visit_opt (visit unparse) self o).
Proof.
  destruct 1 as [x Hx|]; intros self; simpl; [apply Hx | apply R_refl].
Qed.

Lemma visit_arg_rel (x : arg_) :
  arg_of_all ast V x -> forall self, R self (visit_arg (visit unparse) self x).
Proof.
  destruct 1 as [nm ann Hann ps]; intros self. unfold visit_arg; simpl.
  destruct Hann as [e He|]; [apply He | apply R_refl].
Qed.

Lemma fold_visit_arg_rel (l : list arg_) :
  list_all (arg_of ast) (arg_of_all ast V) l ->
  forall self, R self (fold_left (visit_arg (visit unparse)) l self).
Proof.
  induction 1 as [|x Hx l _ IH]; intros self; simpl.
  - apply R_refl.
  - eapply R_trans; [apply visit_arg_rel, Hx | apply IH].
Qed.

Lemma visit_opt_arg_rel (o : option arg_) :
  option_all (arg_of ast) (arg_of_all ast V) o ->
  forall self, R self (visit_opt_arg (visit unparse) self o).
Proof.
  destruct 1 as [x Hx|]; intros self; simpl; [apply visit_arg_rel, Hx | apply R_refl].
Qed.

Lemma fold_visit_opt_rel (l : list (option ast)) :
  list_all (option ast) (option_all ast V) l ->
  forall self, R self (fold_left (visit_opt (visit unparse)) l self).
Proof.
  induction 1 as [|x Hx l _ IH]; intros self; simpl.
  - apply R_refl.
  - eapply R_trans; [apply visit_opt_rel, Hx | apply IH].
Qed.

Lemma visit_arguments_rel (a : arguments) :
  arguments_of_all ast V a ->
  forall self, R self (visit_arguments (visit unparse) self a).
Proof.
  destruct 1 as [po Hpo ar Har va Hva ko Hko kd Hkd kw Hkw de Hde]; intros self.
  unfold visit_arguments; simpl.
  eapply R_trans; [apply fold_visit_arg_rel, Hpo|].
  eapply R_trans; [apply fold_visit_arg_rel, Har|].
  eapply R_trans; [apply visit_opt_arg_rel, Hva|].
  eapply R_trans; [apply fold_visit_arg_rel, Hko|].
  eapply R_trans; [apply fold_visit_opt_rel, Hkd|].
  eapply R_trans; [apply visit_opt_arg_rel, Hkw|].
  apply fold_visit_rel, Hde.
Qed.

(** Every relation that is a preorder, holds across each emission step and
    is re-established by leaving a class or function holds across [visit]. *)
Lemma visit_rel (node : ast) : forall self, R self (visit unparse self node).
Proof.
  change (V node).
  induction node using ast_ind; intros self; simpl.
  - now apply fold_visit_rel.
  - eapply R_class.
    do 4 (eapply R_trans; [| apply fold_visit_rel; assumption]).
    apply fold_visit_rel; assumption.
  - eapply R_function.
    eapply R_trans; [| apply fold_visit_rel; assumption].
    eapply R_trans; [| apply visit_opt_rel; assumption].
    do 2 (eapply R_trans; [| apply fold_visit_rel; assumption]).
    apply visit_arguments_rel; assumption.
  - apply R_import.
  - apply R_import_from.
  - eapply R_trans; [| apply IHnode].
    eapply R_trans; [| apply fold_visit_rel; assumption].
    apply R_assign.
  - eapply R_trans; [| apply visit_opt_rel; assumption].
    eapply R_trans; [| apply IHnode2].
    eapply R_trans; [| apply IHnode1].
    apply R_ann_assign.
  - do 2 (eapply R_trans; [| apply fold_visit_rel; assumption]).
    eapply R_trans; [| apply IHnode].
    apply R_call.
  - apply R_refl.
  - apply IHnode.
  - eapply R_trans; [apply IHnode1 | apply IHnode2].
  - apply IHnode.
  - apply R_refl.
  - now apply visit_opt_rel.
  - apply IHnode.
  - now apply fold_visit_rel.
Qed.

End VisitRel.

(** ** Scope tracking and the attributes a traversal never writes *)

(** The scope-tracking attributes. *)
Definition scope (p : parser) :=
  (scope_stack p, current_class_name p, current_class_entity_id p,
   current_function_entity_id p).

(** The attributes no visit method assigns or appends to. *)
Definition fixed (p : parser) :=
  (filepath p, source p, repo_name p, package_path p, warnings p).

Definition frame (a b : parser) : Prop := fixed b = fixed a /\ scope b = scope a.

(** The id [_add_node] gives a node of this kind and name. *)
Definition new_entity_id (self : parser) (kind_ name : string) : string :=
  _generate_entity_id self kind_ (_get_scoped_name self name).

Lemma generate_entity_id_fixed a b k n :
  fixed b = fixed a -> _generate_entity_id b k n = _generate_entity_id a k n.
Proof.
  unfold fixed, _generate_entity_id. intros H. injection H as _ _ Hr Hp _.
  now rewrite Hr, Hp.
Qed.

Lemma add_node_fst self k n node par ex :
  fst (_add_node self k n node par ex) = new_entity_id self k n.
Proof. reflexivity. Qed.

Lemma add_node_frame self k n node par ex :
  frame self (snd (_add_node self k n node par ex)).
Proof. unfold _add_node; simpl. destruct (truthy_opt par); split; reflexivity. Qed.

Lemma add_edge_frame self t a b ex : frame self (_add_edge self t a b ex).
Proof. split; reflexivity. Qed.

Lemma add_external_ref_frame self m i src l : frame self (_add_external_ref self m i src l).
Proof. split; reflexivity. Qed.

Lemma frame_refl s : frame s s.
Proof. split; reflexivity. Qed.

Lemma frame_trans a b c : frame a b -> frame b c -> frame a c.
Proof. intros [H1 H2] [H3 H4]. split; congruence. Qed.

(** A loop whose body keeps a relation keeps it. *)
Lemma fold_left_rel {A} (R : parser -> parser -> Prop) (f : parser -> A -> parser) :
  (forall s, R s s) -> (forall a b c, R a b -> R b c -> R a c) ->
  (forall s x, R s (f s x)) ->
  forall l s, R s (fold_left f l s).
Proof.
  intros Hr Ht Hf l. induction l as [|x l IH]; intros s; simpl.
  - apply Hr.
  - eapply Ht; [apply Hf | apply IH].
Qed.

Section Frame.

Variable unparse : ast -> string.

Lemma extends_loop_frame entity_id_ bases s :
  frame s (extends_loop unparse s entity_id_ bases).
Proof.
  unfold extends_loop. apply fold_left_rel; [apply frame_refl | apply frame_trans |].
  intros; apply add_edge_frame.
Qed.

(** [ClassDef_enter] step by step. *)
Lemma ClassDef_enter_eq self node name bases decs :
  ClassDef_enter unparse self node name bases decs
  = let s1 := snd (_add_node self "class" name (AstNode node) (current_class_entity_id self)
                     (class_extra_props unparse decs)) in
    let s2 := extends_loop unparse s1 (new_entity_id self "class" name) bases in
    set_scope (scope_stack s2 ++ [name]) (Some name) (Some (new_entity_id self "class" name))
              (current_function_entity_id s2) s2.
Proof. reflexivity. Qed.

Lemma ClassDef_enter_fixed self node name bases decs :
  fixed (ClassDef_enter unparse self node name bases decs) = fixed self.
Proof.
  rewrite ClassDef_enter_eq. cbv zeta.
  match goal with |- context [extends_loop _ ?s ?i ?b] =>
    destruct (extends_loop_frame i b s) as [F2 _] end.
  match goal with |- context [_add_node ?s ?k ?n ?nd ?par ?ex] =>
    destruct (add_node_frame s k n nd par ex) as [F _] end.
  rewrite <- F, <- F2. reflexivity.
Qed.

Lemma ClassDef_enter_scope self node name bases decs :
  scope (ClassDef_enter unparse self node name bases decs)
  = (scope_stack self ++ [name], Some name, Some (new_entity_id self "class" name),
     current_function_entity_id self).
Proof.
  rewrite ClassDef_enter_eq. cbv zeta.
  match goal with |- context [extends_loop _ ?s ?i ?b] =>
    destruct (extends_loop_frame i b s) as [_ F2] end.
  match goal with |- context [_add_node ?s ?k ?n ?nd ?par ?ex] =>
    destruct (add_node_frame s k n nd par ex) as [_ F] end.
  unfold scope in *. injection F as F1 _ _ F4. injection F2 as G1 _ _ G4.
  simpl. now rewrite G1, G4, F1, F4.
Qed.

Lemma add_parameter_eq fid s x :
  add_parameter unparse fid s x
  = _add_edge (snd (_add_node s "parameter" (arg x) (ArgNode x) None
                      (parameter_extra_props unparse x)))
      "PARAMETER_OF" (new_entity_id s "parameter" (arg x)) fid NoExtra.
Proof. reflexivity. Qed.

Lemma process_function_args_frame self a fid :
  frame self (_process_function_args unparse self a fid).
Proof.
  unfold _process_function_args.
  apply fold_left_rel; [apply frame_refl | apply frame_trans |].
  intros s x. rewrite add_parameter_eq.
  eapply frame_trans; [apply add_node_frame | apply add_edge_frame].
Qed.

(** The kind [_visit_function] gives its node. *)
Definition function_kind (self : parser) : string :=
  match current_class_entity_id self with Some _ => "method" | None => "function" end.

Lemma function_enter_fixed self node is_async_ name a decs returns :
  fixed (function_enter unparse self node is_async_ name a decs returns) = fixed self.
Proof.
  unfold function_enter.
  destruct (_add_node _ _ _ _ _ _) as [i s1] eqn:E.
  match type of E with _add_node ?s ?k ?n ?nd ?par ?ex = _ =>
    pose proof (add_node_frame s k n nd par ex) as [F _] end.
  rewrite E in F; simpl in F.
  match goal with |- fixed (_process_function_args _ ?s ?a ?i) = _ =>
    pose proof (process_function_args_frame s a i) as [F2 _] end.
  rewrite F2. unfold fixed in *; simpl. exact F.
Qed.

Lemma function_enter_scope self node is_async_ name a decs returns :
  scope (function_enter unparse self node is_async_ name a decs returns)
  = (scope_stack self ++ [name], current_class_name self, current_class_entity_id self,
     Some (new_entity_id self (function_kind self) name)).
Proof.
  unfold function_enter.
  destruct (_add_node _ _ _ _ _ _) as [i s1] eqn:E.
  match type of E with _add_node ?s ?k ?n ?nd ?par ?ex = _ =>
    pose proof (add_node_frame s k n nd par ex) as [_ F];
    pose proof (add_node_fst s k n nd par ex) as Ei end.
  rewrite E in F, Ei; simpl in F, Ei.
  match goal with |- scope (_process_function_args _ ?s ?a ?i) = _ =>
    pose proof (process_function_args_frame s a i) as [_ F2] end.
  rewrite F2. unfold scope in *; simpl. injection F as F1 F2' F3 F4.
  subst i. unfold function_kind. rewrite F1, F2', F3.
  destruct (current_class_entity_id self); reflexivity.
Qed.

Lemma Assign_emit_frame self node targets : frame self (Assign_emit self node targets).
Proof.
  unfold Assign_emit. destruct (current_function_entity_id self); [apply frame_refl|].
  apply fold_left_rel; [apply frame_refl | apply frame_trans |].
  intros s [] ; try apply frame_refl. apply add_node_frame.
Qed.

Lemma AnnAssign_emit_frame self node target ann value :
  frame self (AnnAssign_emit unparse self node target ann value).
Proof.
  unfold AnnAssign_emit.
  destruct (current_function_entity_id self); [apply frame_refl|].
  destruct target; try apply frame_refl. apply add_node_frame.
Qed.

Lemma Call_emit_frame self node func cargs kws :
  frame self (Call_emit self node func cargs kws).
Proof.
  unfold Call_emit. destruct (truthy_opt (_extract_callee_name func));
    [apply add_edge_frame | apply frame_refl].
Qed.

Lemma visit_Import_frame self names : frame self (visit_Import self names).
Proof.
  unfold visit_Import.
  apply fold_left_rel; [apply frame_refl | apply frame_trans |].
  intros; apply add_external_ref_frame.
Qed.

Lemma visit_ImportFrom_frame self m names level :
  frame self (visit_ImportFrom self m names level).
Proof.
  unfold visit_ImportFrom.
  apply fold_left_rel; [apply frame_refl | apply frame_trans |].
  intros; apply add_external_ref_frame.
Qed.

Lemma ClassDef_leave_frame self node name bases decs s' :
  frame (ClassDef_enter unparse self node name bases decs) s' ->
  frame self (ClassDef_leave (current_class_name self) (current_class_entity_id self) s').
Proof.
  intros [F S]. rewrite ClassDef_enter_fixed in F. rewrite ClassDef_enter_scope in S.
  unfold scope in S. injection S as S1 S2 S3 S4.
  split.
  - unfold fixed in *; simpl. exact F.
  - unfold scope; simpl. rewrite S1, S4, removelast_last. reflexivity.
Qed.

Lemma function_leave_frame self node is_async_ name a decs returns s' :
  frame (function_enter unparse self node is_async_ name a decs returns) s' ->
  frame self (function_leave (current_function_entity_id self) s').
Proof.
  intros [F S]. rewrite function_enter_fixed in F. rewrite function_enter_scope in S.
  unfold scope in S. injection S as S1 S2 S3 S4.
  split.
  - unfold fixed in *; simpl. exact F.
  - unfold scope; simpl. rewrite S1, S2, S3, removelast_last. reflexivity.
Qed.

(** A visit leaves the scope-tracking attributes, the configuration and the
    warnings as it found them. *)
Lemma visit_frame node self : frame self (visit unparse self node).
Proof.
  apply visit_rel.
  - apply frame_refl.
  - apply frame_trans.
  - apply ClassDef_leave_frame.
  - apply function_leave_frame.
  - apply visit_Import_frame.
  - apply visit_ImportFrom_frame.
  - apply Assign_emit_frame.
  - apply AnnAssign_emit_frame.
  - apply Call_emit_frame.
Qed.

End Frame.

(** [scope_stack.pop()] in [visit_ClassDef] always removes the name pushed
    on entry: the stack it pops is the entry stack followed by the class name. *)
Lemma class_pop_removes_pushed_name unparse self node name bases decs l :
  scope_stack (fold_left (visit unparse) l
                 (ClassDef_enter unparse self node name bases decs))
  = scope_stack self ++ [name].
Proof.
  assert (F : frame (ClassDef_enter unparse self node name bases decs)
                    (fold_left (visit unparse) l
                       (ClassDef_enter unparse self node name bases decs))).
  { apply fold_left_rel; [apply frame_refl | apply frame_trans |].
    intros; apply visit_frame. }
  destruct F as [_ S]. rewrite ClassDef_enter_scope in S.
  unfold scope in S. now injection S.
Qed.

(** The traversal in which every call returns leaves the scope-name stack,
    the current class entity id, the current function entity id and the
    current class name as they were on entry. *)
Lemma visit_restores_scope (unparse : ast -> string) (node : ast) (self : parser) :
  scope_stack (visit unparse self node) = scope_stack self /\
  current_class_entity_id (visit unparse self node) = current_class_entity_id self /\
  current_function_entity_id (visit unparse self node) = current_function_entity_id self /\
  current_class_name (visit unparse self node) = current_class_name self.
Proof.
  destruct (visit_frame unparse node self) as [_ S].
  unfold scope in S. injection S as S1 S2 S3 S4. auto.
Qed.

(** ** Edges and the nodes they join *)

Definition ids (ns : list node_data) : list string := map entity_id ns.

(** The explicit unresolved-target convention. *)
Definition unresolved_tagged (s : string) : bool := String.prefix "unresolved:" s.

(** [c] is the id of a class node of [ns]. *)
Definition is_class_id (ns : list node_data) (c : string) : Prop :=
  exists l1 n l2, ns = l1 ++ n :: l2 /\ entity_id n = c /\ kind n = "class".

(** A class node with id [src] comes in [ns] before a node with id [tgt]. *)
Definition class_before (ns : list node_data) (src tgt : string) : Prop :=
  exists l1 c l2 n l3,
    ns = l1 ++ c :: l2 ++ n :: l3 /\
    entity_id c = src /\ kind c = "class" /\ entity_id n = tgt.

(** The four edges the parser builds. *)
Inductive edge_shape (self : parser) (ns : list node_data) (e : edge_data) : Prop :=
| ContainsShape :
    edge_type e = "CONTAINS" -> edge_props e = NoExtra ->
    class_before ns (source_entity_id e) (target_entity_id e) ->
    edge_shape self ns e
| ExtendsShape (base_name : string) :
    edge_type e = "EXTENDS" -> edge_props e = ExtendsExtra base_name ->
    is_class_id ns (source_entity_id e) ->
    target_entity_id e = _generate_entity_id self "class" base_name ->
    edge_shape self ns e
| ParameterShape :
    edge_type e = "PARAMETER_OF" -> edge_props e = NoExtra ->
    In (source_entity_id e) (ids ns) -> In (target_entity_id e) (ids ns) ->
    edge_shape self ns e
| CallsShape (callee_name : string) (count : nat) (line column : Z) :
    edge_type e = "CALLS" -> edge_props e = CallsExtra callee_name count line column ->
    truthy callee_name = true ->
    In (source_entity_id e) (ids ns) \/ source_entity_id e = module_entity_id self ->
    target_entity_id e = "unresolved:" +++ callee_name ->
    edge_shape self ns e.

Definition edge_ok (self : parser) (ns : list node_data) (e : edge_data) : Prop :=
  truthy (source_entity_id e) = true /\ truthy (target_entity_id e) = true /\
  edge_id e = edge_type e +++ ":" +++ source_entity_id e +++ ":" +++ target_entity_id e /\
  edge_shape self ns e.

(** What holds of the parser between any two steps of a traversal started by
    [parse_python_file]: the current class and function ids are non-empty ids
    of emitted nodes, and every edge has one of the four shapes. *)
Definition wf (p : parser) : Prop :=
  (forall c, current_class_entity_id p = Some c ->
             truthy c = true /\ is_class_id (nodes p) c) /\
  (forall f, current_function_entity_id p = Some f ->
             truthy f = true /\ In f (ids (nodes p))) /\
  Forall (edge_ok p (nodes p)) (edges p).

Lemma truthy_app_mid a c b : truthy (a +++ String c b) = true.
Proof. destruct a; reflexivity. Qed.

Lemma truthy_generate_entity_id p k n : truthy (_generate_entity_id p k n) = true.
Proof. unfold _generate_entity_id. apply truthy_app_mid. Qed.

Lemma is_class_id_app ns ns' c : is_class_id ns c -> is_class_id (ns ++ ns') c.
Proof.
  intros (l1 & n & l2 & -> & H1 & H2).
  exists l1, n, (l2 ++ ns'). rewrite <- app_assoc. simpl. auto.
Qed.

Lemma is_class_id_In ns c : is_class_id ns c -> In c (ids ns).
Proof.
  intros (l1 & n & l2 & -> & H1 & H2). unfold ids. rewrite map_app. simpl.
  apply in_or_app. right. left. exact H1.
Qed.

Lemma class_before_app ns ns' a b : class_before ns a b -> class_before (ns ++ ns') a b.
Proof.
  intros (l1 & c & l2 & n & l3 & -> & H).
  exists l1, c, l2, n, (l3 ++ ns'). split; [|exact H].
  rewrite <- app_assoc. simpl. rewrite <- app_assoc. reflexivity.
Qed.

Lemma class_before_new ns c n :
  is_class_id ns c -> class_before (ns ++ [n]) c (entity_id n).
Proof.
  intros (l1 & cn & l2 & -> & H1 & H2).
  exists l1, cn, l2, n, []. rewrite <- app_assoc. simpl. auto.
Qed.

Lemma ids_app ns ns' x : In x (ids ns) -> In x (ids (ns ++ ns')).
Proof. unfold ids. rewrite map_app. intros; apply in_or_app; now left. Qed.

Lemma ids_last ns n : In (entity_id n) (ids (ns ++ [n])).
Proof. unfold ids. rewrite map_app. apply in_or_app; right; now left. Qed.

Lemma is_class_id_last ns n : kind n = "class" -> is_class_id (ns ++ [n]) (entity_id n).
Proof. intros H. exists ns, n, []. auto. Qed.

Lemma module_entity_id_fixed a b : fixed b = fixed a -> module_entity_id b = module_entity_id a.
Proof.
  intros H. unfold module_entity_id. rewrite (generate_entity_id_fixed a b _ _ H).
  unfold fixed in H. injection H as Hf _ _ _ _. now rewrite Hf.
Qed.

Lemma edge_ok_mono a b ns ns' e :
  fixed b = fixed a -> edge_ok a ns e -> edge_ok b (ns ++ ns') e.
Proof.
  intros F (H1 & H2 & H3 & H4). repeat split; auto.
  destruct H4 as [T P C | bn T P C G | T P S G | cn k l c T P Tr S G].
  - apply ContainsShape; auto using class_before_app.
  - eapply ExtendsShape; eauto using is_class_id_app.
    rewrite (generate_entity_id_fixed a b _ _ F). exact G.
  - apply ParameterShape; auto using ids_app.
  - eapply CallsShape; eauto.
    rewrite (module_entity_id_fixed a b F). destruct S; auto using ids_app.
Qed.

Lemma edge_ok_fixed a b ns e : fixed b = fixed a -> edge_ok a ns e -> edge_ok b ns e.
Proof.
  intros F H. rewrite <- (app_nil_r ns). now apply (edge_ok_mono a b).
Qed.

(** A step that keeps the scope and only appends nodes and well-shaped edges
    keeps the invariant. *)
Lemma wf_step a b ns es :
  frame a b -> nodes b = nodes a ++ ns -> edges b = edges a ++ es ->
  (wf a -> Forall (edge_ok b (nodes b)) es) ->
  wf a -> wf b.
Proof.
  intros [F S] Hn He Hes W. pose proof (Hes W) as Hes'.
  destruct W as (Wc & Wf & We).
  unfold scope in S. injection S as S1 S2 S3 S4.
  split; [|split].
  - intros c Hc. rewrite S3 in Hc. destruct (Wc c Hc) as [T I].
    split; [exact T|]. rewrite Hn. now apply is_class_id_app.
  - intros f Hf. rewrite S4 in Hf. destruct (Wf f Hf) as [T I].
    split; [exact T|]. rewrite Hn. now apply ids_app.
  - rewrite He. apply Forall_app. split; [|exact Hes'].
    rewrite Hn. eapply Forall_impl; [|exact We].
    intros e. now apply edge_ok_mono.
Qed.

Lemma nodes_add_node self k n node par ex :
  nodes (snd (_add_node self k n node par ex)) = nodes self ++ [node_record self k n node ex].
Proof. unfold _add_node; simpl. destruct (truthy_opt par); reflexivity. Qed.

Lemma edges_add_node self k n node par ex :
  edges (snd (_add_node self k n node par ex))
  = edges self ++
    (if truthy_opt par
     then [edge_record self "CONTAINS" (get_default par) (new_entity_id self k n) NoExtra]
     else []).
Proof.
  unfold _add_node; simpl. destruct (truthy_opt par); simpl; [reflexivity|].
  now rewrite app_nil_r.
Qed.

Lemma refs_add_node self k n node par ex :
  external_refs (snd (_add_node self k n node par ex)) = external_refs self.
Proof. unfold _add_node; simpl. destruct (truthy_opt par); reflexivity. Qed.

Lemma truthy_opt_some o : truthy_opt o = true -> exists c, o = Some c /\ truthy c = true.
Proof. destruct o as [c|]; simpl; [eauto | discriminate]. Qed.

(** [_add_node] with the current class id, or nothing, as parent. *)
Lemma wf_add_node self k n node par ex :
  par = current_class_entity_id self \/ par = None ->
  wf self -> wf (snd (_add_node self k n node par ex)).
Proof.
  intros Hpar.
  eapply wf_step; [apply add_node_frame | apply nodes_add_node | apply edges_add_node |].
  intros W. destruct (truthy_opt par) eqn:T; [|constructor].
  constructor; [|constructor].
  destruct (truthy_opt_some _ T) as (c & -> & Tc).
  destruct Hpar as [Hpar|Hpar]; [|discriminate].
  destruct W as (Wc & _ & _). destruct (Wc c (eq_sym Hpar)) as [_ I].
  rewrite nodes_add_node. simpl.
  repeat split; auto using truthy_generate_entity_id.
  - apply truthy_generate_entity_id.
  - apply ContainsShape; auto. simpl.
    apply (class_before_new (nodes self) c (node_record self k n node ex) I).
Qed.

(** The three collections are append-only. *)
Definition grows (a b : parser) : Prop :=
  (exists ns, nodes b = nodes a ++ ns) /\
  (exists es, edges b = edges a ++ es) /\
  (exists rs, external_refs b = external_refs a ++ rs).

(** A stretch of traversal: scope restored, collections appended to, the
    invariant (with a side condition [Q] that loops carry) kept. *)
Definition sound (Q : parser -> Prop) (a b : parser) : Prop :=
  frame a b /\ grows a b /\ (wf a /\ Q a -> wf b /\ Q b).

Lemma grows_refl s : grows s s.
Proof. repeat split; exists []; now rewrite app_nil_r. Qed.

Lemma grows_trans a b c : grows a b -> grows b c -> grows a c.
Proof.
  intros ([n1 N1] & [e1 E1] & [r1 R1]) ([n2 N2] & [e2 E2] & [r2 R2]).
  repeat split.
  - exists (n1 ++ n2). now rewrite N2, N1, app_assoc.
  - exists (e1 ++ e2). now rewrite E2, E1, app_assoc.
  - exists (r1 ++ r2). now rewrite R2, R1, app_assoc.
Qed.

Lemma sound_refl Q s : sound Q s s.
Proof. split; [apply frame_refl | split; [apply grows_refl | auto]]. Qed.

Lemma sound_trans Q a b c : sound Q a b -> sound Q b c -> sound Q a c.
Proof.
  intros (F1 & G1 & W1) (F2 & G2 & W2).
  split; [eapply frame_trans; eauto | split; [eapply grows_trans; eauto | auto]].
Qed.

Lemma sound_intro (Q : parser -> Prop) a b ns es rs :
  frame a b -> nodes b = nodes a ++ ns -> edges b = edges a ++ es ->
  external_refs b = external_refs a ++ rs ->
  (wf a -> Q a -> Forall (edge_ok b (nodes b)) es) ->
  (wf a -> Q a -> Q b) ->
  sound Q a b.
Proof.
  intros F N E R Hes HQ. split; [exact F | split].
  - repeat split; eauto.
  - intros [W q]. split; [|auto].
    eapply wf_step; eauto.
Qed.

Lemma sound_add_node Q self k n node par ex :
  par = current_class_entity_id self \/ par = None ->
  (Q self -> Q (snd (_add_node self k n node par ex))) ->
  sound Q self (snd (_add_node self k n node par ex)).
Proof.
  intros Hpar HQ. split; [apply add_node_frame | split].
  - repeat split.
    + eexists; apply nodes_add_node.
    + eexists; apply edges_add_node.
    + exists []. now rewrite refs_add_node, app_nil_r.
  - intros [W q]. split; [now apply wf_add_node | now apply HQ].
Qed.

Lemma sound_add_edge (Q : parser -> Prop) self t a b ex :
  (wf self -> Q self -> edge_ok self (nodes self) (edge_record self t a b ex)) ->
  (Q self -> Q (_add_edge self t a b ex)) ->
  sound Q self (_add_edge self t a b ex).
Proof.
  intros H HQ.
  apply (sound_intro Q self (_add_edge self t a b ex) [] [edge_record self t a b ex] []).
  - apply add_edge_frame.
  - simpl. now rewrite app_nil_r.
  - reflexivity.
  - simpl. now rewrite app_nil_r.
  - intros W q. constructor; [|constructor].
    apply (edge_ok_fixed self); [reflexivity | now apply H].
  - auto.
Qed.

Lemma sound_add_external_ref self m i src l :
  sound (fun _ => True) self (_add_external_ref self m i src l).
Proof.
  eapply (sound_intro _ self (_add_external_ref self m i src l) [] [] [_]).
  - apply add_external_ref_frame.
  - simpl. now rewrite app_nil_r.
  - simpl. now rewrite app_nil_r.
  - reflexivity.
  - constructor.
  - auto.
Qed.

Lemma sound_weaken (Q : parser -> Prop) a b :
  sound Q a b -> Q a -> sound (fun _ => True) a b.
Proof.
  intros (F & G & W) q. split; [exact F | split; [exact G|]].
  intros [Wa _]. split; [|exact I]. now apply W.
Qed.

Section Sound.

Variable unparse : ast -> string.

Lemma sound_visit_Import self names : sound (fun _ => True) self (visit_Import self names).
Proof.
  unfold visit_Import.
  apply (fold_left_rel (sound (fun _ => True))); [apply sound_refl | apply sound_trans |].
  intros; apply sound_add_external_ref.
Qed.

Lemma sound_visit_ImportFrom self m names level :
  sound (fun _ => True) self (visit_ImportFrom self m names level).
Proof.
  unfold visit_ImportFrom.
  apply (fold_left_rel (sound (fun _ => True))); [apply sound_refl | apply sound_trans |].
  intros; apply sound_add_external_ref.
Qed.

Lemma sound_Assign_emit self node targets :
  sound (fun _ => True) self (Assign_emit self node targets).
Proof.
  unfold Assign_emit. destruct (current_function_entity_id self); [exact (sound_refl _ _)|].
  apply (fold_left_rel (sound (fun _ => True))); [apply sound_refl | apply sound_trans |].
  intros s []; try exact (sound_refl _ _). apply (sound_add_node (fun _ => True)); auto.
Qed.

Lemma sound_AnnAssign_emit self node target ann value :
  sound (fun _ => True) self (AnnAssign_emit unparse self node target ann value).
Proof.
  unfold AnnAssign_emit.
  destruct (current_function_entity_id self); [exact (sound_refl _ _)|].
  destruct target; try exact (sound_refl _ _). apply (sound_add_node (fun _ => True)); auto.
Qed.

Lemma sound_Call_emit self node func cargs kws :
  sound (fun _ => True) self (Call_emit self node func cargs kws).
Proof.
  unfold Call_emit. destruct (truthy_opt (_extract_callee_name func)) eqn:T;
    [|exact (sound_refl _ _)].
  apply (sound_add_edge (fun _ => True)); [|auto]. intros (_ & Wf & _) _.
  destruct (truthy_opt_some _ T) as (c & Ec & Tc). rewrite Ec. simpl.
  repeat split.
  - destruct (truthy_opt (current_function_entity_id self)) eqn:Tf.
    + destruct (truthy_opt_some _ Tf) as (f & -> & Hf). exact Hf.
    + apply truthy_generate_entity_id.
  - eapply CallsShape; simpl; eauto.
    destruct (truthy_opt (current_function_entity_id self)) eqn:Tf; [|now right].
    destruct (truthy_opt_some _ Tf) as (f & Ef & Hf). rewrite Ef. simpl.
    left. now apply Wf.
Qed.

(** Assigning the scope attributes keeps the invariant when the new
    current ids are ids of emitted nodes. *)
Lemma wf_set_scope stack cname cid fid s :
  (forall c, cid = Some c -> truthy c = true /\ is_class_id (nodes s) c) ->
  (forall f, fid = Some f -> truthy f = true /\ In f (ids (nodes s))) ->
  wf s -> wf (set_scope stack cname cid fid s).
Proof.
  intros Hc Hf (_ & _ & We). split; [exact Hc | split; [exact Hf|]].
  simpl. eapply Forall_impl; [|exact We].
  intros e. apply edge_ok_fixed. reflexivity.
Qed.

Lemma grows_set_scope stack cname cid fid s : grows s (set_scope stack cname cid fid s).
Proof. repeat split; exists []; simpl; now rewrite app_nil_r. Qed.

Lemma extends_loop_sound id_ bases s :
  truthy id_ = true ->
  sound (fun p => is_class_id (nodes p) id_) s (extends_loop unparse s id_ bases).
Proof.
  intros T. unfold extends_loop.
  apply (fold_left_rel (sound (fun p => is_class_id (nodes p) id_)));
    [apply sound_refl | apply sound_trans |].
  intros p base. apply (sound_add_edge (fun p => is_class_id (nodes p) id_)); [|auto].
  intros _ Q. repeat split.
  - exact T.
  - apply truthy_generate_entity_id.
  - eapply ExtendsShape; simpl; eauto.
Qed.

Lemma new_entity_id_truthy self k n : truthy (new_entity_id self k n) = true.
Proof. apply truthy_generate_entity_id. Qed.

(** Entering a class: one class node, its edges, then the new scope. *)
Lemma ClassDef_enter_sound self node name bases decs :
  grows self (ClassDef_enter unparse self node name bases decs) /\
  (wf self -> wf (ClassDef_enter unparse self node name bases decs)).
Proof.
  rewrite ClassDef_enter_eq. cbv zeta.
  set (id_ := new_entity_id self "class" name).
  set (s1 := snd (_add_node self "class" name (AstNode node) (current_class_entity_id self)
                    (class_extra_props unparse decs))).
  set (s2 := extends_loop unparse s1 id_ bases).
  assert (S1 : sound (fun _ => True) self s1)
    by (apply (sound_add_node (fun _ => True)); auto).
  assert (Q1 : is_class_id (nodes s1) id_).
  { unfold s1. rewrite nodes_add_node.
    apply (is_class_id_last (nodes self)
             (node_record self "class" name (AstNode node) (class_extra_props unparse decs))).
    reflexivity. }
  pose proof (extends_loop_sound id_ bases s1 (new_entity_id_truthy _ _ _)) as S2.
  fold s2 in S2. destruct S1 as (_ & G1 & W1). destruct S2 as (F2 & G2 & W2).
  split.
  - eapply grows_trans; [exact G1|]. eapply grows_trans; [exact G2|].
    apply grows_set_scope.
  - intros W. destruct (W1 (conj W I)) as [Ws1 _].
    destruct (W2 (conj Ws1 Q1)) as [Ws2 Q2].
    apply wf_set_scope; [| |exact Ws2].
    + intros c Hc. injection Hc as <-. split; [apply new_entity_id_truthy | exact Q2].
    + destruct Ws2 as (_ & Wf & _). exact Wf.
Qed.

Lemma sound_ClassDef_leave self node name bases decs s' :
  sound (fun _ => True) (ClassDef_enter unparse self node name bases decs) s' ->
  sound (fun _ => True) self
        (ClassDef_leave (current_class_name self) (current_class_entity_id self) s').
Proof.
  intros (F & G & W).
  destruct (ClassDef_enter_sound self node name bases decs) as [G0 W0].
  split; [eapply ClassDef_leave_frame; exact F | split].
  - eapply grows_trans; [exact G0|]. eapply grows_trans; [exact G|].
    apply grows_set_scope.
  - intros [Wself _]. split; [|exact I].
    destruct (W (conj (W0 Wself) I)) as [Ws' _].
    pose proof (grows_trans _ _ _ G0 G) as ([ns Hns] & _).
    apply wf_set_scope; [| |exact Ws'].
    + intros c Hc. destruct Wself as (Wc & _). destruct (Wc c Hc) as [T C].
      split; [exact T|]. rewrite Hns. now apply is_class_id_app.
    + destruct Ws' as (_ & Wf & _). exact Wf.
Qed.

Lemma function_enter_eq self node is_async_ name a decs returns :
  function_enter unparse self node is_async_ name a decs returns
  = let id_ := new_entity_id self (function_kind self) name in
    let s1 := snd (_add_node self (function_kind self) name (AstNode node)
                     (current_class_entity_id self)
                     (function_extra_props unparse is_async_ node decs returns)) in
    let s2 := set_scope (scope_stack s1 ++ [name]) (current_class_name s1)
                        (current_class_entity_id s1) (Some id_) s1 in
    _process_function_args unparse s2 a id_.
Proof.
  unfold function_enter, function_kind.
  destruct (current_class_entity_id self); reflexivity.
Qed.

Lemma add_parameter_sound fid s x :
  truthy fid = true ->
  sound (fun p => In fid (ids (nodes p))) s (add_parameter unparse fid s x).
Proof.
  intros T. rewrite add_parameter_eq.
  eapply sound_trans.
  - apply (sound_add_node (fun p => In fid (ids (nodes p)))); [now right|].
    intros Q. rewrite nodes_add_node. now apply ids_app.
  - apply (sound_add_edge (fun p => In fid (ids (nodes p)))); [|auto].
    intros _ Q. repeat split.
    + apply new_entity_id_truthy.
    + exact T.
    + apply ParameterShape; try reflexivity; [|exact Q].
      cbn [edge_record source_entity_id]. rewrite nodes_add_node.
      apply (ids_last (nodes s)
               (node_record s "parameter" (arg x) (ArgNode x) (parameter_extra_props unparse x))).
Qed.

Lemma process_function_args_sound fid s a :
  truthy fid = true ->
  sound (fun p => In fid (ids (nodes p))) s (_process_function_args unparse s a fid).
Proof.
  intros T. unfold _process_function_args.
  apply (fold_left_rel (sound (fun p => In fid (ids (nodes p)))));
    [apply sound_refl | apply sound_trans |].
  intros; now apply add_parameter_sound.
Qed.

(** Entering a function: its node, the new scope, then the parameters. *)
Lemma function_enter_sound self node is_async_ name a decs returns :
  grows self (function_enter unparse self node is_async_ name a decs returns) /\
  (wf self -> wf (function_enter unparse self node is_async_ name a decs returns)).
Proof.
  rewrite function_enter_eq. cbv zeta.
  set (id_ := new_entity_id self (function_kind self) name).
  set (s1 := snd (_add_node self (function_kind self) name (AstNode node)
                    (current_class_entity_id self)
                    (function_extra_props unparse is_async_ node decs returns))).
  set (s2 := set_scope (scope_stack s1 ++ [name]) (current_class_name s1)
                       (current_class_entity_id s1) (Some id_) s1).
  assert (S1 : sound (fun _ => True) self s1)
    by (apply (sound_add_node (fun _ => True)); auto).
  assert (Q2 : In id_ (ids (nodes s2))).
  { unfold s2. cbn [set_scope nodes]. unfold s1. rewrite nodes_add_node.
    apply (ids_last (nodes self)
             (node_record self (function_kind self) name (AstNode node)
                (function_extra_props unparse is_async_ node decs returns))). }
  pose proof (process_function_args_sound id_ s2 a (new_entity_id_truthy _ _ _)) as S3.
  destruct S1 as (_ & G1 & W1). destruct S3 as (_ & G3 & W3).
  split.
  - eapply grows_trans; [exact G1|]. eapply grows_trans; [|exact G3].
    apply grows_set_scope.
  - intros W. destruct (W1 (conj W I)) as [Ws1 _].
    apply W3. split; [|exact Q2].
    apply wf_set_scope; [| |exact Ws1].
    + destruct Ws1 as (Wc & _). exact Wc.
    + intros f Hf. injection Hf as <-. split; [apply new_entity_id_truthy | exact Q2].
Qed.

Lemma sound_function_leave self node is_async_ name a decs returns s' :
  sound (fun _ => True) (function_enter unparse self node is_async_ name a decs returns) s' ->
  sound (fun _ => True) self (function_leave (current_function_entity_id self) s').
Proof.
  intros (F & G & W).
  destruct (function_enter_sound self node is_async_ name a decs returns) as [G0 W0].
  split; [eapply function_leave_frame; exact F | split].
  - eapply grows_trans; [exact G0|]. eapply grows_trans; [exact G|].
    apply grows_set_scope.
  - intros [Wself _]. split; [|exact I].
    destruct (W (conj (W0 Wself) I)) as [Ws' _].
    pose proof (grows_trans _ _ _ G0 G) as ([ns Hns] & _).
    apply wf_set_scope; [| |exact Ws'].
    + destruct Ws' as (Wc & _). exact Wc.
    + intros f Hf. destruct Wself as (_ & Wf & _). destruct (Wf f Hf) as [T C].
      split; [exact T|]. rewrite Hns. now apply ids_app.
Qed.

(** A visit appends to the collections, restores the scope and keeps the
    invariant. *)
Lemma visit_sound node self : sound (fun _ => True) self (visit unparse self node).
Proof.
  apply (visit_rel unparse (sound (fun _ => True))).
  - apply sound_refl.
  - apply sound_trans.
  - apply sound_ClassDef_leave.
  - apply sound_function_leave.
  - apply sound_visit_Import.
  - apply sound_visit_ImportFrom.
  - apply sound_Assign_emit.
  - apply sound_AnnAssign_emit.
  - apply sound_Call_emit.
Qed.

Lemma wf_init path src cfg : wf (init path src cfg).
Proof.
  split; [|split]; simpl; try discriminate. constructor.
Qed.

End Sound.

(** ** CONTAINS edges and node creation *)

Definition is_contains (e : edge_data) : bool := String.eqb (edge_type e) "CONTAINS".

Definition contains_edges (p : parser) : list edge_data := filter is_contains (edges p).

(** The CONTAINS edge a node with id [target] gets when it is created in
    state [self]: one edge from the current class id when there is one. *)
Definition contains_for (self : parser) (target : string) : list edge_data :=
  if truthy_opt (current_class_entity_id self)
  then [edge_record self "CONTAINS" (get_default (current_class_entity_id self)) target NoExtra]
  else [].

Definition is_parameter (n : node_data) : bool := String.eqb (kind n) "parameter".

(** What the visit method of [node] emits before it descends into the
    children of [node]. *)
Definition own_step (unparse : ast -> string) (self : parser) (node : ast) : parser :=
  match node with
  | ClassDef name bases _ _ decorator_list _ _ =>
      ClassDef_enter unparse self node name bases decorator_list
  | FunctionDef is_async_ name a _ decorator_list returns _ _ =>
      function_enter unparse self node is_async_ name a decorator_list returns
  | Import names => visit_Import self names
  | ImportFrom module_ names level => visit_ImportFrom self module_ names level
  | Assign targets _ _ => Assign_emit self node targets
  | AnnAssign target annotation_ value _ =>
      AnnAssign_emit unparse self node target annotation_ value
  | Call func cargs keywords _ => Call_emit self node func cargs keywords
  | _ => self
  end.

(** Nodes created by a step and the CONTAINS edges the step emits: every new
    node other than a parameter gets the edge [contains_for] of the state the
    step started in, and nothing else is emitted. *)
Definition creates (a b : parser) (created : list node_data) : Prop :=
  nodes b = nodes a ++ created /\
  contains_edges b
  = contains_edges a
    ++ flat_map (fun n => if is_parameter n then [] else contains_for a (entity_id n)) created.

Lemma contains_edges_add_edge s t a b ex :
  contains_edges (_add_edge s t a b ex)
  = contains_edges s ++ (if String.eqb t "CONTAINS" then [edge_record s t a b ex] else []).
Proof.
  unfold contains_edges, _add_edge. simpl. rewrite filter_app. simpl.
  unfold is_contains at 2. simpl. destruct (String.eqb t "CONTAINS"); reflexivity.
Qed.

Lemma contains_edges_add_node self k n node par ex :
  contains_edges (snd (_add_node self k n node par ex))
  = contains_edges self ++
    (if truthy_opt par
     then [edge_record self "CONTAINS" (get_default par) (new_entity_id self k n) NoExtra]
     else []).
Proof.
  unfold contains_edges. rewrite edges_add_node, filter_app.
  destruct (truthy_opt par); reflexivity.
Qed.

Lemma node_record_frame a b k n node ex :
  frame a b -> node_record b k n node ex = node_record a k n node ex.
Proof.
  intros [F S]. unfold fixed in F. unfold scope in S.
  injection F as F1 _ F3 F4 _. injection S as S1 _ _ _.
  unfold node_record, _get_qualified_name, _get_scoped_name, _generate_entity_id.
  now rewrite F1, F3, F4, S1.
Qed.

Lemma new_entity_id_frame a b k n :
  frame a b -> new_entity_id b k n = new_entity_id a k n.
Proof.
  intros F. change (entity_id (node_record b k n (AstNode (Name "")) no_extra)
                    = entity_id (node_record a k n (AstNode (Name "")) no_extra)).
  now rewrite (node_record_frame a b).
Qed.

Lemma contains_for_frame a b t : frame a b -> contains_for b t = contains_for a t.
Proof.
  intros [F S]. unfold fixed in F. unfold scope in S.
  injection F as F1 _ _ _ _. injection S as _ _ S3 _.
  unfold contains_for, edge_record. now rewrite F1, S3.
Qed.

Lemma creates_nil a : creates a a [].
Proof. split; simpl; now rewrite app_nil_r. Qed.

(** Steps compose when the second starts in a state with the scope of the
    first. *)
Lemma creates_app a b c l1 l2 :
  frame a b -> creates a b l1 -> creates b c l2 -> creates a c (l1 ++ l2).
Proof.
  intros F [N1 C1] [N2 C2]. split.
  - now rewrite N2, N1, app_assoc.
  - rewrite C2, C1, flat_map_app, <- app_assoc. f_equal. f_equal.
    apply flat_map_ext. intros n. now rewrite (contains_for_frame a b).
Qed.

Lemma creates_add_node self k n node ex :
  String.eqb k "parameter" = false ->
  creates self (snd (_add_node self k n node (current_class_entity_id self) ex))
          [node_record self k n node ex].
Proof.
  intros K. split; [apply nodes_add_node|].
  rewrite contains_edges_add_node. simpl.
  unfold is_parameter. simpl. rewrite K, app_nil_r. reflexivity.
Qed.

Lemma creates_add_edge s t a b ex :
  String.eqb t "CONTAINS" = false -> creates s (_add_edge s t a b ex) [].
Proof.
  intros T. split; simpl; [now rewrite app_nil_r|].
  rewrite contains_edges_add_edge, T. reflexivity.
Qed.

Lemma creates_add_external_ref s m i src l : creates s (_add_external_ref s m i src l) [].
Proof. split; simpl; now rewrite app_nil_r. Qed.

Lemma creates_set_scope stack cname cid fid s : creates s (set_scope stack cname cid fid s) [].
Proof. split; simpl; now rewrite app_nil_r. Qed.

(** A loop of steps that create nothing creates nothing. *)
Lemma creates_fold_nil {A} (f : parser -> A -> parser) :
  (forall s x, frame s (f s x) /\ creates s (f s x) []) ->
  forall l s, frame s (fold_left f l s) /\ creates s (fold_left f l s) [].
Proof.
  intros H l. induction l as [|x l IH]; intros s; simpl.
  - split; [apply frame_refl | apply creates_nil].
  - destruct (H s x) as [F1 C1]. destruct (IH (f s x)) as [F2 C2]. split.
    + eapply frame_trans; eauto.
    + apply (creates_app s (f s x) _ [] []); auto.
Qed.

(** A loop whose body creates [g s x] in state [s] creates their concatenation. *)
Lemma creates_fold {A} (f : parser -> A -> parser) (g : parser -> A -> list node_data) :
  (forall s x, frame s (f s x) /\ creates s (f s x) (g s x)) ->
  (forall a b x, frame a b -> g b x = g a x) ->
  forall l s, frame s (fold_left f l s) /\ creates s (fold_left f l s) (flat_map (g s) l).
Proof.
  intros H Hg l. induction l as [|x l IH]; intros s; simpl.
  - split; [apply frame_refl | apply creates_nil].
  - destruct (H s x) as [F1 C1]. destruct (IH (f s x)) as [F2 C2]. split.
    + eapply frame_trans; eauto.
    + apply (creates_app s (f s x)); auto.
      erewrite flat_map_ext; [exact C2|].
      intros y. symmetry. now apply Hg.
Qed.

(** Appending parameter nodes without CONTAINS edges. *)
Lemma creates_parameters a b c l1 l2 :
  creates a b l1 -> nodes c = nodes b ++ l2 -> contains_edges c = contains_edges b ->
  forallb is_parameter l2 = true ->
  creates a c (l1 ++ l2).
Proof.
  intros [N1 C1] N2 C2 P. split.
  - now rewrite N2, N1, app_assoc.
  - rewrite C2, C1, flat_map_app. f_equal.
    assert (E : flat_map (fun n => if is_parameter n then [] else contains_for a (entity_id n)) l2
                = []).
    { clear N2. induction l2 as [|n l2 IH]; [reflexivity|]. simpl in *.
      apply andb_prop in P as [P1 P2]. rewrite P1. simpl. now apply IH. }
    rewrite E, app_nil_r. reflexivity.
Qed.

Section Creation.

Variable unparse : ast -> string.

Lemma extends_loop_creates id_ bases s :
  frame s (extends_loop unparse s id_ bases) /\
  creates s (extends_loop unparse s id_ bases) [].
Proof.
  unfold extends_loop. apply creates_fold_nil.
  intros p base. split; [apply add_edge_frame | now apply creates_add_edge].
Qed.

Lemma ClassDef_enter_creates self node name bases decs :
  creates self (ClassDef_enter unparse self node name bases decs)
          [node_record self "class" name (AstNode node) (class_extra_props unparse decs)].
Proof.
  rewrite ClassDef_enter_eq. cbv zeta.
  set (s1 := snd (_add_node self "class" name (AstNode node) (current_class_entity_id self)
                    (class_extra_props unparse decs))).
  destruct (extends_loop_creates (new_entity_id self "class" name) bases s1) as [F2 C2].
  assert (F1 : frame self s1) by apply add_node_frame.
  assert (C1 : creates self s1
                 [node_record self "class" name (AstNode node) (class_extra_props unparse decs)])
    by now apply creates_add_node.
  pose proof (creates_app _ _ _ _ _ F1 C1 C2) as C12.
  match goal with |- creates _ (set_scope ?st ?cn ?ci ?fi ?s2) _ =>
    pose proof (creates_app _ _ _ _ _ (frame_trans _ _ _ F1 F2) C12
                  (creates_set_scope st cn ci fi s2)) as C end.
  simpl in C. exact C.
Qed.

(** The node of a parameter. *)
Definition parameter_node (s : parser) (x : arg_) : node_data :=
  node_record s "parameter" (arg x) (ArgNode x) (parameter_extra_props unparse x).

Lemma parameter_nodes_are_parameters s l :
  forallb is_parameter (map (parameter_node s) l) = true.
Proof. induction l as [|x l IH]; [reflexivity | exact IH]. Qed.

Lemma process_function_args_emits fid a : forall s,
  nodes (_process_function_args unparse s a fid)
  = nodes s ++ map (parameter_node s) (all_args a) /\
  contains_edges (_process_function_args unparse s a fid) = contains_edges s.
Proof.
  unfold _process_function_args. induction (all_args a) as [|x l IH]; intros s; simpl.
  - now rewrite app_nil_r.
  - destruct (IH (add_parameter unparse fid s x)) as [N C].
    assert (F : frame s (add_parameter unparse fid s x)).
    { rewrite add_parameter_eq.
      eapply frame_trans; [apply add_node_frame | apply add_edge_frame]. }
    split.
    + rewrite N.
      assert (Nx : nodes (add_parameter unparse fid s x) = nodes s ++ [parameter_node s x]).
      { rewrite add_parameter_eq. cbn [_add_edge append_edge nodes]. apply nodes_add_node. }
      rewrite Nx, <- app_assoc. simpl. do 2 apply f_equal.
      apply map_ext. intros y. unfold parameter_node. now apply node_record_frame.
    + rewrite C, add_parameter_eq, contains_edges_add_edge, contains_edges_add_node.
      simpl. now rewrite !app_nil_r.
Qed.

Lemma function_kind_not_parameter self :
  String.eqb (function_kind self) "parameter" = false.
Proof. unfold function_kind. destruct (current_class_entity_id self); reflexivity. Qed.

Lemma function_enter_creates self node is_async_ name a decs returns :
  exists params,
    forallb is_parameter params = true /\
    map node_name params = map arg (all_args a) /\
    creates self (function_enter unparse self node is_async_ name a decs returns)
      (node_record self (function_kind self) name (AstNode node)
         (function_extra_props unparse is_async_ node decs returns) :: params).
Proof.
  rewrite function_enter_eq. cbv zeta.
  set (id_ := new_entity_id self (function_kind self) name).
  set (s1 := snd (_add_node self (function_kind self) name (AstNode node)
                    (current_class_entity_id self)
                    (function_extra_props unparse is_async_ node decs returns))).
  set (s2 := set_scope (scope_stack s1 ++ [name]) (current_class_name s1)
                       (current_class_entity_id s1) (Some id_) s1).
  destruct (process_function_args_emits id_ a s2) as [N C].
  exists (map (parameter_node s2) (all_args a)). split; [|split].
  - apply parameter_nodes_are_parameters.
  - rewrite map_map. reflexivity.
  - apply (creates_parameters self s2 _ [_]); auto.
    + apply (creates_app self s1 s2 [_] []).
      * apply add_node_frame.
      * apply creates_add_node, function_kind_not_parameter.
      * apply creates_set_scope.
    + apply parameter_nodes_are_parameters.
Qed.

Definition assigned_kind (id : string) : string :=
  if isupper id then "constant" else "variable".

(** The nodes [visit_Assign] creates for its targets in state [s]. *)
Definition assigned_nodes (node : ast) (s : parser) (target : ast) : list node_data :=
  match target with
  | Name id => [node_record s (assigned_kind id) id (AstNode node) no_extra]
  | _ => []
  end.

Lemma Assign_emit_creates self node targets :
  creates self (Assign_emit self node targets)
    (match current_function_entity_id self with
     | None => flat_map (assigned_nodes node self) targets
     | Some _ => []
     end).
Proof.
  unfold Assign_emit. destruct (current_function_entity_id self); [apply creates_nil|].
  apply (creates_fold _ (assigned_nodes node)).
  - intros s [] ; try (split; [apply frame_refl | apply creates_nil]).
    split; [apply add_node_frame|]. simpl.
    apply creates_add_node. unfold assigned_kind. destruct (isupper id); reflexivity.
  - intros a b [] F; try reflexivity. simpl. now rewrite (node_record_frame a b).
Qed.

Lemma AnnAssign_emit_creates self node target ann value :
  exists created, creates self (AnnAssign_emit unparse self node target ann value) created.
Proof.
  unfold AnnAssign_emit.
  destruct (current_function_entity_id self); [exists []; apply creates_nil|].
  destruct target; try (exists []; apply creates_nil).
  eexists. apply creates_add_node.
  destruct (match value with Some (Name id0) => _ | _ => false end); [reflexivity|].
  destruct (isupper id); reflexivity.
Qed.

Lemma Call_emit_creates self node func cargs kws :
  creates self (Call_emit self node func cargs kws) [].
Proof.
  unfold Call_emit. destruct (truthy_opt (_extract_callee_name func));
    [now apply creates_add_edge | apply creates_nil].
Qed.

Lemma visit_Import_creates self names : creates self (visit_Import self names) [].
Proof.
  unfold visit_Import. apply creates_fold_nil.
  intros; split; [apply add_external_ref_frame | apply creates_add_external_ref].
Qed.

Lemma visit_ImportFrom_creates self m names level :
  creates self (visit_ImportFrom self m names level) [].
Proof.
  unfold visit_ImportFrom. apply creates_fold_nil.
  intros; split; [apply add_external_ref_frame | apply creates_add_external_ref].
Qed.

(** Every visit method is its own emission, then [generic_visit] of the
    node, then, for a class or a function, the restoration of the scope. *)
Lemma visit_eq self node :
  visit unparse self node
  = let s := generic_visit unparse (own_step unparse self node) node in
    match node with
    | ClassDef _ _ _ _ _ _ _ =>
        ClassDef_leave (current_class_name self) (current_class_entity_id self) s
    | FunctionDef _ _ _ _ _ _ _ _ =>
        function_leave (current_function_entity_id self) s
    | _ => s
    end.
Proof. destruct node; reflexivity. Qed.

(** Leaving a class or a function emits nothing. *)
Lemma leave_emits_nothing cn ci fi s :
  nodes (ClassDef_leave cn ci s) = nodes s /\ edges (ClassDef_leave cn ci s) = edges s /\
  nodes (function_leave fi s) = nodes s /\ edges (function_leave fi s) = edges s.
Proof. repeat split. Qed.

Lemma own_step_creates self node :
  exists created, creates self (own_step unparse self node) created.
Proof.
  destruct node; simpl; try (exists []; apply creates_nil).
  - eexists; apply ClassDef_enter_creates.
  - destruct (function_enter_creates self
                (FunctionDef async name fargs body decorator_list returns type_params pos)
                async name fargs decorator_list returns) as (ps & _ & _ & C).
    eexists; exact C.
  - eexists; apply visit_Import_creates.
  - eexists; apply visit_ImportFrom_creates.
  - eexists; apply Assign_emit_creates.
  - apply AnnAssign_emit_creates.
  - eexists; apply Call_emit_creates.
Qed.

End Creation.

(** ** Concrete inputs *)

(** [ast.unparse] on a name or a dotted attribute chain (the expressions the
    examples print). *)
Fixpoint unparse_names (e : ast) : string :=
  match e with
  | Name id => id
  | Attribute v a => unparse_names v +++ "." +++ a
  | _ => ""
  end.

Definition at_line (l : Z) : position := Position (Some l) (Some l) (Some 0) (Some 0).

Definition no_arguments : arguments := Arguments_ [] [] None [] [] None [].

(** [pass] *)
Definition pass_stmt : ast := Other [].

Definition plain_arg (name : string) : arg_ := Arg name None (at_line 1).

(** [def f():] containing [def g(): pass] *)
Definition def_g : ast :=
  FunctionDef false "g" no_arguments [pass_stmt] [] None [] (at_line 2).
Definition def_f : ast :=
  FunctionDef false "f" no_arguments [def_g] [] None [] (at_line 1).

(** [class A(B): pass] *)
Definition class_A_of_B : ast :=
  ClassDef "A" [Name "B"] [] [pass_stmt] [] [] (at_line 1).

Definition start : parser := init "/repo/a.py" "" default_config.

(** C1, as stated, fails: the node of [g] is created while the function
    context of [f] is active, and no CONTAINS edge is emitted for it (the
    traversal of the whole module emits no edge at all). *)
Lemma C1_nested_function_without_contains :
  let st := function_enter unparse_names start def_f false "f" no_arguments [] None in
  current_function_entity_id st = Some (new_entity_id start "function" "f") /\
  map node_name (nodes st) = ["f"] /\
  map node_name (nodes (visit unparse_names st def_g)) = ["f"; "g"] /\
  edges (visit unparse_names st def_g) = [] /\
  edges (visit unparse_names start (Module [def_f])) = [].
Proof. vm_compute. repeat split. Qed.

(** C2, as stated, fails: the target of the EXTENDS edge of [class A(B)] is
    neither tagged as unresolved, nor the id of an emitted node, nor the
    module-level id. *)
Lemma C2_extends_target_not_tagged :
  let p := visit unparse_names start (Module [class_A_of_B]) in
  exists e,
    edges p = [e] /\ edge_type e = "EXTENDS" /\
    unresolved_tagged (target_entity_id e) = false /\
    ~ In (target_entity_id e) (ids (nodes p)) /\
    target_entity_id e <> module_entity_id p.
Proof.
  eexists. split; [vm_compute; reflexivity|].
  split; [reflexivity|]. split; [vm_compute; reflexivity|]. split.
  - vm_compute. intros [H|[]]. discriminate.
  - vm_compute. discriminate.
Qed.

(** ** Scope restoration and the exits of a visit (C8) *)

(** A property of the recursion depth that holds from some depth on. *)
Definition eventually (P : nat -> Prop) : Prop :=
  exists enough : nat, forall depth : nat, (enough <= depth)%nat -> P depth.

Lemma eventually_and (P Q : nat -> Prop) :
  eventually P -> eventually Q -> eventually (fun d => P d /\ Q d).
Proof.
  intros [a Ha] [b Hb]. exists (a + b)%nat. intros d Hd.
  split; [apply Ha | apply Hb]; lia.
Qed.

Lemma eventually_always (P : nat -> Prop) : (forall d, P d) -> eventually P.
Proof. intros H. exists 0%nat. intros d _. apply H. Qed.

Lemma eventually_mono (P Q : nat -> Prop) :
  (forall d, P d -> Q d) -> eventually P -> eventually Q.
Proof. intros H [a Ha]. exists a. intros d Hd. apply H, Ha, Hd. Qed.

Lemma eventually_succ (P Q : nat -> Prop) :
  (forall d, P d -> Q (S d)) -> eventually P -> eventually Q.
Proof.
  intros H [a Ha]. exists (S a). intros [|d] Hd; [lia|]. apply H, Ha. lia.
Qed.

(** The names [visit_ClassDef] and [_visit_function] push for a node. *)
Definition pushed_names (node : ast) : list string :=
  match node with
  | ClassDef name _ _ _ _ _ _ => [name]
  | FunctionDef _ name _ _ _ _ _ _ => [name]
  | _ => []
  end.

Section Exits.

Variable unparse : ast -> string.

(** If [o] returns, it returns [q]. *)
Definition returns_as (o : visit_exit) (q : parser) : Prop :=
  forall p, o = Returned p -> p = q.

Lemma returns_as_and_then o k q r :
  returns_as o q -> returns_as (k q) r -> returns_as (and_then o k) r.
Proof.
  intros Ho Hk p H. destruct o as [s|s]; simpl in H; [|discriminate].
  rewrite (Ho s eq_refl) in H. exact (Hk p H).
Qed.

Lemma returns_as_returned q : returns_as (Returned q) q.
Proof. intros p H. now injection H. Qed.

Lemma returns_as_each {A} (v : parser -> A -> visit_exit) (g : parser -> A -> parser) :
  (forall s x, returns_as (v s x) (g s x)) ->
  forall l s, returns_as (each v l s) (fold_left g l s).
Proof.
  intros Hv l. induction l as [|x l IH]; intros s; simpl.
  - apply returns_as_returned.
  - eapply returns_as_and_then; [apply Hv | apply IH].
Qed.

Section Children.

Variable v : parser -> ast -> visit_exit.
Variable g : parser -> ast -> parser.
Hypothesis Hv : forall s x, returns_as (v s x) (g s x).

Lemma returns_as_arg s x : returns_as (arg_with v s x) (visit_arg g s x).
Proof.
  unfold arg_with, visit_arg. destruct (annotation x); [apply Hv | apply returns_as_returned].
Qed.

Lemma returns_as_opt s o : returns_as (opt_with v s o) (visit_opt g s o).
Proof. destruct o; simpl; [apply Hv | apply returns_as_returned]. Qed.

Lemma returns_as_opt_arg s o : returns_as (opt_arg_with v s o) (visit_opt_arg g s o).
Proof. destruct o; simpl; [apply returns_as_arg | apply returns_as_returned]. Qed.

Lemma returns_as_arguments s a :
  returns_as (arguments_with v s a) (visit_arguments g s a).
Proof.
  unfold arguments_with, visit_arguments.
  repeat (eapply returns_as_and_then;
          [ first [ apply returns_as_each; first [apply returns_as_arg | apply returns_as_opt]
                  | apply returns_as_opt_arg ] | ]).
  apply returns_as_each, Hv.
Qed.

End Children.

Ltac returns_step IH :=
  first [ apply returns_as_returned
        | apply IH
        | apply returns_as_each; apply IH
        | apply returns_as_opt; apply IH
        | apply returns_as_arguments; apply IH ].

Lemma returns_as_generic_visit v :
  (forall s x, returns_as (v s x) (visit unparse s x)) ->
  forall s node, returns_as (generic_visit_with v s node) (generic_visit unparse s node).
Proof.
  intros Hv s node.
  destruct node; cbn [generic_visit_with generic_visit];
    repeat (eapply returns_as_and_then; [returns_step Hv|]); returns_step Hv.
Qed.

(** A visit that returns has done what [visit] does. *)
Lemma visit_within_returns_as depth :
  forall self node, returns_as (visit_within unparse depth self node) (visit unparse self node).
Proof.
  induction depth as [|d IH]; intros self node; [intros p H; discriminate|].
  pose proof (returns_as_generic_visit _ IH) as G.
  destruct node; cbn [visit_within];
    try (eapply returns_as_and_then; [apply G | apply returns_as_returned]);
    first [apply returns_as_returned | apply G].
Qed.

Let V (n : ast) : Prop :=
  eventually (fun d => forall s, visit_within unparse d s n = Returned (visit unparse s n)).

Lemma each_eventually (l : list ast) :
  list_all ast V l ->
  eventually (fun d => forall s,
                each (visit_within unparse d) l s = Returned (fold_left (visit unparse) l s)).
Proof.
  induction 1 as [|x Hx l _ IH]; simpl.
  - now apply eventually_always.
  - refine (eventually_mono _ _ _ (eventually_and _ _ Hx IH)).
    intros d [H1 H2] s. rewrite H1. apply H2.
Qed.

Lemma opt_eventually (o : option ast) :
  option_all ast V o ->
  eventually (fun d => forall s,
                opt_with (visit_within unparse d) s o = Returned (visit_opt (visit unparse) s o)).
Proof.
  destruct 1 as [x Hx|]; simpl; [exact Hx | now apply eventually_always].
Qed.

Lemma arg_eventually (x : arg_) :
  arg_of_all ast V x ->
  eventually (fun d => forall s,
                arg_with (visit_within unparse d) s x
                = Returned (visit_arg (visit unparse) s x)).
Proof.
  destruct 1 as [nm ann Hann ps]. unfold arg_with, visit_arg; simpl.
  destruct Hann as [e He|]; [exact He | now apply eventually_always].
Qed.

Lemma each_arg_eventually (l : list arg_) :
  list_all (arg_of ast) (arg_of_all ast V) l ->
  eventually (fun d => forall s,
                each (arg_with (visit_within unparse d)) l s
                = Returned (fold_left (visit_arg (visit unparse)) l s)).
Proof.
  induction 1 as [|x Hx l _ IH]; simpl.
  - now apply eventually_always.
  - refine (eventually_mono _ _ _ (eventually_and _ _ (arg_eventually _ Hx) IH)).
    intros d [H1 H2] s. rewrite H1. apply H2.
Qed.

Lemma opt_arg_eventually (o : option arg_) :
  option_all (arg_of ast) (arg_of_all ast V) o ->
  eventually (fun d => forall s,
                opt_arg_with (visit_within unparse d) s o
                = Returned (visit_opt_arg (visit unparse) s o)).
Proof.
  destruct 1 as [x Hx|]; simpl; [now apply arg_eventually | now apply eventually_always].
Qed.

Lemma each_opt_eventually (l : list (option ast)) :
  list_all (option ast) (option_all ast V) l ->
  eventually (fun d => forall s,
                each (opt_with (visit_within unparse d)) l s
                = Returned (fold_left (visit_opt (visit unparse)) l s)).
Proof.
  induction 1 as [|x Hx l _ IH]; simpl.
  - now apply eventually_always.
  - refine (eventually_mono _ _ _ (eventually_and _ _ (opt_eventually _ Hx) IH)).
    intros d [H1 H2] s. rewrite H1. apply H2.
Qed.

Lemma arguments_eventually (a : arguments) :
  arguments_of_all ast V a ->
  eventually (fun d => forall s,
                arguments_with (visit_within unparse d) s a
                = Returned (visit_arguments (visit unparse) s a)).
Proof.
  destruct 1 as [po Hpo ar Har va Hva ko Hko kd Hkd kw Hkw de Hde].
  apply each_arg_eventually in Hpo, Har, Hko. apply opt_arg_eventually in Hva, Hkw.
  apply each_opt_eventually in Hkd. apply each_eventually in Hde.
  refine (eventually_mono _ _ _
            (eventually_and _ _ Hpo (eventually_and _ _ Har (eventually_and _ _ Hva
               (eventually_and _ _ Hko (eventually_and _ _ Hkd
                  (eventually_and _ _ Hkw Hde))))))).
  intros d (H1 & H2 & H3 & H4 & H5 & H6 & H7) s.
  unfold arguments_with, visit_arguments; simpl.
  rewrite H1; simpl. rewrite H2; simpl. rewrite H3; simpl. rewrite H4; simpl.
  rewrite H5; simpl. rewrite H6; simpl. apply H7.
Qed.

Ltac gather :=
  repeat match goal with
         | H : list_all ast _ _ |- _ => apply each_eventually in H
         | H : option_all ast _ _ |- _ => apply opt_eventually in H
         | H : arguments_of_all ast _ _ |- _ => apply arguments_eventually in H
         | H : V _ |- _ => progress unfold V in H
         end;
  repeat match goal with
         | H1 : eventually _, H2 : eventually _ |- _ =>
             pose proof (eventually_and _ _ H1 H2); clear H1 H2
         end.

Ltac run :=
  repeat match goal with H : _ /\ _ |- _ => destruct H end;
  cbn [visit_within generic_visit_with];
  repeat match goal with
         | H : forall s, _ = Returned _ |- _ => rewrite H; cbn [and_then]
         end.

(** With room enough for the depth of the tree, the visit returns. *)
Lemma visit_within_eventually (node : ast) : V node.
Proof.
  induction node using ast_ind; gather;
    try (match goal with H : eventually _ |- _ =>
           revert H; apply eventually_succ; intros d H s; run; reflexivity end);
    (exists 1%nat; intros [|d] Hd s; [lia | reflexivity]).
Qed.

(** What a visit leaves behind: the scope as on entry when it returns, the
    entry stack with the names pushed since when it raises. *)
Definition leaves (s : parser) (o : visit_exit) : Prop :=
  match o with
  | Returned p => frame s p
  | Raised p => fixed p = fixed s /\ exists rest, scope_stack p = scope_stack s ++ rest
  end.

Lemma leaves_frame a b o : frame a b -> leaves b o -> leaves a o.
Proof.
  intros F. destruct o as [p|p]; simpl.
  - apply frame_trans, F.
  - destruct F as [F S]. unfold scope in S. injection S as S1 _ _ _.
    intros [Fp R]. rewrite S1 in R. split; [congruence | exact R].
Qed.

Lemma leaves_and_then s o k :
  leaves s o -> (forall q, leaves q (k q)) -> leaves s (and_then o k).
Proof.
  intros Ho Hk. destruct o as [q|q]; simpl; [|exact Ho].
  eapply leaves_frame; [exact Ho | apply Hk].
Qed.

Lemma leaves_returned s : leaves s (Returned s).
Proof. apply frame_refl. Qed.

Lemma leaves_each {A} (v : parser -> A -> visit_exit) :
  (forall s x, leaves s (v s x)) -> forall l s, leaves s (each v l s).
Proof.
  intros Hv l. induction l as [|x l IH]; intros s; simpl.
  - apply leaves_returned.
  - apply leaves_and_then; [apply Hv | apply IH].
Qed.

Lemma leaves_arg v : (forall s x, leaves s (v s x)) -> forall s x, leaves s (arg_with v s x).
Proof.
  intros Hv s x. unfold arg_with. destruct (annotation x); [apply Hv | apply leaves_returned].
Qed.

Lemma leaves_opt v : (forall s x, leaves s (v s x)) -> forall s o, leaves s (opt_with v s o).
Proof. intros Hv s [e|]; simpl; [apply Hv | apply leaves_returned]. Qed.

Lemma leaves_opt_arg v :
  (forall s x, leaves s (v s x)) -> forall s o, leaves s (opt_arg_with v s o).
Proof. intros Hv s [x|]; simpl; [now apply leaves_arg | apply leaves_returned]. Qed.

Ltac leaves_step Hv :=
  first [ apply leaves_returned
        | apply Hv
        | apply leaves_each; first [apply Hv | now apply leaves_arg | now apply leaves_opt]
        | now apply leaves_opt
        | now apply leaves_opt_arg ].

Lemma leaves_arguments v :
  (forall s x, leaves s (v s x)) -> forall s a, leaves s (arguments_with v s a).
Proof.
  intros Hv s a. unfold arguments_with.
  repeat (apply leaves_and_then; [leaves_step Hv | intros ?]). leaves_step Hv.
Qed.

Lemma leaves_generic_visit v :
  (forall s x, leaves s (v s x)) -> forall s node, leaves s (generic_visit_with v s node).
Proof.
  intros Hv s node. destruct node; cbn [generic_visit_with];
    repeat (apply leaves_and_then;
            [first [leaves_step Hv | now apply leaves_arguments] | intros ?]);
    leaves_step Hv.
Qed.

(** An exception inside a class or a function leaves the name pushed. *)
Lemma leaves_pushed s0 self name o :
  fixed s0 = fixed self -> scope_stack s0 = scope_stack self ++ [name] ->
  leaves s0 o ->
  forall p, o = Raised p ->
    fixed p = fixed self /\ exists rest, scope_stack p = scope_stack self ++ [name] ++ rest.
Proof.
  intros F S L p ->. destruct L as [Fp [rest R]]. split; [congruence|].
  exists rest. rewrite R, S, <- app_assoc. reflexivity.
Qed.

Lemma visit_within_leaves depth : forall self node,
  leaves self (visit_within unparse depth self node) /\
  forall d p, depth = S d -> visit_within unparse depth self node = Raised p ->
    exists rest, scope_stack p = scope_stack self ++ pushed_names node ++ rest.
Proof.
  induction depth as [|d IH]; intros self node.
  { split; [split; [reflexivity | exists []; now rewrite app_nil_r] | discriminate]. }
  assert (Hv : forall s x, leaves s (visit_within unparse d s x)) by (intros; apply IH).
  pose proof (leaves_generic_visit _ Hv) as G.
  assert (other : forall s o, frame self s -> leaves s o ->
            leaves self o /\
            forall (d' : nat) p, S d = S d' -> o = Raised p ->
              exists rest, scope_stack p = scope_stack self ++ [] ++ rest).
  { intros s o F L. pose proof (leaves_frame _ _ _ F L) as L'. split; [exact L'|].
    intros _ p _ ->. destruct L' as [_ R]. exact R. }
  destruct node; cbn [visit_within pushed_names]; cbv zeta;
    try (eapply other; [| apply G];
         first [apply frame_refl | apply Assign_emit_frame
               | apply AnnAssign_emit_frame | apply Call_emit_frame]).
  - (* ClassDef *)
    match goal with |- context [generic_visit_with _ (ClassDef_enter _ _ ?n ?nm ?bs ?ds) _] =>
      pose proof (G (ClassDef_enter unparse self n nm bs ds) n) as L;
      pose proof (ClassDef_enter_fixed unparse self n nm bs ds) as F;
      pose proof (ClassDef_enter_scope unparse self n nm bs ds) as S;
      assert (S1 : scope_stack (ClassDef_enter unparse self n nm bs ds)
                   = scope_stack self ++ [nm]) by (unfold scope in S; now injection S);
      pose proof (leaves_pushed _ _ _ _ F S1 L) as P;
      destruct (generic_visit_with _ (ClassDef_enter unparse self n nm bs ds) n) as [q|q]
    end; cbn [and_then].
    + split; [|discriminate]. cbn [leaves].
      eapply ClassDef_leave_frame. exact L.
    + destruct (P q eq_refl) as [Fq [rest R]]. split.
      * split; [exact Fq | eexists; exact R].
      * intros _ p _ E. injection E as <-. exists rest. exact R.
  - (* FunctionDef *)
    match goal with
    |- context [generic_visit_with _ (function_enter _ _ ?n ?ia ?nm ?a ?ds ?rt) _] =>
      pose proof (G (function_enter unparse self n ia nm a ds rt) n) as L;
      pose proof (function_enter_fixed unparse self n ia nm a ds rt) as F;
      pose proof (function_enter_scope unparse self n ia nm a ds rt) as S;
      assert (S1 : scope_stack (function_enter unparse self n ia nm a ds rt)
                   = scope_stack self ++ [nm]) by (unfold scope in S; now injection S);
      pose proof (leaves_pushed _ _ _ _ F S1 L) as P;
      destruct (generic_visit_with _ (function_enter unparse self n ia nm a ds rt) n) as [q|q]
    end; cbn [and_then].
    + split; [|discriminate]. cbn [leaves].
      eapply function_leave_frame. exact L.
    + destruct (P q eq_refl) as [Fq [rest R]]. split.
      * split; [exact Fq | eexists; exact R].
      * intros _ p _ E. injection E as <-. exists rest. exact R.
  - (* Import *)
    split; [apply visit_Import_frame | discriminate].
  - (* ImportFrom *)
    split; [apply visit_ImportFrom_frame | discriminate].
Qed.

End Exits.


(** With room for two nested calls the same visit returns, and has done what
    [visit] does. *)
Example visit_within_returns :
  visit_within unparse_names 2 start class_A_of_B
  = Returned (visit unparse_names start class_A_of_B) /\
  scope_stack (visit unparse_names start class_A_of_B) = [].
Proof. vm_compute. repeat split. Qed.


(** ** Edge endpoints (C2) and CONTAINS edges (C1) *)

Lemma class_before_In ns a b : class_before ns a b -> In a (ids ns) /\ In b (ids ns).
Proof.
  intros (l1 & c & l2 & n & l3 & -> & H1 & _ & H2). unfold ids.
  split; rewrite map_app; apply in_or_app; right; simpl.
  - now left.
  - right. rewrite map_app. apply in_or_app. right. now left.
Qed.

Lemma unresolved_tagged_prefix c : unresolved_tagged ("unresolved:" +++ c) = true.
Proof. unfold unresolved_tagged. simpl. destruct c; reflexivity. Qed.

(** The target of an EXTENDS edge: the class id generated from the textual
    name of the base, which the edge carries as [target_name]. *)
Definition extends_placeholder (p : parser) (e : edge_data) : Prop :=
  edge_type e = "EXTENDS" /\
  exists base_name,
    edge_props e = ExtendsExtra base_name /\
    target_entity_id e = _generate_entity_id p "class" base_name.

Definition is_calls (e : edge_data) : bool := String.eqb (edge_type e) "CALLS".

Lemma wf_visit_init unparse path src cfg tree :
  wf (visit unparse (init path src cfg) tree).
Proof.
  destruct (visit_sound unparse tree (init path src cfg)) as (_ & _ & W).
  apply W. split; [apply wf_init | exact I].
Qed.

(** C2 (amended): every edge emitted by a traversal has non-empty endpoints;
    its source is the id of an emitted node or the synthesized module-level
    id; its target is the id of an emitted node, an id tagged [unresolved:]
    (every CALLS target is), or, for an EXTENDS edge, the untagged placeholder
    class id generated from the base's textual name. *)
Theorem C2_edge_endpoints (unparse : ast -> string) (path src : string) (cfg : config)
  (tree : ast) :
  let p := visit unparse (init path src cfg) tree in
  Forall (fun e =>
            truthy (source_entity_id e) = true /\
            truthy (target_entity_id e) = true /\
            (In (source_entity_id e) (ids (nodes p)) \/
             source_entity_id e = module_entity_id p) /\
            (In (target_entity_id e) (ids (nodes p)) \/
             unresolved_tagged (target_entity_id e) = true \/
             extends_placeholder p e))
         (edges p) /\
  Forall (fun e => unresolved_tagged (target_entity_id e) = true)
         (filter is_calls (edges p)).
Proof.
  intros p. destruct (wf_visit_init unparse path src cfg tree) as (_ & _ & We).
  fold p in We. split.
  - eapply Forall_impl; [|exact We].
    intros e (T1 & T2 & _ & Sh). split; [exact T1 | split; [exact T2|]].
    destruct Sh as [T P C | bn T P C G | T P S G | cn k l c T P Tr S G].
    + destruct (class_before_In _ _ _ C). auto.
    + split; [left; now apply is_class_id_In|].
      right; right. split; [exact T | now exists bn].
    + auto.
    + split; [exact S|]. right; left. rewrite G. apply unresolved_tagged_prefix.
  - apply Forall_forall. intros e He. apply filter_In in He as [He Hc].
    rewrite Forall_forall in We. destruct (We e He) as (_ & _ & _ & Sh).
    unfold is_calls in Hc. apply String.eqb_eq in Hc.
    destruct Sh as [T P C | bn T P C G | T P S G | cn k l c T P Tr S G];
      try (rewrite T in Hc; discriminate).
    rewrite G. apply unresolved_tagged_prefix.
Qed.

(** C1 (amended): a CONTAINS edge is tied to the class context only.  Every
    node a visit method creates, other than a parameter, gets exactly one
    CONTAINS edge when a current class id is set, from that id to the id of
    the new node, and none otherwise (so none for a node whose only enclosing
    context is a function); the class id a class visit installs is the
    non-empty id of the class node it has just emitted; and in the output of
    a traversal the source of every CONTAINS edge is the id of a class node
    that comes in the node list before a node with the target id. *)
Theorem C1_contains_edges (unparse : ast -> string) :
  (forall self node,
     exists created,
       nodes (own_step unparse self node) = nodes self ++ created /\
       contains_edges (own_step unparse self node)
       = contains_edges self
         ++ flat_map (fun n => if is_parameter n then []
                               else contains_for self (entity_id n)) created) /\
  (forall self node name bases decs,
     let s := ClassDef_enter unparse self node name bases decs in
     current_class_entity_id s = Some (new_entity_id self "class" name) /\
     truthy (new_entity_id self "class" name) = true /\
     is_class_id (nodes s) (new_entity_id self "class" name)) /\
  (forall path src cfg tree,
     let p := visit unparse (init path src cfg) tree in
     Forall (fun e => class_before (nodes p) (source_entity_id e) (target_entity_id e))
            (contains_edges p)).
Proof.
  split; [|split].
  - intros self node. apply own_step_creates.
  - intros self node name bases decs s.
    pose proof (ClassDef_enter_scope unparse self node name bases decs) as S.
    assert (S3 : current_class_entity_id s = Some (new_entity_id self "class" name))
      by (change (snd (fst (scope s)) = Some (new_entity_id self "class" name));
          unfold s; now rewrite S).
    split; [exact S3 | split; [apply new_entity_id_truthy|]].
    destruct (ClassDef_enter_creates unparse self node name bases decs) as [N _].
    unfold s. rewrite N.
    apply (is_class_id_last (nodes self)
             (node_record self "class" name (AstNode node) (class_extra_props unparse decs))).
    reflexivity.
  - intros path src cfg tree p.
    destruct (wf_visit_init unparse path src cfg tree) as (_ & _ & We). fold p in We.
    apply Forall_forall. intros e He. apply filter_In in He as [He Hc].
    rewrite Forall_forall in We. destruct (We e He) as (_ & _ & _ & Sh).
    unfold is_contains in Hc. apply String.eqb_eq in Hc.
    destruct Sh as [T P C | bn T P C G | T P S G | cn k l c T P Tr S G];
      try (rewrite T in Hc; discriminate).
    exact C.
Qed.

(** ** Callee names (C3) *)

(** The names along an attribute chain, from the innermost name or, when the
    base is no name, from the first attribute above the base. *)
Fixpoint chain (e : ast) : list string :=
  match e with
  | Name id => [id]
  | Attribute v a => chain v ++ [a]
  | _ => []
  end.

(** The callee name the parser extracts: the dotted chain above the base of
    an attribute access (the attribute alone when its object is no name or
    attribute), through the value of a subscript, nothing for other calls. *)
Fixpoint callee_of_chain (func : ast) : option string :=
  match func with
  | Name id => Some id
  | Attribute v a => Some (join "." (chain v ++ [a]))
  | Subscript v _ => callee_of_chain v
  | _ => None
  end.

(** Identifiers and attribute names are not empty (as in every parsed tree). *)
Fixpoint identifiers_nonempty (e : ast) : bool :=
  match e with
  | Name id => truthy id
  | Attribute v a => identifiers_nonempty v && truthy a
  | Subscript v _ => identifiers_nonempty v
  | _ => true
  end.

(** The callee name as the specification words it: an attribute access
    yields [object.attribute] through the object chain, and a base that does
    not resolve yields no name. *)
Fixpoint claimed_object_name (e : ast) : option string :=
  match e with
  | Name id => Some id
  | Attribute v a =>
      match claimed_object_name v with
      | Some o => Some (o +++ "." +++ a)
      | None => None
      end
  | _ => None
  end.

Fixpoint claimed_callee_name (func : ast) : option string :=
  match func with
  | Name id => Some id
  | Attribute v a =>
      match claimed_object_name v with
      | Some o => Some (o +++ "." +++ a)
      | None => None
      end
  | Subscript v _ => claimed_callee_name v
  | _ => None
  end.

(** The CALLS edge [visit_Call] builds for a callee name. *)
Definition calls_edge (self : parser) (node : ast) (callee_name : string)
  (cargs keywords : list ast) : edge_data :=
  edge_record self "CALLS"
    (if truthy_opt (current_function_entity_id self)
     then get_default (current_function_entity_id self)
     else module_entity_id self)
    ("unresolved:" +++ callee_name)
    (CallsExtra callee_name (List.length cargs + List.length keywords)
       (loc_start_line (_get_location (AstNode node)))
       (loc_start_column (_get_location (AstNode node)))).

Lemma append_assoc (a b c : string) : (a +++ b) +++ c = a +++ b +++ c.
Proof. induction a as [|x a IH]; simpl; [reflexivity | now rewrite IH]. Qed.

Lemma join_snoc sep (l : list string) (a : string) :
  l <> [] -> join sep (l ++ [a]) = join sep l +++ sep +++ a.
Proof.
  unfold join. induction l as [|x l IH]; intros H; [congruence|].
  destruct l as [|y l]; [reflexivity|].
  change (x +++ sep +++ String.concat sep ((y :: l) ++ [a])
          = (x +++ sep +++ String.concat sep (y :: l)) +++ sep +++ a).
  rewrite IH by discriminate. now rewrite !append_assoc.
Qed.

Lemma truthy_append_l a b : truthy a = true -> truthy (a +++ b) = true.
Proof. destruct a; [discriminate | reflexivity]. Qed.

Lemma chain_attribute_nonempty v a : chain v ++ [a] <> [].
Proof. destruct (chain v); discriminate. Qed.

(** The object name of a chain: none for an empty chain. *)
Definition object_of_chain (e : ast) : option string :=
  match chain e with
  | [] => None
  | c => Some (join "." c)
  end.

Lemma object_of_attribute v a :
  identifiers_nonempty (Attribute v a) = true ->
  _extract_object_name v = object_of_chain v /\
  truthy_opt (_extract_object_name v)
  = match chain v with [] => false | _ => true end ->
  (if truthy_opt (_extract_object_name v)
   then Some (get_default (_extract_object_name v) +++ "." +++ a)
   else Some a)
  = Some (join "." (chain v ++ [a])) /\
  truthy (join "." (chain v ++ [a])) = true.
Proof.
  intros Hne [E T]. cbn [identifiers_nonempty] in Hne.
  apply andb_prop in Hne as [_ Ha].
  rewrite T, E. unfold object_of_chain.
  destruct (chain v) as [|x l] eqn:C.
  - split; [reflexivity | exact Ha].
  - rewrite join_snoc by discriminate. cbn [get_default]. split; [reflexivity|].
    rewrite E in T. unfold object_of_chain in T. rewrite C in T. cbn [truthy_opt] in T.
    now apply truthy_append_l.
Qed.

Lemma extract_object_name_chain e :
  identifiers_nonempty e = true ->
  _extract_object_name e = object_of_chain e /\
  truthy_opt (_extract_object_name e)
  = match chain e with [] => false | _ => true end.
Proof.
  induction e using ast_ind; intros Hne; try (split; reflexivity).
  - split; [reflexivity | exact Hne].
  - assert (Hv : identifiers_nonempty e = true)
      by (cbn [identifiers_nonempty] in Hne; now apply andb_prop in Hne as [Hv _]).
    destruct (object_of_attribute e attr Hne (IHe Hv)) as [E T].
    cbn [_extract_object_name]. rewrite E.
    unfold object_of_chain. cbn [chain truthy_opt]. rewrite T.
    destruct (chain e ++ [attr]) eqn:D; [now destruct (chain e)|]. auto.
Qed.

Lemma extract_callee_name_chain func :
  identifiers_nonempty func = true ->
  _extract_callee_name func = callee_of_chain func /\
  truthy_opt (_extract_callee_name func)
  = match callee_of_chain func with Some _ => true | None => false end.
Proof.
  induction func using ast_ind; intros Hne; try (split; reflexivity).
  - split; [reflexivity | exact Hne].
  - assert (Hv : identifiers_nonempty func = true)
      by (cbn [identifiers_nonempty] in Hne; now apply andb_prop in Hne as [Hv _]).
    destruct (object_of_attribute func attr Hne (extract_object_name_chain func Hv)) as [E T].
    cbn [_extract_callee_name callee_of_chain]. rewrite E. auto.
  - cbn [_extract_callee_name callee_of_chain]. apply IHfunc1. exact Hne.
Qed.

Lemma edges_Call_emit self node func cargs kws :
  nodes (Call_emit self node func cargs kws) = nodes self /\
  edges (Call_emit self node func cargs kws)
  = edges self ++
    match _extract_callee_name func with
    | Some c => if truthy c then [calls_edge self node c cargs kws] else []
    | None => []
    end.
Proof.
  unfold Call_emit. destruct (_extract_callee_name func) as [c|]; simpl.
  - destruct (truthy c); simpl; [split; reflexivity | now rewrite app_nil_r].
  - now rewrite app_nil_r.
Qed.

(** [foo().bar], [a.b.c], [a[0]], [a().b.c] as callees *)
Definition call_of (func : ast) : ast := Call func [] [] (at_line 1).
Definition foo_call_bar : ast := Attribute (call_of (Name "foo")) "bar".
Definition a_b_c : ast := Attribute (Attribute (Name "a") "b") "c".

Example callee_bare_name : _extract_callee_name (Name "foo") = Some "foo".
Proof. reflexivity. Qed.

Example callee_nested_attributes : _extract_callee_name a_b_c = Some "a.b.c".
Proof. reflexivity. Qed.

Example callee_of_subscript :
  _extract_callee_name (Subscript (Name "handlers") (Name "k")) = Some "handlers".
Proof. reflexivity. Qed.

Example callee_call_of_call : _extract_callee_name (call_of (Name "foo")) = None.
Proof. reflexivity. Qed.

Example callee_above_a_call :
  _extract_callee_name (Attribute (Attribute (call_of (Name "a")) "b") "c") = Some "b.c".
Proof. reflexivity. Qed.

Example callee_attribute_of_subscript :
  _extract_callee_name (Attribute (Subscript (Name "a") (Name "i")) "b") = Some "b".
Proof. reflexivity. Qed.

(** C3, as stated, fails: for [foo().bar()] the base of the attribute access
    does not resolve, yet the name [bar] is obtained and a CALLS edge to
    [unresolved:bar] is emitted (before the edge of the inner call [foo()]). *)
Lemma C3_attribute_of_call_is_named :
  claimed_callee_name foo_call_bar = None /\
  _extract_callee_name foo_call_bar = Some "bar" /\
  map target_entity_id
      (edges (visit unparse_names start (Module [Expr (call_of foo_call_bar)])))
  = ["unresolved:bar"; "unresolved:foo"].
Proof. vm_compute. repeat split. Qed.

(** C3 (amended): the callee name of a bare identifier is the identifier; of
    an attribute access, the dotted chain of names above its base, which is
    the whole [object.attribute] chain when the base is a name and only the
    attributes above the base when the base is a call, a subscript or any
    other expression; of a subscript, the callee name of its value; a call of
    a call and every other expression give no name.  [visit_Call] emits
    exactly one CALLS edge, to [unresolved:<name>], when a name is obtained
    and no edge otherwise, and creates no node. *)
Theorem C3_callee_name (func : ast) (Hne : identifiers_nonempty func = true) :
  _extract_callee_name func = callee_of_chain func /\
  forall self node cargs kws,
    nodes (Call_emit self node func cargs kws) = nodes self /\
    edges (Call_emit self node func cargs kws)
    = edges self ++
      match callee_of_chain func with
      | Some c => [calls_edge self node c cargs kws]
      | None => []
      end.
Proof.
  destruct (extract_callee_name_chain func Hne) as [E T]. split; [exact E|].
  intros self node cargs kws.
  destruct (edges_Call_emit self node func cargs kws) as [N Ed].
  split; [exact N|]. rewrite Ed. rewrite E in *.
  destruct (callee_of_chain func) as [c|]; [|reflexivity].
  cbn [truthy_opt] in T. now rewrite T.
Qed.

Lemma C3_callee_name_witness :
  _extract_callee_name a_b_c = callee_of_chain a_b_c /\
  forall self node cargs kws,
    nodes (Call_emit self node a_b_c cargs kws) = nodes self /\
    edges (Call_emit self node a_b_c cargs kws)
    = edges self ++
      match callee_of_chain a_b_c with
      | Some c => [calls_edge self node c cargs kws]
      | None => []
      end.
Proof. apply (C3_callee_name a_b_c). reflexivity. Defined.

(** ** Parameters (C4) *)

(** [def f(self, x): pass] at module level, and [def g(a, /, b): pass] *)
Definition def_f_self_x : ast :=
  FunctionDef false "f"
    (Arguments_ [] [plain_arg "self"; plain_arg "x"] None [] [] None [])
    [pass_stmt] [] None [] (at_line 1).
Definition def_g_posonly : ast :=
  FunctionDef false "g"
    (Arguments_ [plain_arg "a"] [plain_arg "b"] None [] [] None [])
    [pass_stmt] [] None [] (at_line 1).
(** [def m(x, self, *cls, self2=None, **kw)] inside [class C] *)
Definition class_C_method : ast :=
  ClassDef "C" [] []
    [FunctionDef false "m"
       (Arguments_ [] [plain_arg "x"; plain_arg "self"] (Some (plain_arg "cls"))
                   [plain_arg "k"] [None] (Some (plain_arg "kw")) [])
       [pass_stmt] [] None [] (at_line 2)]
    [] [] (at_line 1).

Definition kinds_and_names (p : parser) : list (string * string) :=
  map (fun n => (kind n, node_name n)) (nodes p).

(** C4: what the code does on the failing inputs.  A parameter named [self]
    of a plain function is dropped; a [self] that is not the first parameter
    of a method is dropped; positional-only parameters are never collected. *)
Theorem C4_self_dropped_outside_first_method_parameter :
  kinds_and_names (visit unparse_names start (Module [def_f_self_x]))
  = [("function", "f"); ("parameter", "x")] /\
  kinds_and_names (visit unparse_names start (Module [class_C_method]))
  = [("class", "C"); ("method", "m"); ("parameter", "x"); ("parameter", "cls");
     ("parameter", "k"); ("parameter", "kw")] /\
  kinds_and_names (visit unparse_names start (Module [def_g_posonly]))
  = [("function", "g"); ("parameter", "b")].
Proof. vm_compute. repeat split. Qed.

(** The parameters the code collects, and how it emits them: the regular
    positional parameters not named [self] or [cls], then [*args], the
    keyword-only parameters and [**kwargs]; one parameter node each, in that
    order, and one PARAMETER_OF edge each from the parameter to the function. *)
Lemma process_function_args_edges unparse fid a : forall s,
  edges (_process_function_args unparse s a fid)
  = edges s ++
    map (fun x => edge_record s "PARAMETER_OF" (new_entity_id s "parameter" (arg x)) fid NoExtra)
        (all_args a).
Proof.
  unfold _process_function_args. induction (all_args a) as [|x l IH]; intros s.
  - simpl. now rewrite app_nil_r.
  - cbn [fold_left map]. rewrite IH.
    assert (F : frame s (add_parameter unparse fid s x)).
    { rewrite add_parameter_eq.
      eapply frame_trans; [apply add_node_frame | apply add_edge_frame]. }
    assert (E : edges (add_parameter unparse fid s x)
                = edges s ++ [edge_record s "PARAMETER_OF"
                                (new_entity_id s "parameter" (arg x)) fid NoExtra]).
    { rewrite add_parameter_eq. cbn [_add_edge append_edge edges].
      rewrite edges_add_node. cbn [truthy_opt]. rewrite app_nil_r.
      reflexivity. }
    rewrite E, <- app_assoc. cbn [app]. do 2 apply f_equal.
    apply map_ext. intros y. rewrite (new_entity_id_frame s _ _ _ F).
    reflexivity.
Qed.

(** ** The entry point: hash, failures, determinism, warnings (C5-C7, C9, C10) *)

(** The file can be opened and decoded. *)
Definition readable (env : environment) (filepath_ : string) : bool :=
  match open_file env filepath_ with
  | Opened raw => utf8_valid raw
  | _ => false
  end.

Lemma read_source_readable lib env path raw :
  open_file env path = Opened raw -> utf8_valid raw = true ->
  read_source lib env path = inl (universal_newlines raw).
Proof. intros O V. unfold read_source. now rewrite O, V. Qed.

Lemma hexdigest_length s : String.length (Sha256.hexdigest s) = 64%nat.
Proof. reflexivity. Qed.

Lemma source_hash_of_readable lib env path cfg raw :
  open_file env path = Opened raw -> utf8_valid raw = true ->
  res_sourceFileHash (parse_python_file lib env path cfg)
  = Sha256.hexdigest (universal_newlines raw).
Proof.
  intros O V. unfold parse_python_file.
  rewrite (read_source_readable lib env path raw O V).
  destruct (ast_parse lib (universal_newlines raw) path); reflexivity.
Qed.

(** Concrete library and environments. *)
Definition lib_with (parse : string -> string -> ast + string) : pylib :=
  {| ast_parse := parse;
     ast_unparse := unparse_names;
     decode_error_text := fun _ => "'utf-8' codec can't decode byte";
     json_loads := fun _ => inr "Expecting value: line 1 column 1 (char 0)" |}.

Definition parses_to (tree : ast) : string -> string -> ast + string := fun _ _ => inl tree.
Definition syntax_error : string -> string -> ast + string :=
  fun _ _ => inr "invalid syntax (a.py, line 1)".

Definition env_with (file : open_outcome) (t0 t1 : float) : environment :=
  {| open_file := fun _ => file;
     clock := fun n => match n with O => t0 | S _ => t1 end;
     abspath := fun p => "/repo/" +++ p |}.

Definition crlf_file : bytes := "x = 1" +++ String CR (String LF "").
Definition lf_file : bytes := "x = 1" +++ String LF "".

(** C5, as stated, fails: two files that differ only in their line
    terminators get the same hash, which is not the digest of the raw bytes
    of the first. *)
Lemma C5_line_terminators_do_not_change_hash :
  let lib := lib_with (parses_to (Module [])) in
  let r1 := parse_python_file lib (env_with (Opened crlf_file) 0 1) "/repo/a.py" default_config in
  let r2 := parse_python_file lib (env_with (Opened lf_file) 0 1) "/repo/a.py" default_config in
  crlf_file <> lf_file /\
  res_sourceFileHash r1 = res_sourceFileHash r2 /\
  res_sourceFileHash r1 <> Sha256.hexdigest crlf_file.
Proof.
  vm_compute. repeat split; discriminate.
Qed.

(** C5 (amended): for a readable file the hash is the SHA-256 hex digest (64
    characters) of the decoded text re-encoded as UTF-8, that is of the file's
    bytes after universal-newline translation.  It is a function of the byte
    content alone: two runs over contents with the same translation, in
    particular over byte-identical contents, give the same hash; a change of
    line terminators alone does not change it. *)
Theorem C5_hash_of_decoded_text (lib1 lib2 : pylib) (env1 env2 : environment)
  (path1 path2 : string) (cfg1 cfg2 : config) (raw1 raw2 : bytes)
  (O1 : open_file env1 path1 = Opened raw1) (V1 : utf8_valid raw1 = true)
  (O2 : open_file env2 path2 = Opened raw2) (V2 : utf8_valid raw2 = true) :
  res_sourceFileHash (parse_python_file lib1 env1 path1 cfg1)
  = Sha256.hexdigest (universal_newlines raw1) /\
  String.length (res_sourceFileHash (parse_python_file lib1 env1 path1 cfg1)) = 64%nat /\
  (universal_newlines raw1 = universal_newlines raw2 ->
   res_sourceFileHash (parse_python_file lib1 env1 path1 cfg1)
   = res_sourceFileHash (parse_python_file lib2 env2 path2 cfg2)).
Proof.
  rewrite (source_hash_of_readable lib1 env1 path1 cfg1 raw1 O1 V1).
  rewrite (source_hash_of_readable lib2 env2 path2 cfg2 raw2 O2 V2).
  split; [reflexivity | split; [apply hexdigest_length|]].
  intros E. now rewrite E.
Qed.

Lemma C5_hash_of_decoded_text_witness :
  let lib1 := lib_with (parses_to (Module [])) in
  let lib2 := lib_with syntax_error in
  let env1 := env_with (Opened crlf_file) 0 1 in
  let env2 := env_with (Opened lf_file) 5 9 in
  res_sourceFileHash (parse_python_file lib1 env1 "a.py" default_config)
  = Sha256.hexdigest (universal_newlines crlf_file) /\
  String.length (res_sourceFileHash (parse_python_file lib1 env1 "a.py" default_config))
  = 64%nat /\
  (universal_newlines crlf_file = universal_newlines lf_file ->
   res_sourceFileHash (parse_python_file lib1 env1 "a.py" default_config)
   = res_sourceFileHash (parse_python_file lib2 env2 "b.py" default_config)).
Proof.
  intros lib1 lib2 env1 env2.
  apply (C5_hash_of_decoded_text lib1 lib2 env1 env2 "a.py" "b.py"
           default_config default_config crlf_file lf_file); reflexivity.
Defined.

(** C6: when the file is read but tree construction fails with a syntax
    error, the result has empty nodes, edges and externalRefs, no error field,
    the single warning [Syntax error: ...] and the source hash (64 hex
    characters, so not empty); [main] prints this result on stdout, indented,
    writes nothing on stderr and ends with exit code 0. *)
Theorem C6_syntax_error_result (lib : pylib) (env : environment)
  (prog path : string) (rest : list string) (cfg : config) (raw : bytes) (text : string)
  (Hcfg : cli_config lib (prog :: path :: rest) = inl cfg)
  (O : open_file env (abspath env path) = Opened raw)
  (V : utf8_valid raw = true)
  (Hsyn : ast_parse lib (universal_newlines raw) (abspath env path) = inr text) :
  let r := parse_python_file lib env (abspath env path) cfg in
  res_nodes r = [] /\ res_edges r = [] /\ res_externalRefs r = [] /\
  res_error r = None /\
  res_warnings r = ["Syntax error: " +++ text] /\
  res_sourceFileHash r = Sha256.hexdigest (universal_newlines raw) /\
  res_sourceFileHash r <> "" /\
  main lib env (prog :: path :: rest)
  = {| stdout := [ResultObject r (Some 2%nat)]; stderr := []; exit_code := 0 |}.
Proof.
  intros r.
  assert (E : r = {| res_error := None;
                     res_nodes := []; res_edges := []; res_externalRefs := [];
                     res_sourceFileHash := Sha256.hexdigest (universal_newlines raw);
                     res_filePath := abspath env path;
                     res_parseTimeMs := PyFloat (elapsed_ms (clock env 0) (clock env 1));
                     res_warnings := ["Syntax error: " +++ text] |}).
  { unfold r, parse_python_file.
    rewrite (read_source_readable lib env _ raw O V), Hsyn. reflexivity. }
  repeat split; try (rewrite E; reflexivity).
  - rewrite E. cbn [res_sourceFileHash]. intros H.
    pose proof (hexdigest_length (universal_newlines raw)) as L.
    rewrite H in L. discriminate.
  - unfold main. rewrite Hcfg. fold r. rewrite E. reflexivity.
Qed.

Lemma C6_syntax_error_result_witness :
  let lib := lib_with syntax_error in
  let env := env_with (Opened lf_file) 0 1 in
  let r := parse_python_file lib env (abspath env "a.py") default_config in
  res_nodes r = [] /\ res_edges r = [] /\ res_externalRefs r = [] /\
  res_error r = None /\
  res_warnings r = ["Syntax error: " +++ "invalid syntax (a.py, line 1)"] /\
  res_sourceFileHash r = Sha256.hexdigest (universal_newlines lf_file) /\
  res_sourceFileHash r <> "" /\
  main lib env ["python_parser.py"; "a.py"]
  = {| stdout := [ResultObject r (Some 2%nat)]; stderr := []; exit_code := 0 |}.
Proof.
  intros lib env.
  apply (C6_syntax_error_result lib env "python_parser.py" "a.py" [] default_config
           lf_file "invalid syntax (a.py, line 1)"); reflexivity.
Defined.

(** C7, as stated, fails: the file is missing, five seconds pass between two
    readings of the clock, and the result carries the literal [0] rather than
    the elapsed 5000 ms. *)
Lemma C7_io_failure_time_is_zero :
  let lib := lib_with (parses_to (Module [])) in
  let env := env_with FileNotFound 100 105 in
  let r := parse_python_file lib env "/repo/missing.py" default_config in
  res_error r = Some "File not found: /repo/missing.py" /\
  elapsed_ms (clock env 0) (clock env 1) = 5000%float /\
  res_parseTimeMs r = PyInt 0 /\
  res_parseTimeMs r <> PyFloat (elapsed_ms (clock env 0) (clock env 1)).
Proof. vm_compute. repeat split. discriminate. Qed.

(** C7 (amended): when the file cannot be read (missing, another error on
    opening or reading, or not UTF-8), the result returned has the error field
    set, a warnings list holding exactly the error text, empty nodes, edges
    and externalRefs, an empty hash, and [parseTimeMs] the literal [0]: the
    elapsed time is recorded only when the file was read, on the syntax-error
    and success paths. *)
Theorem C7_io_failure_result (lib : pylib) (env : environment) (path : string)
  (cfg : config) :
  let r := parse_python_file lib env path cfg in
  if readable env path
  then res_error r = None /\
       res_parseTimeMs r = PyFloat (elapsed_ms (clock env 0) (clock env 1))
  else exists text,
         res_error r = Some text /\ res_warnings r = [text] /\
         res_nodes r = [] /\ res_edges r = [] /\ res_externalRefs r = [] /\
         res_sourceFileHash r = "" /\ res_filePath r = path /\
         res_parseTimeMs r = PyInt 0 /\
         (open_file env path = FileNotFound -> text = "File not found: " +++ path).
Proof.
  intros r. unfold r, parse_python_file, readable, read_source.
  destruct (open_file env path) as [|text|raw].
  - eexists. repeat split.
  - eexists. repeat split. discriminate.
  - destruct (utf8_valid raw).
    + destruct (ast_parse lib (universal_newlines raw) path); split; reflexivity.
    + eexists. repeat split. discriminate.
Qed.

(** The fields of a result other than [parseTimeMs]. *)
Definition timeless (r : parse_result) :=
  (res_error r, res_nodes r, res_edges r, res_externalRefs r,
   res_sourceFileHash r, res_filePath r, res_warnings r).

(** C9: two invocations with the same library, file path and configuration
    on byte-identical file content produce the same nodes, edges (with all
    ids and locations), external references, hash, warnings and error field,
    whatever the clocks read; only [parseTimeMs] may differ. *)
Theorem C9_deterministic_output (lib : pylib) (env1 env2 : environment) (path : string)
  (cfg : config) (Hsame : open_file env1 path = open_file env2 path) :
  timeless (parse_python_file lib env1 path cfg)
  = timeless (parse_python_file lib env2 path cfg).
Proof.
  unfold parse_python_file, read_source. rewrite Hsame.
  destruct (open_file env2 path) as [|text|raw]; try reflexivity.
  destruct (utf8_valid raw); [|reflexivity].
  destruct (ast_parse lib (universal_newlines raw) path); reflexivity.
Qed.

(** [class A(B): pass] followed by [def f(): def g(): pass] *)
Definition sample_module : ast := Module [class_A_of_B; def_f].

Lemma C9_deterministic_output_witness :
  let lib := lib_with (parses_to sample_module) in
  timeless (parse_python_file lib (env_with (Opened lf_file) 0 1) "/repo/a.py" default_config)
  = timeless (parse_python_file lib (env_with (Opened lf_file) 7 42) "/repo/a.py"
                default_config).
Proof.
  intros lib.
  apply (C9_deterministic_output lib (env_with (Opened lf_file) 0 1)
           (env_with (Opened lf_file) 7 42) "/repo/a.py" default_config).
  reflexivity.
Defined.

(** The clocks of the two runs of the witness do differ in [parseTimeMs]. *)
Example parse_time_may_differ :
  let lib := lib_with (parses_to sample_module) in
  res_parseTimeMs (parse_python_file lib (env_with (Opened lf_file) 0 1) "/repo/a.py"
                     default_config)
  <> res_parseTimeMs (parse_python_file lib (env_with (Opened lf_file) 7 42) "/repo/a.py"
                        default_config).
Proof. vm_compute. intros H. discriminate H. Qed.

(** The traversal never appends a warning. *)
Lemma visit_keeps_warnings unparse node self :
  warnings (visit unparse self node) = warnings self.
Proof.
  destruct (visit_frame unparse node self) as [F _].
  unfold fixed in F. now injection F.
Qed.

(** The result of a successful parse. *)
Lemma success_result lib env path cfg raw tree :
  open_file env path = Opened raw -> utf8_valid raw = true ->
  ast_parse lib (universal_newlines raw) path = inl tree ->
  let p := visit (ast_unparse lib) (init path (universal_newlines raw) cfg) tree in
  parse_python_file lib env path cfg
  = {| res_error := None;
       res_nodes := nodes p; res_edges := edges p; res_externalRefs := external_refs p;
       res_sourceFileHash := Sha256.hexdigest (universal_newlines raw);
       res_filePath := path;
       res_parseTimeMs := PyFloat (elapsed_ms (clock env 0) (clock env 1));
       res_warnings := [] |}.
Proof.
  intros O V Hparse p. unfold parse_python_file.
  rewrite (read_source_readable lib env path raw O V), Hparse.
  fold p. unfold p at 4. rewrite visit_keeps_warnings. reflexivity.
Qed.

(** C10: on every successful parse (the file is read and the tree is built)
    the warnings list of the result is empty (and there is no error field):
    the traversal, whose nodes the result carries, appends no warning. *)
Theorem C10_no_warnings_on_success (lib : pylib) (env : environment) (path : string)
  (cfg : config) (raw : bytes) (tree : ast)
  (O : open_file env path = Opened raw) (V : utf8_valid raw = true)
  (Hparse : ast_parse lib (universal_newlines raw) path = inl tree) :
  res_warnings (parse_python_file lib env path cfg) = [] /\
  res_error (parse_python_file lib env path cfg) = None /\
  res_nodes (parse_python_file lib env path cfg)
  = nodes (visit (ast_unparse lib) (init path (universal_newlines raw) cfg) tree).
Proof.
  rewrite (success_result lib env path cfg raw tree O V Hparse). repeat split.
Qed.

Lemma C10_no_warnings_on_success_witness :
  let lib := lib_with (parses_to sample_module) in
  let env := env_with (Opened lf_file) 0 1 in
  res_warnings (parse_python_file lib env "/repo/a.py" default_config) = [] /\
  res_error (parse_python_file lib env "/repo/a.py" default_config) = None /\
  res_nodes (parse_python_file lib env "/repo/a.py" default_config)
  = nodes (visit (ast_unparse lib)
             (init "/repo/a.py" (universal_newlines lf_file) default_config) sample_module).
Proof.
  intros lib env.
  apply (C10_no_warnings_on_success lib env "/repo/a.py" default_config lf_file
           sample_module); reflexivity.
Defined.

(** Warnings are non-empty only on the failure paths. *)
Lemma warnings_only_on_failure lib env path cfg :
  res_warnings (parse_python_file lib env path cfg) <> [] ->
  readable env path = false \/
  exists raw text, open_file env path = Opened raw /\
                   ast_parse lib (universal_newlines raw) path = inr text.
Proof.
  intros H. unfold readable. destruct (open_file env path) as [|t|raw] eqn:O; auto.
  destruct (utf8_valid raw) eqn:V; auto.
  destruct (ast_parse lib (universal_newlines raw) path) as [tree|text] eqn:P.
  - rewrite (success_result lib env path cfg raw tree O V P) in H. now elim H.
  - right. now exists raw, text.
Qed.

(** ** Scenarios *)

(** [foo()] at module level: one CALLS edge from the synthesized module id to
    [unresolved:foo]. *)
Example module_level_call :
  let p := visit unparse_names start (Module [Expr (call_of (Name "foo"))]) in
  nodes p = [] /\
  map (fun e => (edge_type e, source_entity_id e, target_entity_id e)) (edges p)
  = [("CALLS", module_entity_id start, "unresolved:foo")].
Proof. vm_compute. repeat split. Qed.

(** [class A(B): pass]: one class node named [A], one EXTENDS edge whose
    [target_name] is [B]. *)
Example class_with_base :
  let p := visit unparse_names start (Module [class_A_of_B]) in
  kinds_and_names p = [("class", "A")] /\
  map (fun e => (edge_type e, edge_props e)) (edges p) = [("EXTENDS", ExtendsExtra "B")].
Proof. vm_compute. repeat split. Qed.

(** [class C:] with [X = 1], [def m(self, y)] and, inside [m], [class D] and
    [z = 2]: the members of [C], and [D] nested in the method, are contained
    in [C]; the parameter is not, and the assignment inside the method creates
    no node. *)
Definition class_C_members : ast :=
  ClassDef "C" [] []
    [Assign [Name "X"] (Constant COther) (at_line 2);
     FunctionDef false "m"
       (Arguments_ [] [plain_arg "self"; plain_arg "y"] None [] [] None [])
       [ClassDef "D" [] [] [pass_stmt] [] [] (at_line 4);
        Assign [Name "z"] (Constant COther) (at_line 5)]
       [] None [] (at_line 3)]
    [] [] (at_line 1).

Example members_of_a_class :
  let p := visit unparse_names start (Module [class_C_members]) in
  map (fun n => (kind n, qualified_name n)) (nodes p)
  = [("class", "C"); ("constant", "C.X"); ("method", "C.m"); ("parameter", "C.m.y");
     ("class", "C.m.D")] /\
  map (fun e => (edge_type e, source_entity_id e, target_entity_id e)) (edges p)
  = [("CONTAINS", new_entity_id start "class" "C", "::constant:" +++ _generate_scope_hash "C.X");
     ("CONTAINS", new_entity_id start "class" "C", "::method:" +++ _generate_scope_hash "C.m");
     ("PARAMETER_OF", "::parameter:" +++ _generate_scope_hash "C.m.y",
                      "::method:" +++ _generate_scope_hash "C.m");
     ("CONTAINS", new_entity_id start "class" "C", "::class:" +++ _generate_scope_hash "C.m.D")].
Proof. vm_compute. repeat split. Qed.

(** * Further properties of the traversal *)

(** ** Visits by own emission *)

Definition is_class (node : ast) : bool :=
  match node with ClassDef _ _ _ _ _ _ _ => true | _ => false end.

Definition is_function (node : ast) : bool :=
  match node with FunctionDef _ _ _ _ _ _ _ _ => true | _ => false end.

Section VisitOwn.

Variable unparse : ast -> string.
Variable R : parser -> parser -> Prop.

Hypothesis R_refl : forall s, R s s.
Hypothesis R_trans : forall a b c, R a b -> R b c -> R a c.
Hypothesis R_class : forall self node s',
  is_class node = true ->
  R (own_step unparse self node) s' ->
  R self (ClassDef_leave (current_class_name self) (current_class_entity_id self) s').
Hypothesis R_function : forall self node s',
  is_function node = true ->
  R (own_step unparse self node) s' ->
  R self (function_leave (current_function_entity_id self) s').
Hypothesis R_own : forall self node,
  is_class node = false -> is_function node = false ->
  R self (own_step unparse self node).

(** The induction of [visit_rel], with each emission step taken on the node
    that is being visited. *)
Lemma visit_rel_own (node : ast) : forall self, R self (visit unparse self node).
Proof.
  induction node using ast_ind; intros self.
  - simpl. now apply (fold_visit_rel unparse R R_refl R_trans).
  - match goal with |- R _ (visit _ _ ?n) =>
      change (visit unparse self n) with
        (ClassDef_leave (current_class_name self) (current_class_entity_id self)
           (fold_left (visit unparse) type_params
              (fold_left (visit unparse) decorator_list
                 (fold_left (visit unparse) body
                    (fold_left (visit unparse) keywords
                       (fold_left (visit unparse) bases (own_step unparse self n)))))));
      apply (R_class self n); [reflexivity|] end.
    do 4 (eapply R_trans; [| apply (fold_visit_rel unparse R R_refl R_trans); assumption]).
    apply (fold_visit_rel unparse R R_refl R_trans); assumption.
  - match goal with |- R _ (visit _ _ ?n) =>
      change (visit unparse self n) with
        (function_leave (current_function_entity_id self)
           (fold_left (visit unparse) type_params
              (visit_opt (visit unparse)
                 (fold_left (visit unparse) decorator_list
                    (fold_left (visit unparse) body
                       (visit_arguments (visit unparse) (own_step unparse self n) fargs)))
                 returns)));
      apply (R_function self n); [reflexivity|] end.
    eapply R_trans; [| apply (fold_visit_rel unparse R R_refl R_trans); assumption].
    eapply R_trans; [| apply (visit_opt_rel unparse R R_refl); assumption].
    do 2 (eapply R_trans; [| apply (fold_visit_rel unparse R R_refl R_trans); assumption]).
    apply (visit_arguments_rel unparse R R_refl R_trans); assumption.
  - apply (R_own self (Import names)); reflexivity.
  - apply (R_own self (ImportFrom module names level)); reflexivity.
  - simpl. eapply R_trans; [| apply IHnode].
    eapply R_trans; [| apply (fold_visit_rel unparse R R_refl R_trans); assumption].
    apply (R_own self (Assign targets node pos)); reflexivity.
  - simpl. eapply R_trans; [| apply (visit_opt_rel unparse R R_refl); assumption].
    eapply R_trans; [| apply IHnode2].
    eapply R_trans; [| apply IHnode1].
    apply (R_own self (AnnAssign node1 node2 value pos)); reflexivity.
  - simpl. do 2 (eapply R_trans; [| apply (fold_visit_rel unparse R R_refl R_trans); assumption]).
    eapply R_trans; [| apply IHnode].
    apply (R_own self (Call node cargs keywords pos)); reflexivity.
  - apply R_refl.
  - apply IHnode.
  - simpl. eapply R_trans; [apply IHnode1 | apply IHnode2].
  - apply IHnode.
  - apply R_refl.
  - simpl. now apply (visit_opt_rel unparse R R_refl).
  - apply IHnode.
  - simpl. now apply (fold_visit_rel unparse R R_refl R_trans).
Qed.

End VisitOwn.

(** ** The nodes each visit method creates *)

Lemma node_record_ext a b k n node ex :
  fixed b = fixed a -> scope_stack b = scope_stack a ->
  node_record b k n node ex = node_record a k n node ex.
Proof.
  intros F S. unfold fixed in F. injection F as F1 _ F3 F4 _.
  unfold node_record, _get_qualified_name, _get_scoped_name, _generate_entity_id.
  now rewrite F1, F3, F4, S.
Qed.

(** The parser as [_process_function_args] finds it: the function's name
    pushed and its id current. *)
Definition in_function (self : parser) (name : string) : parser :=
  set_scope (scope_stack self ++ [name]) (current_class_name self)
            (current_class_entity_id self)
            (Some (new_entity_id self (function_kind self) name)) self.

(** The kind [visit_AnnAssign] gives its node. *)
Definition annotated_kind (name : string) (value : option ast) : string :=
  if match value with
     | Some (Name id) => existsb (String.eqb id) primitive_type_names
     | _ => false
     end
  then "type"
  else if isupper name then "constant" else "variable".

Definition annotated_extra_props (unparse : ast -> string) (annotation_ : ast) : extra_props :=
  {| is_async := false; is_static := false; properties := None;
     is_property := false; is_generator := false; return_type := None;
     type_annotation := Some (_get_type_annotation unparse (Some annotation_)) |}.

(** The nodes the visit method of [node] creates itself, in order. *)
Definition created_nodes (unparse : ast -> string) (self : parser) (node : ast)
  : list node_data :=
  match node with
  | ClassDef name _ _ _ decorator_list _ _ =>
      [node_record self "class" name (AstNode node) (class_extra_props unparse decorator_list)]
  | FunctionDef is_async_ name a _ decorator_list returns _ _ =>
      node_record self (function_kind self) name (AstNode node)
        (function_extra_props unparse is_async_ node decorator_list returns)
      :: map (parameter_node unparse (in_function self name)) (all_args a)
  | Assign targets _ _ =>
      match current_function_entity_id self with
      | None => flat_map (assigned_nodes node self) targets
      | Some _ => []
      end
  | AnnAssign (Name name) annotation_ value _ =>
      match current_function_entity_id self with
      | None => [node_record self (annotated_kind name value) name (AstNode node)
                   (annotated_extra_props unparse annotation_)]
      | Some _ => []
      end
  | _ => []
  end.

Section OwnNodes.

Variable unparse : ast -> string.

Lemma function_enter_nodes self node is_async_ name a decs returns :
  nodes (function_enter unparse self node is_async_ name a decs returns)
  = nodes self
    ++ node_record self (function_kind self) name (AstNode node)
         (function_extra_props unparse is_async_ node decs returns)
       :: map (parameter_node unparse (in_function self name)) (all_args a).
Proof.
  rewrite function_enter_eq. cbv zeta.
  match goal with |- nodes (_process_function_args _ ?s2 _ ?i) = _ =>
    destruct (process_function_args_emits unparse i a s2) as [N _]; rewrite N end.
  cbn [set_scope nodes]. rewrite nodes_add_node, <- app_assoc. cbn [app].
  do 2 apply f_equal. apply map_ext. intros x. unfold parameter_node.
  apply node_record_ext.
  - match goal with |- context [_add_node ?s ?k ?n ?nd ?par ?ex] =>
      destruct (add_node_frame s k n nd par ex) as [F _] end.
    unfold fixed in *. cbn [set_scope filepath source repo_name package_path warnings in_function].
    exact F.
  - match goal with |- context [_add_node ?s ?k ?n ?nd ?par ?ex] =>
      destruct (add_node_frame s k n nd par ex) as [_ F] end.
    unfold scope in F. cbn [set_scope scope_stack in_function].
    assert (E : scope_stack
                  (snd (_add_node self (function_kind self) name (AstNode node)
                          (current_class_entity_id self)
                          (function_extra_props unparse is_async_ node decs returns)))
                = scope_stack self) by now injection F.
    now rewrite E.
Qed.

(** The visit method of [node] appends exactly [created_nodes] to the nodes. *)
Lemma own_step_nodes self node :
  nodes (own_step unparse self node) = nodes self ++ created_nodes unparse self node.
Proof.
  destruct node; cbn [own_step created_nodes]; try (now rewrite app_nil_r).
  - destruct (ClassDef_enter_creates unparse self
                (ClassDef name bases keywords body decorator_list type_params pos)
                name bases decorator_list) as [N _]. exact N.
  - apply function_enter_nodes.
  - destruct (visit_Import_creates self names) as [N _]. exact N.
  - destruct (visit_ImportFrom_creates self module names level) as [N _]. exact N.
  - destruct (Assign_emit_creates self (Assign targets node pos) targets) as [N _]. exact N.
  - unfold AnnAssign_emit.
    destruct (current_function_entity_id self);
      destruct node1; try (now rewrite app_nil_r).
    apply nodes_add_node.
  - destruct (edges_Call_emit self (Call node cargs keywords pos) node cargs keywords)
      as [N _]. now rewrite N, app_nil_r.
Qed.

End OwnNodes.

(** ** A property of every node a visit creates *)

Section NewNodes.

Variable unparse : ast -> string.

(** [P self n]: what holds of a node [n] created by a visit started in [self]. *)
Variable P : parser -> node_data -> Prop.

Hypothesis P_frame : forall a b n, frame a b -> P b n -> P a n.
Hypothesis P_inner : forall self node n,
  is_class node = true \/ is_function node = true ->
  P (own_step unparse self node) n -> P self n.
Hypothesis P_created : forall self node, Forall (P self) (created_nodes unparse self node).

Definition new_nodes (a b : parser) : Prop :=
  frame a b /\ exists ns, nodes b = nodes a ++ ns /\ Forall (P a) ns.

Lemma new_nodes_refl s : new_nodes s s.
Proof. split; [apply frame_refl|]. exists []. now rewrite app_nil_r. Qed.

Lemma new_nodes_trans a b c : new_nodes a b -> new_nodes b c -> new_nodes a c.
Proof.
  intros [F1 (n1 & N1 & P1)] [F2 (n2 & N2 & P2)].
  split; [eapply frame_trans; eauto|].
  exists (n1 ++ n2). split; [now rewrite N2, N1, app_assoc|].
  apply Forall_app. split; [exact P1|].
  eapply Forall_impl; [|exact P2]. intros n. now apply P_frame.
Qed.

Lemma new_nodes_inner self node s' :
  is_class node = true \/ is_function node = true ->
  new_nodes (own_step unparse self node) s' ->
  exists ns, nodes s' = nodes self ++ ns /\ Forall (P self) ns.
Proof.
  intros Hn [_ (ns & N & Pn)].
  exists (created_nodes unparse self node ++ ns). split.
  - now rewrite N, own_step_nodes, app_assoc.
  - apply Forall_app. split; [apply P_created|].
    eapply Forall_impl; [|exact Pn]. intros n. now apply P_inner.
Qed.

Lemma own_step_frame self node :
  is_class node = false -> is_function node = false ->
  frame self (own_step unparse self node).
Proof.
  destruct node; intros C F; try discriminate; cbn [own_step]; try apply frame_refl.
  - apply visit_Import_frame.
  - apply visit_ImportFrom_frame.
  - apply Assign_emit_frame.
  - apply AnnAssign_emit_frame.
  - apply Call_emit_frame.
Qed.

(** Every node a visit appends satisfies [P] of the state the visit started in. *)
Lemma visit_new_nodes node self :
  exists ns, nodes (visit unparse self node) = nodes self ++ ns /\ Forall (P self) ns.
Proof.
  enough (H : new_nodes self (visit unparse self node)) by (destruct H as [_ H]; exact H).
  revert self. apply (visit_rel_own unparse new_nodes).
  - apply new_nodes_refl.
  - apply new_nodes_trans.
  - intros self nd s' C H. split.
    + destruct nd; try discriminate. cbn [own_step] in H. destruct H as [F _].
      eapply ClassDef_leave_frame; exact F.
    + apply (new_nodes_inner self nd s'); auto.
  - intros self nd s' C H. split.
    + destruct nd; try discriminate. cbn [own_step] in H. destruct H as [F _].
      eapply function_leave_frame; exact F.
    + apply (new_nodes_inner self nd s'); auto.
  - intros self nd C F. split; [now apply own_step_frame|].
    exists (created_nodes unparse self nd). split; [apply own_step_nodes | apply P_created].
Qed.

Lemma new_nodes_visit node self : new_nodes self (visit unparse self node).
Proof.
  split; [apply visit_frame | apply visit_new_nodes].
Qed.

Lemma children_all (V : ast -> Prop) (l : list ast) : (forall x, V x) -> list_all ast V l.
Proof. intros H. induction l; constructor; auto. Qed.

Lemma optional_all (V : ast -> Prop) (o : option ast) :
  (forall x, V x) -> option_all ast V o.
Proof. intros H. destruct o; constructor; auto. Qed.

Lemma annotation_all (V : ast -> Prop) (x : arg_) : (forall e, V e) -> arg_of_all ast V x.
Proof. intros H. destruct x. constructor. now apply optional_all. Qed.

Lemma arguments_all (V : ast -> Prop) (a : arguments) :
  (forall e, V e) -> arguments_of_all ast V a.
Proof.
  intros H. destruct a. constructor.
  - induction posonlyargs0; constructor; auto using annotation_all.
  - induction args0; constructor; auto using annotation_all.
  - destruct vararg0; constructor; auto using annotation_all.
  - induction kwonlyargs0; constructor; auto using annotation_all.
  - induction kw_defaults0; constructor; auto using optional_all.
  - destruct kwarg0; constructor; auto using annotation_all.
  - now apply children_all.
Qed.

(** The traversal of the children of a node. *)
Lemma new_nodes_generic_visit node s : new_nodes s (generic_visit unparse s node).
Proof.
  pose proof new_nodes_refl as Rr. pose proof new_nodes_trans as Rt.
  assert (Fl : forall l s0, new_nodes s0 (fold_left (visit unparse) l s0)).
  { intros l s0. apply (fold_visit_rel unparse new_nodes Rr Rt).
    apply children_all. intros x self. apply new_nodes_visit. }
  assert (Fo : forall o s0, new_nodes s0 (visit_opt (visit unparse) s0 o)).
  { intros o s0. apply (visit_opt_rel unparse new_nodes Rr).
    apply optional_all. intros x self. apply new_nodes_visit. }
  assert (Fa : forall a s0, new_nodes s0 (visit_arguments (visit unparse) s0 a)).
  { intros a s0. apply (visit_arguments_rel unparse new_nodes Rr Rt).
    apply arguments_all. intros x self. apply new_nodes_visit. }
  destruct node; cbn [generic_visit]; auto using new_nodes_visit.
  - do 4 (eapply Rt; [|apply Fl]). apply Fl.
  - eapply Rt; [|apply Fl]. eapply Rt; [|apply Fo].
    do 2 (eapply Rt; [|apply Fl]). apply Fa.
  - eapply Rt; [apply Fl | apply new_nodes_visit].
  - eapply Rt; [|apply Fo]. eapply Rt; apply new_nodes_visit.
  - do 2 (eapply Rt; [|apply Fl]). apply new_nodes_visit.
  - eapply Rt; apply new_nodes_visit.
Qed.

(** The nodes of the visit of a class or a function: the ones its own method
    creates, then nodes with the property of the inner state. *)
Lemma visit_scope_nodes node self :
  is_class node = true \/ is_function node = true ->
  exists ns,
    nodes (visit unparse self node)
    = nodes self ++ created_nodes unparse self node ++ ns /\
    Forall (P (own_step unparse self node)) ns.
Proof.
  intros Hn.
  destruct (new_nodes_generic_visit node (own_step unparse self node)) as [_ (ns & N & Pn)].
  exists ns. split; [|exact Pn].
  rewrite visit_eq. cbv zeta.
  rewrite own_step_nodes, <- app_assoc in N.
  destruct node; destruct Hn as [Hn|Hn]; try discriminate; exact N.
Qed.

End NewNodes.

(** ** What every emitted node carries *)

Definition node_kinds : list string :=
  ["class"; "function"; "method"; "parameter"; "variable"; "constant"; "type"].

Definition documented_kinds : list string := ["class"; "function"; "method"].

(** The fields of a node that are fixed by the parser's configuration, the
    node's kind and its qualified name. *)
Definition node_facts (self : parser) (n : node_data) : Prop :=
  file_path n = filepath self /\
  language n = "python" /\
  is_exported n = true /\
  entity_id n
  = repo_name self +++ ":" +++ package_path self +++ ":" +++ kind n +++ ":"
    +++ take 12 (Sha256.hexdigest (qualified_name n)) /\
  In (kind n) node_kinds /\
  documentation n <> Some "" /\
  (documentation n <> None -> In (kind n) documented_kinds).

Lemma node_facts_fixed a b n : fixed b = fixed a -> node_facts b n -> node_facts a n.
Proof.
  intros F H. unfold fixed in F. injection F as F1 _ F3 F4 _.
  unfold node_facts in *. now rewrite <- F1, <- F3, <- F4.
Qed.

Lemma node_record_facts self k name node ex :
  In k node_kinds ->
  (has_body node = true -> In k documented_kinds) ->
  node_facts self (node_record self k name node ex).
Proof.
  intros K D. unfold node_facts, node_record. cbn.
  repeat split; auto.
  - destruct (has_body node); [|discriminate].
    destruct (_get_docstring node) as [[|c d]|]; discriminate.
  - intros H. destruct (has_body node); [now apply D|]. now elim H.
Qed.

Lemma function_kind_documented self : In (function_kind self) documented_kinds.
Proof.
  unfold function_kind, documented_kinds.
  destruct (current_class_entity_id self); simpl; auto.
Qed.

Lemma documented_is_node_kind k : In k documented_kinds -> In k node_kinds.
Proof. unfold documented_kinds, node_kinds. simpl. intuition. Qed.

Lemma assigned_kind_cases id : assigned_kind id = "constant" \/ assigned_kind id = "variable".
Proof. unfold assigned_kind. destruct (isupper id); auto. Qed.

Lemma annotated_kind_cases name value :
  annotated_kind name value = "type" \/ annotated_kind name value = "constant" \/
  annotated_kind name value = "variable".
Proof.
  unfold annotated_kind.
  destruct (match value with Some (Name id) => _ | _ => false end); auto.
  destruct (isupper name); auto.
Qed.

Lemma created_nodes_facts unparse self node :
  Forall (node_facts self) (created_nodes unparse self node).
Proof.
  destruct node; cbn [created_nodes]; try constructor.
  - apply node_record_facts; [simpl; auto | intros _; simpl; auto].
  - constructor.
  - apply node_record_facts;
      [apply documented_is_node_kind, function_kind_documented
      | intros _; apply function_kind_documented].
  - apply Forall_forall. intros n Hn. apply in_map_iff in Hn as (x & <- & _).
    apply (node_facts_fixed self (in_function self name)); [reflexivity|].
    apply node_record_facts; [simpl; auto 8 | discriminate].
  - destruct (current_function_entity_id self); [constructor|].
    apply Forall_forall. intros n Hn. apply in_flat_map in Hn as (t & _ & Hn).
    destruct t; simpl in Hn; try contradiction. destruct Hn as [<-|[]].
    apply node_record_facts; [|discriminate].
    destruct (assigned_kind_cases id) as [-> | ->]; simpl; auto 8.
  - destruct node1; try constructor.
    destruct (current_function_entity_id self); constructor; [|constructor].
    apply node_record_facts; [|discriminate].
    destruct (annotated_kind_cases id value) as [-> | [-> | ->]]; simpl; auto 8.
Qed.

Lemma own_step_fixed unparse self node :
  fixed (own_step unparse self node) = fixed self.
Proof.
  destruct node; cbn [own_step]; try reflexivity.
  - apply ClassDef_enter_fixed.
  - apply function_enter_fixed.
  - apply visit_Import_frame.
  - apply visit_ImportFrom_frame.
  - apply Assign_emit_frame.
  - apply AnnAssign_emit_frame.
  - apply Call_emit_frame.
Qed.

(** The nodes of a traversal started by [parse_python_file]. *)
Lemma visit_init_node_facts unparse path src cfg tree :
  Forall (node_facts (init path src cfg)) (nodes (visit unparse (init path src cfg) tree)).
Proof.
  destruct (visit_new_nodes unparse node_facts) with (node := tree) (self := init path src cfg)
    as (ns & N & H).
  - intros a b n [F _]. now apply node_facts_fixed.
  - intros self node n _. apply node_facts_fixed. apply own_step_fixed.
  - apply created_nodes_facts.
  - rewrite N. exact H.
Qed.

(** ** Scopes: kinds inside functions, qualified names *)

Definition declared_name (node : ast) : option string :=
  match node with
  | ClassDef name _ _ _ _ _ _ => Some name
  | FunctionDef _ name _ _ _ _ _ _ => Some name
  | _ => None
  end.

Lemma own_step_scope_stack unparse self node name :
  declared_name node = Some name ->
  scope_stack (own_step unparse self node) = scope_stack self ++ [name].
Proof.
  destruct node; intros H; try discriminate; injection H as <-; cbn [own_step].
  - pose proof (ClassDef_enter_scope unparse self
                  (ClassDef name0 bases keywords body decorator_list type_params pos)
                  name0 bases decorator_list) as S.
    apply (f_equal (fun t => fst (fst (fst t)))) in S. exact S.
  - pose proof (function_enter_scope unparse self
                  (FunctionDef async name0 fargs body decorator_list returns type_params pos)
                  async name0 fargs decorator_list returns) as S.
    apply (f_equal (fun t => fst (fst (fst t)))) in S. exact S.
Qed.

Lemma own_step_function_id unparse self node :
  current_function_entity_id (own_step unparse self node)
  = if is_function node
    then Some (new_entity_id self (function_kind self)
                 (get_default (declared_name node)))
    else current_function_entity_id self.
Proof.
  destruct node; cbn [own_step is_function].
  2:{ pose proof (ClassDef_enter_scope unparse self
                    (ClassDef name bases keywords body decorator_list type_params pos)
                    name bases decorator_list) as S.
      apply (f_equal snd) in S. exact S. }
  2:{ pose proof (function_enter_scope unparse self
                    (FunctionDef async name fargs body decorator_list returns type_params pos)
                    async name fargs decorator_list returns) as S.
      apply (f_equal snd) in S. exact S. }
  all: try reflexivity.
  - destruct (visit_Import_frame self names) as [_ S]. apply (f_equal snd) in S. exact S.
  - destruct (visit_ImportFrom_frame self module names level) as [_ S].
    apply (f_equal snd) in S. exact S.
  - destruct (Assign_emit_frame self (Assign targets node pos) targets) as [_ S].
    apply (f_equal snd) in S. exact S.
  - destruct (AnnAssign_emit_frame unparse self (AnnAssign node1 node2 value pos)
                node1 node2 value) as [_ S].
    apply (f_equal snd) in S. exact S.
  - destruct (Call_emit_frame self (Call node cargs keywords pos) node cargs keywords)
      as [_ S].
    apply (f_equal snd) in S. exact S.
Qed.

(** The kinds of the nodes created under a function. *)
Definition scope_kinds : list string := ["class"; "function"; "method"; "parameter"].

Definition under_function (self : parser) (n : node_data) : Prop :=
  current_function_entity_id self <> None -> In (kind n) scope_kinds.

Lemma function_kind_scope_kind self : In (function_kind self) scope_kinds.
Proof.
  unfold function_kind, scope_kinds. destruct (current_class_entity_id self); simpl; auto.
Qed.

Lemma created_nodes_under_function unparse self node :
  Forall (under_function self) (created_nodes unparse self node).
Proof.
  destruct node; cbn [created_nodes]; try constructor.
  - intros _. simpl. auto.
  - constructor.
  - intros _. apply function_kind_scope_kind.
  - apply Forall_forall. intros n Hn. apply in_map_iff in Hn as (x & <- & _).
    intros _. simpl. auto.
  - destruct (current_function_entity_id self) eqn:E; [constructor|].
    apply Forall_forall. intros n _ H. now elim H.
  - destruct node1; try constructor.
    destruct (current_function_entity_id self) eqn:E; constructor; [|constructor].
    intros H. now elim H.
Qed.

Lemma under_function_visit unparse node self :
  exists ns, nodes (visit unparse self node) = nodes self ++ ns /\
             Forall (under_function self) ns.
Proof.
  apply (visit_new_nodes unparse under_function).
  - intros a b n [_ S] H. unfold under_function in *.
    apply (f_equal snd) in S. cbn in S. now rewrite <- S.
  - intros s nd n _ H. unfold under_function in *. intros Hf. apply H.
    rewrite own_step_function_id. destruct (is_function nd); [discriminate | exact Hf].
  - apply created_nodes_under_function.
Qed.

(** Qualified names are scoped names. *)
Lemma scoped_name_join p name : _get_scoped_name p name = join "." (scope_stack p ++ [name]).
Proof. unfold _get_scoped_name. destruct (scope_stack p); reflexivity. Qed.

Lemma node_record_nested self k name node ex :
  qualified_name (node_record self k name node ex) = join "." (scope_stack self ++ [name]) /\
  node_name (node_record self k name node ex) = name.
Proof. split; [apply scoped_name_join | reflexivity]. Qed.

(** ** Results of [parse_python_file] *)

(** The collections of a result are empty or those of one traversal. *)
Lemma result_collections lib env path cfg :
  let r := parse_python_file lib env path cfg in
  (res_nodes r = [] /\ res_edges r = [] /\ res_externalRefs r = []) \/
  exists src tree,
    let p := visit (ast_unparse lib) (init path src cfg) tree in
    res_nodes r = nodes p /\ res_edges r = edges p /\ res_externalRefs r = external_refs p.
Proof.
  unfold parse_python_file, read_source.
  destruct (open_file env path) as [|t|raw]; auto.
  destruct (utf8_valid raw); auto.
  destruct (ast_parse lib (universal_newlines raw) path) as [tree|t]; auto.
  right. exists (universal_newlines raw), tree. auto.
Qed.

Lemma scope_hash_length s : String.length (_generate_scope_hash s) = 12%nat.
Proof. reflexivity. Qed.

(** X1: the entity id of every node of a result is the repository name, the
    package path, the node's kind and the first 12 hexadecimal digits of the
    SHA-256 of the node's qualified name, joined by colons: identity is a
    function of the configuration, the kind and the qualified name alone. *)
Theorem entity_id_of_kind_and_qualified_name (lib : pylib) (env : environment)
  (path : string) (cfg : config) :
  Forall (fun n =>
            entity_id n
            = get_default (repoName cfg) +++ ":" +++ get_default (packagePath cfg) +++ ":"
              +++ kind n +++ ":" +++ _generate_scope_hash (qualified_name n) /\
            String.length (_generate_scope_hash (qualified_name n)) = 12%nat)
         (res_nodes (parse_python_file lib env path cfg)).
Proof.
  destruct (result_collections lib env path cfg) as [(N & _) | (src & tree & N & _)];
    rewrite N; [constructor|].
  eapply Forall_impl; [|apply visit_init_node_facts].
  intros n (_ & _ & _ & E & _). split; [exact E | apply scope_hash_length].
Qed.

Definition edge_types : list string := ["CONTAINS"; "EXTENDS"; "PARAMETER_OF"; "CALLS"].

(** X2: the kind of every node of a result is one of class, function, method,
    parameter, variable, constant and type (no module node is ever emitted),
    and the type of every edge is one of CONTAINS, EXTENDS, PARAMETER_OF and
    CALLS. *)
Theorem kinds_are_closed (lib : pylib) (env : environment) (path : string) (cfg : config) :
  Forall (fun n => In (kind n) node_kinds /\ kind n <> "module")
         (res_nodes (parse_python_file lib env path cfg)) /\
  Forall (fun e => In (edge_type e) edge_types)
         (res_edges (parse_python_file lib env path cfg)).
Proof.
  destruct (result_collections lib env path cfg) as [(N & E & _) | (src & tree & N & E & _)];
    rewrite N, E; [split; constructor|].
  split.
  - eapply Forall_impl; [|apply visit_init_node_facts].
    intros n (_ & _ & _ & _ & K & _). split; [exact K|].
    intros H. rewrite H in K. unfold node_kinds in K. simpl in K.
    repeat (destruct K as [K|K]; [discriminate|]). exact K.
  - destruct (wf_visit_init (ast_unparse lib) path src cfg tree) as (_ & _ & We).
    eapply Forall_impl; [|exact We].
    intros e (_ & _ & _ & Sh). unfold edge_types.
    destruct Sh as [T _ _ | bn T _ _ _ | T _ _ _ | cn k l c T _ _ _ _];
      rewrite T; simpl; auto.
Qed.

(** X3: every node of a result carries the file path with backslashes
    replaced by slashes, the language [python] and [is_exported = True], while
    the [filePath] of the result is the path as it was given. *)
Theorem nodes_carry_normalised_path (lib : pylib) (env : environment) (path : string)
  (cfg : config) :
  res_filePath (parse_python_file lib env path cfg) = path /\
  Forall (fun n => file_path n = replace_backslash path /\
                   contains_char backslash (file_path n) = false /\
                   language n = "python" /\ is_exported n = true)
         (res_nodes (parse_python_file lib env path cfg)).
Proof.
  split.
  - unfold parse_python_file, read_source.
    destruct (open_file env path) as [|t|raw]; try reflexivity.
    destruct (utf8_valid raw); [|reflexivity].
    destruct (ast_parse lib (universal_newlines raw) path); reflexivity.
  - destruct (result_collections lib env path cfg) as [(N & _) | (src & tree & N & _)];
      rewrite N; [constructor|].
    eapply Forall_impl; [|apply visit_init_node_facts].
    intros n (F & L & X & _). cbn [init filepath] in F. rewrite F.
    repeat split; auto.
    clear. induction path as [|c r IH]; [reflexivity|].
    cbn [replace_backslash contains_char]. rewrite IH.
    destruct (Ascii.eqb c backslash) eqn:E; [reflexivity|].
    rewrite Ascii.eqb_sym, E. reflexivity.
Qed.

(** X4: only class, function and method nodes carry a [documentation] field,
    and a documentation is never the empty string. *)
Theorem documentation_only_on_definitions (lib : pylib) (env : environment) (path : string)
  (cfg : config) :
  Forall (fun n => documentation n <> Some "" /\
                   (documentation n <> None -> In (kind n) documented_kinds))
         (res_nodes (parse_python_file lib env path cfg)).
Proof.
  destruct (result_collections lib env path cfg) as [(N & _) | (src & tree & N & _)];
    rewrite N; [constructor|].
  eapply Forall_impl; [|apply visit_init_node_facts].
  intros n (_ & _ & _ & _ & _ & D1 & D2). auto.
Qed.

(** X5: the visit of a function definition creates only class, function,
    method and parameter nodes: no assignment anywhere under a function, not
    even in the body of a class nested in it, becomes a variable, constant or
    type node. *)
Theorem no_assignment_nodes_under_functions (unparse : ast -> string) (self : parser)
  (is_async_ : bool) (name : string) (a : arguments) (body decorator_list : list ast)
  (returns : option ast) (type_params : list ast) (pos : position) :
  exists ns,
    nodes (visit unparse self
             (FunctionDef is_async_ name a body decorator_list returns type_params pos))
    = nodes self ++ ns /\
    Forall (fun n => In (kind n) scope_kinds) ns.
Proof.
  set (node := FunctionDef is_async_ name a body decorator_list returns type_params pos).
  destruct (visit_scope_nodes unparse under_function) with (node := node) (self := self)
    as (ns & N & H).
  - intros x b n [_ S] Hn. unfold under_function in *.
    apply (f_equal snd) in S. cbn in S. now rewrite <- S.
  - intros s nd n _ Hn. unfold under_function in *. intros Hf. apply Hn.
    rewrite own_step_function_id. destruct (is_function nd); [discriminate | exact Hf].
  - apply created_nodes_under_function.
  - now right.
  - exists (created_nodes unparse self node ++ ns). split; [exact N|].
    apply Forall_app. split.
    + unfold node. cbn [created_nodes]. constructor.
      * apply function_kind_scope_kind.
      * apply Forall_forall. intros n Hn. apply in_map_iff in Hn as (x & <- & _).
        simpl. auto.
    + eapply Forall_impl; [|exact H]. intros n Hn. apply Hn.
      rewrite own_step_function_id. discriminate.
Qed.

(** X7: the three collections are append-only: a visit keeps every node,
    edge and external reference it found, in place, and only adds after them. *)
Theorem visit_appends_only (unparse : ast -> string) (self : parser) (node : ast) :
  exists ns es rs,
    nodes (visit unparse self node) = nodes self ++ ns /\
    edges (visit unparse self node) = edges self ++ es /\
    external_refs (visit unparse self node) = external_refs self ++ rs.
Proof.
  destruct (visit_sound unparse node self) as (_ & ([ns N] & [es E] & [rs Rf]) & _).
  now exists ns, es, rs.
Qed.

(** ** Parameters *)

Definition is_self_or_cls (x : arg_) : bool :=
  String.eqb (arg x) "self" || String.eqb (arg x) "cls".

(** X8: [_process_function_args] emits, for the collected parameters in
    order, one parameter node each, named after the parameter, and one
    PARAMETER_OF edge each from that node's id to the function's id; it emits
    no other node or edge. *)
Theorem parameters_emitted_in_order (unparse : ast -> string) (s : parser) (a : arguments)
  (fid : string) :
  let params := map (parameter_node unparse s) (all_args a) in
  nodes (_process_function_args unparse s a fid) = nodes s ++ params /\
  edges (_process_function_args unparse s a fid)
  = edges s ++ map (fun n => edge_record s "PARAMETER_OF" (entity_id n) fid NoExtra) params /\
  map node_name params = map arg (all_args a) /\
  Forall (fun n => kind n = "parameter") params.
Proof.
  intros params.
  destruct (process_function_args_emits unparse fid a s) as [N _].
  split; [exact N|]. split; [|split].
  - rewrite process_function_args_edges. unfold params. now rewrite map_map.
  - unfold params. now rewrite map_map.
  - unfold params. apply Forall_forall. intros n Hn.
    apply in_map_iff in Hn as (x & <- & _). reflexivity.
Qed.

(** X9: the parameters collected are the regular positional parameters not
    named [self] or [cls] (wherever they stand), the variadic positional
    parameter, the keyword-only parameters and the variadic keyword
    parameter; positional-only parameters and default values play no part. *)
Theorem collected_parameters (a : arguments) :
  (forall x, In x (all_args a) <->
             (In x (args a) /\ is_self_or_cls x = false) \/ vararg a = Some x \/
             In x (kwonlyargs a) \/ kwarg a = Some x) /\
  (forall po kd de,
     all_args (Arguments_ po (args a) (vararg a) (kwonlyargs a) kd (kwarg a) de)
     = all_args a) /\
  (List.length (all_args a)
   <= List.length (args a) + List.length (kwonlyargs a) + 2)%nat.
Proof.
  split; [|split].
  - intros x. unfold all_args. rewrite !in_app_iff, filter_In.
    unfold is_self_or_cls. rewrite negb_true_iff.
    destruct (vararg a) as [v|], (kwarg a) as [k|]; simpl; split; intros H;
      repeat (destruct H as [H|H]); try discriminate; try contradiction;
      try (injection H as H); try subst; auto 8.
  - reflexivity.
  - unfold all_args. rewrite !length_app.
    pose proof (filter_length_le (fun x => negb (String.eqb (arg x) "self"
                                                || String.eqb (arg x) "cls")) (args a)).
    destruct (vararg a), (kwarg a); simpl; lia.
Qed.

(** ** Classes *)

Lemma extends_loop_edges unparse id_ bases : forall s,
  edges (extends_loop unparse s id_ bases)
  = edges s ++
    map (fun b => edge_record s "EXTENDS" id_ (_generate_entity_id s "class" (unparse b))
                    (ExtendsExtra (unparse b))) bases.
Proof.
  unfold extends_loop. induction bases as [|b l IH]; intros s.
  - simpl. now rewrite app_nil_r.
  - cbn [fold_left map]. rewrite IH. cbn [_add_edge append_edge edges].
    rewrite <- app_assoc. reflexivity.
Qed.

(** X10: entering a class with a current class id emits the class node, one
    CONTAINS edge from the current class when there is one, and then one
    EXTENDS edge per base, in order, whose target is the class id generated
    from the text of the base, carried as [target_name]. *)
Theorem class_node_and_edges (unparse : ast -> string) (self : parser) (node : ast)
  (name : string) (bases decs : list ast) :
  let s := ClassDef_enter unparse self node name bases decs in
  let id_ := new_entity_id self "class" name in
  nodes s = nodes self ++ [node_record self "class" name (AstNode node)
                             (class_extra_props unparse decs)] /\
  edges s
  = edges self ++ contains_for self id_
    ++ map (fun b => edge_record self "EXTENDS" id_
                       (_generate_entity_id self "class" (unparse b))
                       (ExtendsExtra (unparse b))) bases /\
  external_refs s = external_refs self.
Proof.
  intros s id_. unfold s. rewrite ClassDef_enter_eq. cbv zeta.
  cbn [set_scope nodes edges external_refs]. fold id_.
  set (s1 := snd (_add_node self "class" name (AstNode node) (current_class_entity_id self)
                    (class_extra_props unparse decs))).
  destruct (extends_loop_creates unparse id_ bases s1) as [_ [N _]].
  assert (Rf : forall l s0, external_refs (extends_loop unparse s0 id_ l) = external_refs s0).
  { unfold extends_loop. induction l as [|b l IH]; intros s0; [reflexivity|].
    cbn [fold_left]. now rewrite IH. }
  split; [|split].
  - rewrite N, app_nil_r. apply nodes_add_node.
  - rewrite extends_loop_edges.
    assert (F : fixed s1 = fixed self) by apply add_node_frame.
    assert (E : edges s1 = edges self ++ contains_for self id_) by apply edges_add_node.
    rewrite E, <- app_assoc. do 2 apply f_equal. apply map_ext. intros b.
    rewrite (generate_entity_id_fixed self s1 _ _ F).
    unfold edge_record. f_equal. unfold fixed in F. now injection F.
  - rewrite Rf. unfold s1. apply refs_add_node.
Qed.

(** ** Imports *)

(** The record [_add_external_ref] appends. *)
Definition ref_record (self : parser) (specifier symbol source_ : string)
  (local_name_ : option string) : ref_data :=
  {| ref_source_entity_id := source_;
     ref_source_file_path := filepath self;
     module_specifier := specifier;
     imported_symbol := symbol;
     is_type_only := false;
     is_relative := startswith_dot specifier;
     local_name :=
       match local_name_ with
       | Some l => if truthy l && negb (String.eqb l symbol) then Some l else None
       | None => None
       end |}.

Lemma add_external_ref_record self m i src l :
  _add_external_ref self m i src l = append_ref (ref_record self m i src l) self.
Proof.
  unfold _add_external_ref, ref_record. destruct l as [l|]; reflexivity.
Qed.

Lemma import_loop_refs (f : alias -> string * string) src names : forall s,
  let s' := fold_left (fun s0 a => _add_external_ref s0 (fst (f a)) (snd (f a)) src (asname a))
                      names s in
  nodes s' = nodes s /\ edges s' = edges s /\
  external_refs s'
  = external_refs s
    ++ map (fun a => ref_record s (fst (f a)) (snd (f a)) src (asname a)) names.
Proof.
  induction names as [|a l IH]; intros s; cbn [fold_left map].
  - repeat split. now rewrite app_nil_r.
  - destruct (IH (_add_external_ref s (fst (f a)) (snd (f a)) src (asname a)))
      as (N & E & Rf).
    cbv zeta. rewrite N, E, Rf. rewrite add_external_ref_record.
    cbn [append_ref nodes edges external_refs]. rewrite <- app_assoc.
    repeat split.
Qed.

Lemma append_empty s : s +++ "" = s.
Proof. induction s as [|c s IH]; simpl; [reflexivity | now rewrite IH]. Qed.

Lemma startswith_dots level m : startswith_dot (dots (S level) +++ m) = true.
Proof.
  unfold startswith_dot. cbn [dots String.append]. cbn [String.prefix].
  destruct (ascii_dec "." "."); [|congruence].
  destruct (dots level +++ m); reflexivity.
Qed.

(** X11: [import a, b as c] gives one external reference per alias, in
    order, with the module name as specifier and [*] as imported symbol,
    attributed to the current function when its id is set and not empty, else
    to the current class when its id is set and not empty, else to the
    module-level id, the id generated for kind [module] and the base name of
    the file; a local name is recorded when the alias is given (and is not
    empty or [*]); no node and no edge is emitted. *)
Theorem import_references (self : parser) (names : list alias) :
  let attributed_to :=
    match current_function_entity_id self, current_class_entity_id self with
    | Some (String c function_id), _ => String c function_id
    | _, Some (String c class_id) => String c class_id
    | _, _ => _generate_entity_id self "module" (basename (filepath self))
    end in
  nodes (visit_Import self names) = nodes self /\
  edges (visit_Import self names) = edges self /\
  external_refs (visit_Import self names)
  = external_refs self
    ++ map (fun a =>
              {| ref_source_entity_id := attributed_to;
                 ref_source_file_path := filepath self;
                 module_specifier := alias_name a;
                 imported_symbol := "*";
                 is_type_only := false;
                 is_relative := String.prefix "." (alias_name a);
                 local_name :=
                   match asname a with
                   | Some l => if truthy l && negb (String.eqb l "*") then Some l else None
                   | None => None
                   end |}) names.
Proof.
  intros attributed_to.
  assert (E : import_source self = attributed_to).
  { unfold import_source, attributed_to, py_or, truthy_opt, get_default.
    destruct (current_function_entity_id self) as [[|c f]|];
      destruct (current_class_entity_id self) as [[|c' k]|]; reflexivity. }
  rewrite <- E. unfold visit_Import.
  apply (import_loop_refs (fun a => (alias_name a, "*")) (import_source self) names self).
Qed.

(** X12: [from m import a, b as c] at relative level [n] gives one external
    reference per alias, in order, whose specifier is [n] dots followed by
    the module name (nothing for a missing module name); the reference is
    relative whenever [n > 0]; the local name is recorded only when it
    differs from the imported symbol; no node and no edge is emitted. *)
Theorem import_from_references (self : parser) (module_ : option string)
  (names : list alias) (level : nat) :
  let specifier := dots level +++ get_default module_ in
  nodes (visit_ImportFrom self module_ names level) = nodes self /\
  edges (visit_ImportFrom self module_ names level) = edges self /\
  external_refs (visit_ImportFrom self module_ names level)
  = external_refs self
    ++ map (fun a => ref_record self specifier (alias_name a) (import_source self) (asname a))
           names /\
  startswith_dot specifier
  = match level with O => startswith_dot (get_default module_) | S _ => true end /\
  Forall (fun a => local_name (ref_record self specifier (alias_name a) (import_source self)
                                 (asname a)) <> Some (alias_name a)) names.
Proof.
  intros specifier. unfold visit_ImportFrom.
  assert (E : match level with
              | O => get_default (py_or module_ (Some ""))
              | S _ => if truthy (get_default (py_or module_ (Some "")))
                       then dots level +++ get_default (py_or module_ (Some ""))
                       else dots level
              end = specifier).
  { unfold specifier. destruct module_ as [[|c m]|]; destruct level; cbn;
      try reflexivity; now rewrite append_empty. }
  rewrite E.
  destruct (import_loop_refs (fun a => (specifier, alias_name a)) (import_source self)
              names self) as (N & Ed & Rf).
  cbn [fst snd] in *. split; [exact N|]. split; [exact Ed|]. split; [exact Rf|]. split.
  - unfold specifier. destruct level; [reflexivity | apply startswith_dots].
  - apply Forall_forall. intros a _. cbn [ref_record local_name].
    destruct (asname a) as [l|]; [|discriminate].
    destruct (truthy l); cbn [andb]; [|discriminate].
    destruct (String.eqb l (alias_name a)) eqn:Q; cbn [negb]; [discriminate|].
    intros H. injection H as ->. now rewrite String.eqb_refl in Q.
Qed.

(** ** The command line *)

(** The invocation names a path, its configuration (if any) parses, and the
    file can be read and decoded. *)
Definition cli_ok (lib : pylib) (env : environment) (argv : list string) : bool :=
  match argv with
  | _ :: path :: _ =>
      match cli_config lib argv with
      | inl _ => readable env (abspath env path)
      | inr _ => false
      end
  | _ => false
  end.

Lemma error_field_of_result lib env path cfg :
  if readable env path
  then res_error (parse_python_file lib env path cfg) = None
  else res_error (parse_python_file lib env path cfg) <> None /\
       res_nodes (parse_python_file lib env path cfg) = [].
Proof.
  unfold readable, parse_python_file, read_source.
  destruct (open_file env path) as [|t|raw]; try (split; [discriminate | reflexivity]).
  destruct (utf8_valid raw); [|split; [discriminate | reflexivity]].
  destruct (ast_parse lib (universal_newlines raw) path); reflexivity.
Qed.

(** X13: when no path argument is given, or the [--config] value is not
    valid JSON, or the file cannot be read or decoded, [main] ends with exit
    code 1, prints nothing on stdout and one JSON object on stderr: the error
    object of the usage message, the error object with the text of the JSON
    error, or the compact (not indented) result, which has an error field, no
    node and the absolute path. *)
Theorem main_exit_code_on_failure (lib : pylib) (env : environment) (argv : list string) :
  cli_ok lib env argv = false ->
  exit_code (main lib env argv) = 1 /\
  stdout (main lib env argv) = [] /\
  match argv with
  | _ :: path :: _ =>
      match cli_config lib argv with
      | inr text =>
          stderr (main lib env argv) = [ErrorObject ("Invalid config JSON: " +++ text)]
      | inl cfg =>
          exists r, stderr (main lib env argv) = [ResultObject r None] /\
                    r = parse_python_file lib env (abspath env path) cfg /\
                    res_error r <> None /\ res_nodes r = [] /\
                    res_filePath r = abspath env path
      end
  | _ => stderr (main lib env argv) = [ErrorObject "File path argument required"]
  end.
Proof.
  unfold cli_ok, main.
  destruct argv as [|prog [|path rest]]; try (intros _; repeat split; reflexivity).
  destruct (cli_config lib (prog :: path :: rest)) as [cfg|t];
    [|intros _; repeat split; reflexivity].
  intros R.
  pose proof (error_field_of_result lib env (abspath env path) cfg) as H.
  rewrite R in H. destruct H as [He Hn]. rewrite Hn.
  destruct (res_error (parse_python_file lib env (abspath env path) cfg)) eqn:E;
    [|now elim He].
  cbn. repeat split. eexists. split; [reflexivity|]. split; [reflexivity|].
  split; [rewrite E; discriminate|]. split; [exact Hn|].
  unfold parse_python_file, read_source. unfold readable in R.
  destruct (open_file env (abspath env path)) as [|t|raw]; try reflexivity.
  rewrite R. reflexivity.
Qed.

Lemma main_exit_code_on_failure_witness :
  cli_ok (lib_with syntax_error) (env_with FileNotFound 0 1) ["python_parser.py"; "a.py"] = false /\
  exit_code (main (lib_with syntax_error) (env_with FileNotFound 0 1)
                  ["python_parser.py"; "a.py"]) = 1.
Proof.
  split; [reflexivity|].
  apply (main_exit_code_on_failure (lib_with syntax_error) (env_with FileNotFound 0 1)
           ["python_parser.py"; "a.py"]).
  reflexivity.
Defined.

(** ** The hash of files without carriage returns *)

Lemma universal_newlines_without_cr s :
  contains_char CR s = false -> universal_newlines s = s.
Proof.
  induction s as [|c r IH]; intros H; [reflexivity|].
  cbn [contains_char] in H. apply orb_false_elim in H as [Hc Hr].
  cbn [universal_newlines]. rewrite Ascii.eqb_sym, Hc. now rewrite IH.
Qed.

Lemma universal_newlines_removes_cr s : contains_char CR (universal_newlines s) = false.
Proof.
  assert (G : forall n s, (String.length s <= n)%nat ->
                          contains_char CR (universal_newlines s) = false).
  { clear s. induction n as [|n IH]; intros s L.
    - destruct s; [reflexivity | simpl in L; lia].
    - destruct s as [|c r]; [reflexivity|]. cbn [String.length] in L.
      cbn [universal_newlines]. destruct (Ascii.eqb c CR) eqn:E.
      + destruct r as [|d r']; [reflexivity|].
        destruct (Ascii.eqb d LF); cbn [contains_char]; cbn [String.length] in L.
        * rewrite IH by lia. reflexivity.
        * rewrite IH by (cbn [String.length]; lia). reflexivity.
      + cbn [contains_char]. rewrite Ascii.eqb_sym, E, IH by lia. reflexivity. }
  apply (G (String.length s)). lia.
Qed.

(** X14: the text that is hashed never contains a carriage return, and for a
    readable file without carriage returns the hash is the SHA-256 of the
    file's exact bytes. *)
Theorem hash_of_raw_bytes_without_cr (lib : pylib) (env : environment) (path : string)
  (cfg : config) (raw : bytes)
  (O : open_file env path = Opened raw) (V : utf8_valid raw = true) :
  contains_char CR (universal_newlines raw) = false /\
  (contains_char CR raw = false ->
   res_sourceFileHash (parse_python_file lib env path cfg) = Sha256.hexdigest raw).
Proof.
  split; [apply universal_newlines_removes_cr|].
  intros H. rewrite (source_hash_of_readable lib env path cfg raw O V).
  now rewrite universal_newlines_without_cr.
Qed.

Lemma hash_of_raw_bytes_without_cr_witness :
  let lib := lib_with (parses_to (Module [])) in
  let env := env_with (Opened lf_file) 0 1 in
  contains_char CR (universal_newlines lf_file) = false /\
  (contains_char CR lf_file = false ->
   res_sourceFileHash (parse_python_file lib env "/repo/a.py" default_config)
   = Sha256.hexdigest lf_file).
Proof.
  intros lib env.
  apply (hash_of_raw_bytes_without_cr lib env "/repo/a.py" default_config lf_file);
    reflexivity.
Defined.

(** ** Generators *)

Lemma is_generator_of_body is_async_ name a body decs returns tps pos inner :
  In inner body -> walk_has_yield inner = true ->
  walk_has_yield (FunctionDef is_async_ name a body decs returns tps pos) = true.
Proof.
  intros Hin Hy. cbn [walk_has_yield].
  assert (E : existsb walk_has_yield body = true)
    by (apply existsb_exists; now exists inner).
  rewrite E. now rewrite !orb_true_r.
Qed.

(** X15: a function is flagged as a generator as soon as any statement of
    its body holds a yield anywhere below it: a generator nested in a function
    makes the enclosing function a generator too. *)
Theorem generator_flag_spreads_outwards (unparse : ast -> string) (is_async_ : bool)
  (name : string) (a : arguments) (body decs : list ast) (returns : option ast)
  (tps : list ast) (pos : position) (inner : ast)
  (Hin : In inner body) (Hy : _is_generator inner = true) :
  let node := FunctionDef is_async_ name a body decs returns tps pos in
  _is_generator node = true /\
  forall self,
    exists n rest,
      nodes (function_enter unparse self node is_async_ name a decs returns)
      = nodes self ++ n :: rest /\
      node_name n = name /\ is_generator (extra n) = true.
Proof.
  intros node.
  assert (G : _is_generator node = true)
    by (apply (is_generator_of_body is_async_ name a body decs returns tps pos inner);
        assumption).
  split; [exact G|]. intros self.
  rewrite function_enter_nodes. eexists. eexists. split; [reflexivity|].
  split; [reflexivity|]. cbn [node_record extra function_extra_props is_generator].
  exact G.
Qed.

(** [def outer(): def gen(): yield] *)
Definition def_gen : ast :=
  FunctionDef false "gen" no_arguments [Expr (Yield None)] [] None [] (at_line 2).

Lemma generator_flag_spreads_outwards_witness :
  let node := FunctionDef false "outer" no_arguments [def_gen] [] None [] (at_line 1) in
  _is_generator node = true /\
  forall self,
    exists n rest,
      nodes (function_enter unparse_names self node false "outer" no_arguments [] None)
      = nodes self ++ n :: rest /\
      node_name n = "outer" /\ is_generator (extra n) = true.
Proof.
  apply (generator_flag_spreads_outwards unparse_names false "outer" no_arguments
           [def_gen] [] None [] (at_line 1) def_gen).
  - simpl. left. reflexivity.
  - reflexivity.
Defined.

(** ** Inside a class or a function *)

(** X16: while the children of a class or a function are traversed, and
    when the traversal comes back to restore the scope, the scope stack is the
    stack on entry followed by the name of that class or function: the [pop]
    of [visit_ClassDef] and [_visit_function] never meets an empty stack and
    removes exactly the name that was pushed.  For any other node the stack is
    unchanged. *)
Theorem stack_before_pop (unparse : ast -> string) (self : parser) (node : ast) :
  scope_stack (generic_visit unparse (own_step unparse self node) node)
  = match declared_name node with
    | Some name => scope_stack self ++ [name]
    | None => scope_stack self
    end.
Proof.
  destruct (new_nodes_generic_visit unparse (fun _ _ => True)) with
    (node := node) (s := own_step unparse self node) as [[_ S] _]; auto.
  { intros s nd. apply Forall_forall. auto. }
  apply (f_equal (fun t => fst (fst (fst t)))) in S. cbn in S. rewrite S.
  destruct (declared_name node) as [name|] eqn:D.
  - now apply own_step_scope_stack.
  - assert (F : frame self (own_step unparse self node))
      by (apply own_step_frame; destruct node; try reflexivity; discriminate).
    destruct F as [_ F]. apply (f_equal (fun t => fst (fst (fst t)))) in F. exact F.
Qed.

(** ** Methods are contained in their class *)

Definition contained_if_method (ns : list node_data) (es : list edge_data)
  (n : node_data) : Prop :=
  kind n = "method" ->
  exists e, In e es /\ edge_type e = "CONTAINS" /\
            target_entity_id e = entity_id n /\ is_class_id ns (source_entity_id e).

Definition methods_contained (p : parser) : Prop :=
  Forall (contained_if_method (nodes p) (edges p)) (nodes p).

Lemma contained_if_method_app ns ns' es es' n :
  contained_if_method ns es n -> contained_if_method (ns ++ ns') (es ++ es') n.
Proof.
  intros H K. destruct (H K) as (e & He & T & G & C).
  exists e. repeat split; auto using is_class_id_app. apply in_or_app. now left.
Qed.

Lemma methods_contained_grows a b news :
  grows a b -> nodes b = nodes a ++ news ->
  Forall (contained_if_method (nodes b) (edges b)) news ->
  methods_contained a -> methods_contained b.
Proof.
  intros (_ & [es E] & _) N Hnew M. unfold methods_contained in *.
  rewrite N at 2. apply Forall_app. split; [|exact Hnew].
  rewrite N, E. eapply Forall_impl; [|exact M].
  intros n. apply contained_if_method_app.
Qed.

Lemma sound_own_step unparse self node :
  is_class node = false -> is_function node = false ->
  sound (fun _ => True) self (own_step unparse self node).
Proof.
  destruct node; intros C F; try discriminate; cbn [own_step];
    try exact (sound_refl _ _).
  - apply sound_visit_Import.
  - apply sound_visit_ImportFrom.
  - apply sound_Assign_emit.
  - apply sound_AnnAssign_emit.
  - apply sound_Call_emit.
Qed.

Lemma created_nodes_not_method unparse self node :
  is_function node = false ->
  Forall (fun n => kind n <> "method") (created_nodes unparse self node).
Proof.
  destruct node; intros F; try discriminate; cbn [created_nodes]; try constructor.
  - discriminate.
  - constructor.
  - destruct (current_function_entity_id self); [constructor|].
    apply Forall_forall. intros n Hn. apply in_flat_map in Hn as (t & _ & Hn).
    destruct t; simpl in Hn; try contradiction. destruct Hn as [<-|[]].
    cbn [node_record kind]. destruct (assigned_kind_cases id) as [-> | ->]; discriminate.
  - destruct node1; try constructor.
    destruct (current_function_entity_id self); constructor; [|constructor].
    cbn [node_record kind].
    destruct (annotated_kind_cases id value) as [-> | [-> | ->]]; discriminate.
Qed.

Lemma not_method_contained ns es news :
  Forall (fun n => kind n <> "method") news -> Forall (contained_if_method ns es) news.
Proof.
  intros H. eapply Forall_impl; [|exact H]. intros n Hn K. now elim Hn.
Qed.

Lemma function_step_contained unparse self node :
  is_function node = true -> wf self ->
  Forall (contained_if_method (nodes (own_step unparse self node))
                              (edges (own_step unparse self node)))
         (created_nodes unparse self node).
Proof.
  destruct node; intros Hf W; try discriminate. cbn [own_step created_nodes].
  set (node := FunctionDef async name fargs body decorator_list returns type_params pos).
  set (s := function_enter unparse self node async name fargs decorator_list returns).
  constructor.
  - intros K. cbn [node_record kind] in K.
    destruct (function_enter_creates unparse self node async name fargs decorator_list returns)
      as (ps & _ & _ & [N C]).
    destruct W as (Wc & _ & _).
    unfold function_kind in K.
    destruct (current_class_entity_id self) as [c|] eqn:Ec; [|discriminate].
    destruct (Wc c eq_refl) as [Tc Ic].
    set (id_ := new_entity_id self (function_kind self) name).
    exists (edge_record self "CONTAINS" c id_ NoExtra). repeat split.
    + assert (Hin : In (edge_record self "CONTAINS" c id_ NoExtra) (contains_edges s)).
      { unfold s. rewrite C. apply in_or_app. right. cbn [flat_map].
        apply in_or_app. left.
        replace (is_parameter _) with false
          by (unfold is_parameter; cbn [node_record kind]; unfold function_kind;
              rewrite Ec; reflexivity).
        unfold contains_for. rewrite Ec. cbn [truthy_opt get_default]. rewrite Tc.
        left. cbn [node_record entity_id]. unfold id_, new_entity_id, function_kind.
        rewrite Ec. reflexivity. }
      unfold contains_edges in Hin. apply filter_In in Hin. apply Hin.
    + cbn [edge_record source_entity_id]. unfold s. rewrite N. now apply is_class_id_app.
  - apply not_method_contained. apply Forall_forall. intros n Hn.
    apply in_map_iff in Hn as (x & <- & _). discriminate.
Qed.

(** A stretch of traversal that keeps the invariants and the containment of
    methods. *)
Definition contains_methods (a b : parser) : Prop :=
  sound (fun _ => True) a b /\ (wf a -> methods_contained a -> methods_contained b).

Lemma methods_contained_visit unparse node self :
  contains_methods self (visit unparse self node).
Proof.
  revert self. apply (visit_rel_own unparse contains_methods).
  - intros s. split; [apply sound_refl | auto].
  - intros a b c [S1 M1] [S2 M2]. split; [eapply sound_trans; eauto|].
    intros W M. apply M2; [|now apply M1].
    destruct S1 as (_ & _ & W1). now apply W1.
  - intros self nd s' C [S M]. destruct nd; try discriminate. cbn [own_step] in *.
    split; [eapply sound_ClassDef_leave; exact S|].
    intros W Ms.
    set (cls := ClassDef name bases keywords body decorator_list type_params pos) in *.
    destruct (ClassDef_enter_sound unparse self cls name bases decorator_list) as [G0 W0].
    assert (Me : methods_contained (ClassDef_enter unparse self cls name bases decorator_list)).
    { apply (methods_contained_grows self _ (created_nodes unparse self cls)); auto.
      - apply (own_step_nodes unparse self cls).
      - apply not_method_contained. apply created_nodes_not_method. reflexivity. }
    exact (M (W0 W) Me).
  - intros self nd s' Fn [S M]. split.
    + destruct nd; try discriminate. cbn [own_step] in S.
      eapply sound_function_leave; exact S.
    + intros W Ms.
      assert (G0 : grows self (own_step unparse self nd) /\
                   (wf self -> wf (own_step unparse self nd)))
        by (destruct nd; try discriminate; apply function_enter_sound).
      destruct G0 as [G0 W0].
      assert (Me : methods_contained (own_step unparse self nd)).
      { apply (methods_contained_grows self _ (created_nodes unparse self nd)); auto.
        - apply own_step_nodes.
        - now apply function_step_contained. }
      exact (M (W0 W) Me).
  - intros self nd C F. split; [now apply sound_own_step|].
    intros W Ms.
    apply (methods_contained_grows self _ (created_nodes unparse self nd)); auto.
    + destruct (sound_own_step unparse self nd C F) as (_ & G & _). exact G.
    + apply own_step_nodes.
    + apply not_method_contained. now apply created_nodes_not_method.
Qed.

(** X17: every method node of a result is contained in a class: the result
    has a CONTAINS edge whose target is the method's id and whose source is
    the id of a class node of the result. *)
Theorem methods_are_contained (lib : pylib) (env : environment) (path : string)
  (cfg : config) :
  let r := parse_python_file lib env path cfg in
  Forall (fun n =>
            kind n = "method" ->
            exists e c,
              In e (res_edges r) /\ edge_type e = "CONTAINS" /\
              target_entity_id e = entity_id n /\
              In c (res_nodes r) /\ kind c = "class" /\
              entity_id c = source_entity_id e)
         (res_nodes r).
Proof.
  intros r. unfold r.
  destruct (result_collections lib env path cfg) as [(N & _) | (src & tree & N & E & _)];
    rewrite N; [constructor|]. rewrite E.
  destruct (methods_contained_visit (ast_unparse lib) tree (init path src cfg)) as [_ M].
  assert (M0 : methods_contained (init path src cfg)) by constructor.
  specialize (M (wf_init path src cfg) M0).
  eapply Forall_impl; [|exact M].
  intros n H K. destruct (H K) as (e & He & T & G & (l1 & c & l2 & Hc & Ic & Kc)).
  exists e, c. repeat split; auto.
  rewrite Hc. apply in_or_app. right. now left.
Qed.

(** ** Attribution of external references *)

(** The external references the visit method of [node] appends. *)
Definition created_refs (self : parser) (node : ast) : list ref_data :=
  match node with
  | Import names =>
      map (fun a => ref_record self (alias_name a) "*" (import_source self) (asname a)) names
  | ImportFrom module_ names level =>
      map (fun a => ref_record self (dots level +++ get_default module_) (alias_name a)
                      (import_source self) (asname a)) names
  | _ => []
  end.

Definition keeps_refs (a b : parser) : Prop := external_refs b = external_refs a.

Lemma keeps_refs_fold {A} (f : parser -> A -> parser) :
  (forall s x, keeps_refs s (f s x)) -> forall l s, keeps_refs s (fold_left f l s).
Proof.
  intros H l. induction l as [|x l IH]; intros s; [reflexivity|].
  cbn [fold_left]. unfold keeps_refs in *. now rewrite IH, H.
Qed.

Lemma import_from_specifier module_ level :
  match level with
  | O => get_default (py_or module_ (Some ""))
  | S _ => if truthy (get_default (py_or module_ (Some "")))
           then dots level +++ get_default (py_or module_ (Some ""))
           else dots level
  end = dots level +++ get_default module_.
Proof.
  destruct module_ as [[|c m]|]; destruct level; cbn; try reflexivity;
    now rewrite append_empty.
Qed.

Lemma own_step_refs unparse self node :
  external_refs (own_step unparse self node) = external_refs self ++ created_refs self node.
Proof.
  destruct node; cbn [own_step created_refs]; try (now rewrite app_nil_r).
  - rewrite ClassDef_enter_eq. cbv zeta. cbn [set_scope external_refs].
    unfold extends_loop. rewrite keeps_refs_fold by reflexivity.
    now rewrite refs_add_node, app_nil_r.
  - rewrite function_enter_eq. cbv zeta. unfold _process_function_args.
    rewrite keeps_refs_fold.
    + cbn [set_scope external_refs]. now rewrite refs_add_node, app_nil_r.
    + intros s x. unfold keeps_refs. rewrite add_parameter_eq.
      cbn [_add_edge append_edge external_refs]. apply refs_add_node.
  - unfold visit_Import.
    apply (import_loop_refs (fun a => (alias_name a, "*")) (import_source self) names self).
  - unfold visit_ImportFrom. rewrite import_from_specifier.
    apply (import_loop_refs (fun a => (dots level +++ get_default module, alias_name a))
             (import_source self) names self).
  - rewrite app_nil_r. unfold Assign_emit.
    destruct (current_function_entity_id self); [reflexivity|].
    apply keeps_refs_fold. intros s []; try reflexivity. apply refs_add_node.
  - rewrite app_nil_r. unfold AnnAssign_emit.
    destruct (current_function_entity_id self); [reflexivity|].
    destruct node1; try reflexivity. apply refs_add_node.
  - rewrite app_nil_r. unfold Call_emit.
    destruct (truthy_opt (_extract_callee_name node)); reflexivity.
Qed.

(** What holds of an external reference of parser [p]. *)
Definition ref_ok (p : parser) (r : ref_data) : Prop :=
  truthy (ref_source_entity_id r) = true /\
  (In (ref_source_entity_id r) (ids (nodes p)) \/
   ref_source_entity_id r = module_entity_id p) /\
  ref_source_file_path r = filepath p /\
  is_type_only r = false /\
  is_relative r = startswith_dot (module_specifier r).

Definition refs_ok (p : parser) : Prop := Forall (ref_ok p) (external_refs p).

Lemma ref_ok_mono a b ns r :
  fixed b = fixed a -> nodes b = nodes a ++ ns -> ref_ok a r -> ref_ok b r.
Proof.
  intros F N (T & S & P & Ty & Rl). unfold ref_ok.
  rewrite (module_entity_id_fixed a b F), N.
  unfold fixed in F. injection F as F1 _ _ _ _. rewrite F1.
  repeat split; auto. destruct S; auto using ids_app.
Qed.

Lemma import_source_valid self :
  wf self ->
  truthy (import_source self) = true /\
  (In (import_source self) (ids (nodes self)) \/
   import_source self = module_entity_id self).
Proof.
  intros (Wc & Wf & _). unfold import_source, py_or.
  destruct (current_function_entity_id self) as [f|].
  - destruct (Wf f eq_refl) as [T I].
    repeat (first [rewrite T | progress cbn [truthy_opt get_default negb]]). auto.
  - cbn [truthy_opt].
    destruct (current_class_entity_id self) as [c|].
    + destruct (Wc c eq_refl) as [T I].
      repeat (first [rewrite T | progress cbn [truthy_opt get_default negb]]).
      split; [reflexivity|]. left. now apply is_class_id_In.
    + cbn. split; [apply truthy_generate_entity_id | now right].
Qed.

Lemma created_refs_ok self node : wf self -> Forall (ref_ok self) (created_refs self node).
Proof.
  intros W. destruct (import_source_valid self W) as [T S].
  destruct node; cbn [created_refs]; try constructor;
    apply Forall_forall; intros r Hr; apply in_map_iff in Hr as (a & <- & _);
    repeat split; auto.
Qed.

Lemma own_step_refs_ok unparse self node :
  wf self -> refs_ok self -> refs_ok (own_step unparse self node).
Proof.
  intros W Q. unfold refs_ok. rewrite own_step_refs. apply Forall_app. split.
  - eapply Forall_impl; [|exact Q]. intros r.
    apply (ref_ok_mono self _ (created_nodes unparse self node));
      [apply own_step_fixed | apply own_step_nodes].
  - eapply Forall_impl; [|apply created_refs_ok; exact W]. intros r.
    apply (ref_ok_mono self _ (created_nodes unparse self node));
      [apply own_step_fixed | apply own_step_nodes].
Qed.

Definition attributes (a b : parser) : Prop :=
  sound (fun _ => True) a b /\ (wf a -> refs_ok a -> refs_ok b).

Lemma attributes_visit unparse node self : attributes self (visit unparse self node).
Proof.
  revert self. apply (visit_rel_own unparse attributes).
  - intros s. split; [apply sound_refl | auto].
  - intros a b c [S1 M1] [S2 M2]. split; [eapply sound_trans; eauto|].
    intros W M. apply M2; [|now apply M1].
    destruct S1 as (_ & _ & W1). now apply W1.
  - intros self nd s' C [S M]. split.
    + destruct nd; try discriminate. cbn [own_step] in S.
      eapply sound_ClassDef_leave; exact S.
    + intros W Q.
      assert (W0 : wf (own_step unparse self nd))
        by (destruct nd; try discriminate; now apply ClassDef_enter_sound).
      exact (M W0 (own_step_refs_ok unparse self nd W Q)).
  - intros self nd s' Fn [S M]. split.
    + destruct nd; try discriminate. cbn [own_step] in S.
      eapply sound_function_leave; exact S.
    + intros W Q.
      assert (W0 : wf (own_step unparse self nd))
        by (destruct nd; try discriminate; now apply function_enter_sound).
      exact (M W0 (own_step_refs_ok unparse self nd W Q)).
  - intros self nd C F. split; [now apply sound_own_step|].
    intros W Q. now apply own_step_refs_ok.
Qed.

(** X18: every external reference of a result is attributed to a non-empty
    id that is the id of a node of the result (the enclosing function or
    class) or the synthesized module-level id; it carries the normalised file
    path, is never type-only, and is relative exactly when its specifier
    starts with a dot. *)
Theorem references_are_attributed (lib : pylib) (env : environment) (path : string)
  (cfg : config) :
  let r := parse_python_file lib env path cfg in
  Forall (fun x =>
            ref_source_entity_id x <> "" /\
            (In (ref_source_entity_id x) (ids (res_nodes r)) \/
             ref_source_entity_id x
             = _generate_entity_id (init path "" cfg) "module"
                 (basename (replace_backslash path))) /\
            ref_source_file_path x = replace_backslash path /\
            is_type_only x = false /\
            is_relative x = startswith_dot (module_specifier x))
         (res_externalRefs r).
Proof.
  intros r. unfold r.
  destruct (result_collections lib env path cfg) as [(_ & _ & Rf) | (src & tree & N & _ & Rf)];
    rewrite Rf; [constructor|]. rewrite N.
  destruct (attributes_visit (ast_unparse lib) tree (init path src cfg)) as [S Q].
  assert (Q0 : refs_ok (init path src cfg)) by constructor.
  specialize (Q (wf_init path src cfg) Q0).
  destruct S as ([F _] & _ & _).
  eapply Forall_impl; [|exact Q].
  intros x (T & Sx & P & Ty & Rl). repeat split; auto.
  - intros H. rewrite H in T. discriminate.
  - destruct Sx as [Sx|Sx]; [now left|]. right. rewrite Sx.
    rewrite (module_entity_id_fixed _ _ F). reflexivity.
  - rewrite P. unfold fixed in F. injection F as F1 _ _ _ _. rewrite F1. reflexivity.
Qed.

(** ** What every emitted edge carries *)

(** The edges appended between [a] and [b] carry the file path of [a]. *)
Definition stamps_edges (a b : parser) : Prop :=
  fixed b = fixed a /\
  exists es, edges b = edges a ++ es /\
             Forall (fun e => source_file_path e = filepath a) es.

Lemma stamps_edges_refl s : stamps_edges s s.
Proof. split; [reflexivity|]. exists []. now rewrite app_nil_r. Qed.

Lemma stamps_edges_trans a b c : stamps_edges a b -> stamps_edges b c -> stamps_edges a c.
Proof.
  intros [F1 (e1 & E1 & P1)] [F2 (e2 & E2 & P2)].
  split; [congruence|]. exists (e1 ++ e2). split; [now rewrite E2, E1, app_assoc|].
  apply Forall_app. split; [exact P1|].
  eapply Forall_impl; [|exact P2]. intros e H. rewrite H.
  unfold fixed in F1. now injection F1.
Qed.

Lemma stamps_add_edge s t x y ex : stamps_edges s (_add_edge s t x y ex).
Proof. split; [reflexivity|]. exists [edge_record s t x y ex]. repeat constructor. Qed.

Lemma stamps_add_node s k n node par ex : stamps_edges s (snd (_add_node s k n node par ex)).
Proof.
  split; [apply add_node_frame|]. eexists. split; [apply edges_add_node|].
  destruct (truthy_opt par); repeat constructor.
Qed.

Lemma stamps_set_scope st cn ci fi s : stamps_edges s (set_scope st cn ci fi s).
Proof. split; [reflexivity|]. exists []. split; [simpl; now rewrite app_nil_r | constructor]. Qed.

Lemma stamps_add_external_ref s m i src l : stamps_edges s (_add_external_ref s m i src l).
Proof. split; [reflexivity|]. exists []. split; [simpl; now rewrite app_nil_r | constructor]. Qed.

Lemma stamps_edges_visit unparse node self : stamps_edges self (visit unparse self node).
Proof.
  apply (visit_rel unparse stamps_edges).
  - apply stamps_edges_refl.
  - apply stamps_edges_trans.
  - intros s nd name bases decs s' H.
    eapply stamps_edges_trans; [|apply stamps_set_scope].
    eapply stamps_edges_trans; [|exact H].
    rewrite ClassDef_enter_eq. cbv zeta.
    eapply stamps_edges_trans; [|apply stamps_set_scope].
    eapply stamps_edges_trans; [apply stamps_add_node|].
    unfold extends_loop.
    apply (fold_left_rel stamps_edges); [apply stamps_edges_refl | apply stamps_edges_trans|].
    intros; apply stamps_add_edge.
  - intros s nd is_async_ name a decs returns s' H.
    eapply stamps_edges_trans; [|apply stamps_set_scope].
    eapply stamps_edges_trans; [|exact H].
    rewrite function_enter_eq. cbv zeta.
    eapply stamps_edges_trans; [apply stamps_add_node|].
    eapply stamps_edges_trans; [apply stamps_set_scope|].
    unfold _process_function_args.
    apply (fold_left_rel stamps_edges); [apply stamps_edges_refl | apply stamps_edges_trans|].
    intros p x. rewrite add_parameter_eq.
    eapply stamps_edges_trans; [apply stamps_add_node | apply stamps_add_edge].
  - intros s names. unfold visit_Import.
    apply (fold_left_rel stamps_edges); [apply stamps_edges_refl | apply stamps_edges_trans|].
    intros; apply stamps_add_external_ref.
  - intros s m names level. unfold visit_ImportFrom.
    apply (fold_left_rel stamps_edges); [apply stamps_edges_refl | apply stamps_edges_trans|].
    intros; apply stamps_add_external_ref.
  - intros s nd targets. unfold Assign_emit.
    destruct (current_function_entity_id s); [apply stamps_edges_refl|].
    apply (fold_left_rel stamps_edges); [apply stamps_edges_refl | apply stamps_edges_trans|].
    intros p []; try exact (stamps_edges_refl _). apply stamps_add_node.
  - intros s nd target ann value. unfold AnnAssign_emit.
    destruct (current_function_entity_id s); [apply stamps_edges_refl|].
    destruct target; try exact (stamps_edges_refl _). apply stamps_add_node.
  - intros s nd func cargs kws. unfold Call_emit.
    destruct (truthy_opt (_extract_callee_name func));
      [apply stamps_add_edge | apply stamps_edges_refl].
Qed.

(** X19: every edge of a result has the id [type:source:target] built from
    its own type and endpoints (so two edges of the same type between the same
    endpoints have the same id) and carries the normalised file path. *)
Theorem edges_carry_id_and_path (lib : pylib) (env : environment) (path : string)
  (cfg : config) :
  Forall (fun e =>
            edge_id e
            = edge_type e +++ ":" +++ source_entity_id e +++ ":" +++ target_entity_id e /\
            source_file_path e = replace_backslash path)
         (res_edges (parse_python_file lib env path cfg)).
Proof.
  destruct (result_collections lib env path cfg) as [(_ & E & _) | (src & tree & _ & E & _)];
    rewrite E; [constructor|].
  destruct (wf_visit_init (ast_unparse lib) path src cfg tree) as (_ & _ & We).
  destruct (stamps_edges_visit (ast_unparse lib) tree (init path src cfg))
    as [_ (es & Ees & P)].
  cbn [init edges app] in Ees. rewrite Ees in *.
  apply Forall_forall. intros e He. split.
  - rewrite Forall_forall in We. now destruct (We e He) as (_ & _ & Id & _).
  - rewrite Forall_forall in P. now apply P.
Qed.

(** ** Repeated relationships *)

(** X20: edges are not deduplicated: the same call emitted twice appends the
    same edge, with the same id, twice. *)
Theorem repeated_calls_repeat_edges (self : parser) (node func : ast)
  (cargs kws : list ast) (callee : string)
  (Hname : _extract_callee_name func = Some callee) (Ht : truthy callee = true) :
  edges (Call_emit (Call_emit self node func cargs kws) node func cargs kws)
  = edges self ++ [calls_edge self node callee cargs kws;
                   calls_edge self node callee cargs kws].
Proof.
  destruct (edges_Call_emit (Call_emit self node func cargs kws) node func cargs kws)
    as [_ E2].
  destruct (edges_Call_emit self node func cargs kws) as [_ E1].
  rewrite E2, E1, Hname, Ht, <- app_assoc. cbn [app]. do 3 f_equal.
  unfold Call_emit. rewrite Hname. cbn [truthy_opt]. rewrite Ht. reflexivity.
Qed.

Lemma repeated_calls_repeat_edges_witness :
  edges (Call_emit (Call_emit start (call_of (Name "foo")) (Name "foo") [] [])
                   (call_of (Name "foo")) (Name "foo") [] [])
  = edges start ++ [calls_edge start (call_of (Name "foo")) "foo" [] [];
                    calls_edge start (call_of (Name "foo")) "foo" [] []].
Proof.
  apply (repeated_calls_repeat_edges start (call_of (Name "foo")) (Name "foo") [] [] "foo");
    reflexivity.
Defined.

(** ** The module-level id *)

Lemma basename_after_slash dir name :
  contains_char slash name = false -> basename (dir +++ String slash name) = name.
Proof.
  intros H. induction dir as [|c d IH].
  - cbn [String.append basename]. rewrite H, Ascii.eqb_refl. reflexivity.
  - cbn [String.append basename]. rewrite IH.
    assert (E : contains_char slash (d +++ String slash name) = true).
    { clear. induction d as [|x d IHd]; cbn [String.append contains_char].
      - now rewrite Ascii.eqb_refl.
      - rewrite IHd. apply orb_true_r. }
    now rewrite E.
Qed.

Lemma replace_backslash_app a b :
  replace_backslash (a +++ b) = replace_backslash a +++ replace_backslash b.
Proof. induction a as [|c a IH]; simpl; [reflexivity | now rewrite IH]. Qed.

Lemma replace_backslash_clean s :
  contains_char backslash s = false -> replace_backslash s = s.
Proof.
  induction s as [|c r IH]; intros H; [reflexivity|].
  cbn [contains_char] in H. apply orb_false_elim in H as [Hc Hr].
  cbn [replace_backslash]. rewrite Ascii.eqb_sym, Hc. now rewrite IH.
Qed.

(** X21: the synthesized module-level id depends on the configuration and
    on the base name of the file only: files with the same name in different
    directories (with either separator in the directory part) get the same
    module-level id. *)
Theorem module_id_of_base_name (dir1 dir2 name src1 src2 : string) (cfg : config)
  (Hs : contains_char slash name = false) (Hb : contains_char backslash name = false) :
  module_entity_id (init (dir1 +++ String slash name) src1 cfg)
  = module_entity_id (init (dir2 +++ String slash name) src2 cfg) /\
  module_entity_id (init (dir1 +++ String slash name) src1 cfg)
  = get_default (repoName cfg) +++ ":" +++ get_default (packagePath cfg)
    +++ ":module:" +++ _generate_scope_hash name.
Proof.
  assert (E : forall d s, module_entity_id (init (d +++ String slash name) s cfg)
                          = get_default (repoName cfg) +++ ":" +++ get_default (packagePath cfg)
                            +++ ":module:" +++ _generate_scope_hash name).
  { intros d s. unfold module_entity_id, _generate_entity_id. cbn [init filepath repo_name
      package_path]. rewrite replace_backslash_app.
    replace (replace_backslash (String slash name)) with (String slash name)
      by (cbn [replace_backslash]; now rewrite replace_backslash_clean).
    now rewrite basename_after_slash. }
  split; [now rewrite !E | apply E].
Qed.

Lemma module_id_of_base_name_witness :
  module_entity_id (init ("/repo/pkg" +++ String slash "a.py") "" default_config)
  = module_entity_id (init ("/other" +++ String slash "a.py") "x = 1" default_config) /\
  module_entity_id (init ("/repo/pkg" +++ String slash "a.py") "" default_config)
  = get_default (repoName default_config) +++ ":"
    +++ get_default (packagePath default_config)
    +++ ":module:" +++ _generate_scope_hash "a.py".
Proof.
  apply (module_id_of_base_name "/repo/pkg" "/other" "a.py" "" "x = 1" default_config);
    reflexivity.
Defined.

(** ** Assignment targets *)

(** The plain names among the targets of an assignment. *)
Definition target_names (targets : list ast) : list string :=
  flat_map (fun t => match t with Name id => [id] | _ => [] end) targets.

(** [É = é = 1] at module level: a constant and a variable. *)
Example cased_names_of_any_script :
  kinds_and_names
    (visit unparse_names start
       (Module [Assign [Name "É"; Name "é"] (Constant COther) (at_line 1)]))
  = [("constant", "É"); ("variable", "é")].
Proof. vm_compute. reflexivity. Qed.

Lemma flat_map_agree {A B} (f g : A -> list B) (l : list A) :
  (forall x, In x l -> f x = g x) -> flat_map f l = flat_map g l.
Proof.
  induction l as [|x l IH]; intros H; [reflexivity|].
  cbn [flat_map]. rewrite H by now left. rewrite IH; [reflexivity|].
  intros y Hy. apply H. now right.
Qed.

(** X22: outside functions an assignment creates one node per plain-name
    target, in order, named after the target, a constant when [str.isupper]
    holds of the name (no lower-case or title-case character and at least one
    upper-case character, of any script) and a variable otherwise, each
    contained in the current class
    when there is one; attribute, subscript and tuple targets create nothing,
    and inside a function the assignment creates nothing at all. *)
Theorem assignment_target_nodes (self : parser) (node : ast) (targets : list ast) :
  exists ns,
    nodes (Assign_emit self node targets) = nodes self ++ ns /\
    map (fun n => (kind n, node_name n)) ns
    = match current_function_entity_id self with
      | None => map (fun id => (if isupper id then "constant" else "variable", id))
                    (target_names targets)
      | Some _ => []
      end /\
    contains_edges (Assign_emit self node targets)
    = contains_edges self ++ flat_map (fun n => contains_for self (entity_id n)) ns.
Proof.
  destruct (Assign_emit_creates self node targets) as [N C].
  eexists. split; [exact N|]. split.
  - destruct (current_function_entity_id self); [reflexivity|].
    unfold target_names. clear N C. induction targets as [|t l IH]; [reflexivity|].
    cbn [flat_map]. rewrite !map_app, IH. destruct t; reflexivity.
  - rewrite C. f_equal. apply flat_map_agree. intros n Hn.
    replace (is_parameter n) with false; [reflexivity|].
    destruct (current_function_entity_id self); [contradiction|].
    apply in_flat_map in Hn as (t & _ & Hn).
    destruct t; simpl in Hn; try contradiction. destruct Hn as [<-|[]].
    unfold is_parameter. cbn [node_record kind].
    destruct (assigned_kind_cases id) as [-> | ->]; reflexivity.
Qed.

(** ** Qualified names *)

(** A node by the names of the classes and functions entered on the way to
    it, outermost first, and its own name. *)
Definition name_path : Type := list string * string.

Definition under (names : list string) (p : name_path) : name_path :=
  (names ++ fst p, snd p).

(** The nodes the visit method of [node] creates itself, as paths from the
    scope [node] is visited in. *)
Definition own_paths (in_function_ : bool) (node : ast) : list name_path :=
  match node with
  | ClassDef name _ _ _ _ _ _ => [([], name)]
  | FunctionDef _ name a _ _ _ _ _ =>
      ([], name) :: map (fun x => ([name], arg x)) (all_args a)
  | Assign targets _ _ =>
      if in_function_ then [] else map (fun id => ([], id)) (target_names targets)
  | AnnAssign (Name id) _ _ _ => if in_function_ then [] else [([], id)]
  | _ => []
  end.

Definition opt_paths (f : ast -> list name_path) (o : option ast) : list name_path :=
  match o with Some e => f e | None => [] end.

Definition arg_paths (f : ast -> list name_path) (x : arg_) : list name_path :=
  opt_paths f (annotation x).

Definition arguments_paths (f : ast -> list name_path) (a : arguments) : list name_path :=
  flat_map (arg_paths f) (posonlyargs a) ++ flat_map (arg_paths f) (args a)
  ++ match vararg a with Some x => arg_paths f x | None => [] end
  ++ flat_map (arg_paths f) (kwonlyargs a) ++ flat_map (opt_paths f) (kw_defaults a)
  ++ match kwarg a with Some x => arg_paths f x | None => [] end
  ++ flat_map f (defaults a).

(** The nodes of a subtree, read off the syntax: the definitions and the
    parameters, and the assigned names that are not under a function, in the
    order of the traversal, each under the classes and functions around it. *)
Fixpoint declared_paths (in_function_ : bool) (node : ast) {struct node} : list name_path :=
  let inner := declared_paths (in_function_ || is_function node) in
  own_paths in_function_ node
  ++ map (under (pushed_names node))
       match node with
       | Module body_ => flat_map inner body_
       | ClassDef _ bases keywords body_ decorator_list type_params _ =>
           flat_map inner bases ++ flat_map inner keywords ++ flat_map inner body_
           ++ flat_map inner decorator_list ++ flat_map inner type_params
       | FunctionDef _ _ a body_ decorator_list returns type_params _ =>
           arguments_paths inner a ++ flat_map inner body_
           ++ flat_map inner decorator_list ++ opt_paths inner returns
           ++ flat_map inner type_params
       | Import _ | ImportFrom _ _ _ | Name _ | Constant _ => []
       | Assign targets value _ => flat_map inner targets ++ inner value
       | AnnAssign target annotation_ value _ =>
           inner target ++ inner annotation_ ++ opt_paths inner value
       | Call func cargs keywords _ =>
           inner func ++ flat_map inner cargs ++ flat_map inner keywords
       | Attribute value _ | Expr value | YieldFrom value => inner value
       | Subscript value slice => inner value ++ inner slice
       | Yield value => opt_paths inner value
       | Other children => flat_map inner children
       end.

(** The paths of the children of [node], as [generic_visit] meets them. *)
Definition children_paths (in_function_ : bool) (node : ast) : list name_path :=
  let inner := declared_paths in_function_ in
  match node with
  | Module body_ => flat_map inner body_
  | ClassDef _ bases keywords body_ decorator_list type_params _ =>
      flat_map inner bases ++ flat_map inner keywords ++ flat_map inner body_
      ++ flat_map inner decorator_list ++ flat_map inner type_params
  | FunctionDef _ _ a body_ decorator_list returns type_params _ =>
      arguments_paths inner a ++ flat_map inner body_
      ++ flat_map inner decorator_list ++ opt_paths inner returns
      ++ flat_map inner type_params
  | Import _ | ImportFrom _ _ _ | Name _ | Constant _ => []
  | Assign targets value _ => flat_map inner targets ++ inner value
  | AnnAssign target annotation_ value _ =>
      inner target ++ inner annotation_ ++ opt_paths inner value
  | Call func cargs keywords _ =>
      inner func ++ flat_map inner cargs ++ flat_map inner keywords
  | Attribute value _ | Expr value | YieldFrom value => inner value
  | Subscript value slice => inner value ++ inner slice
  | Yield value => opt_paths inner value
  | Other children => flat_map inner children
  end.

Lemma declared_paths_eq f node :
  declared_paths f node
  = own_paths f node
    ++ map (under (pushed_names node)) (children_paths (f || is_function node) node).
Proof. destruct node; reflexivity. Qed.

(** A visit is inside a function when the current function id is set. *)
Definition inside_function (self : parser) : bool :=
  match current_function_entity_id self with Some _ => true | None => false end.

Definition names_of (n : node_data) : string * string := (qualified_name n, node_name n).

(** The qualified name and the name of the node at a path, under a scope stack. *)
Definition render (stack : list string) (p : name_path) : string * string :=
  (join "." (stack ++ fst p ++ [snd p]), snd p).

Lemma render_under stack names p : render (stack ++ names) p = render stack (under names p).
Proof. unfold render, under. cbn [fst snd]. now rewrite <- !app_assoc. Qed.

Lemma map_under_nil (ps : list name_path) : map (under []) ps = ps.
Proof.
  induction ps as [|[a n] ps IH]; [reflexivity|]. cbn [map]. now rewrite IH.
Qed.

Example declared_paths_of_class :
  declared_paths false (Module [class_C_members])
  = [([], "C"); (["C"], "X"); (["C"], "m"); (["C"; "m"], "y"); (["C"; "m"], "D")] /\
  map (render []) (declared_paths false (Module [class_C_members]))
  = [("C", "C"); ("C.X", "X"); ("C.m", "m"); ("C.m.y", "y"); ("C.m.D", "D")] /\
  map names_of (nodes (visit unparse_names start (Module [class_C_members])))
  = map (render []) (declared_paths false (Module [class_C_members])).
Proof. vm_compute. repeat split. Qed.

Section QualifiedNames.

Variable unparse : ast -> string.

(** From [a] to [b] the scope is kept and the nodes at [ps] are added, if
    [a] is inside a function or not as [f] says. *)
Definition adds (f : bool) (a b : parser) (ps : list name_path) : Prop :=
  inside_function a = f ->
  frame a b /\
  exists ns, nodes b = nodes a ++ ns /\
             map names_of ns = map (render (scope_stack a)) ps.

Lemma frame_inside_function a b : frame a b -> inside_function b = inside_function a.
Proof.
  intros [_ S]. unfold inside_function. apply (f_equal snd) in S. cbn in S. now rewrite S.
Qed.

Lemma frame_scope_stack a b : frame a b -> scope_stack b = scope_stack a.
Proof. intros [_ S]. apply (f_equal (fun t => fst (fst (fst t)))) in S. exact S. Qed.

Lemma adds_refl f a : adds f a a [].
Proof.
  intros _. split; [apply frame_refl|]. exists []. now rewrite app_nil_r.
Qed.

Lemma adds_app f a b c p1 p2 : adds f a b p1 -> adds f b c p2 -> adds f a c (p1 ++ p2).
Proof.
  intros H1 H2 Hf. destruct (H1 Hf) as [F1 (n1 & N1 & Q1)].
  destruct H2 as [F2 (n2 & N2 & Q2)]; [now rewrite (frame_inside_function _ _ F1)|].
  split; [eapply frame_trans; eassumption|].
  exists (n1 ++ n2). split; [now rewrite N2, N1, app_assoc|].
  rewrite !map_app, Q1, Q2, (frame_scope_stack _ _ F1). reflexivity.
Qed.

Let P (n : ast) : Prop :=
  forall f s, adds f s (visit unparse s n) (declared_paths f n).

Lemma adds_fold (l : list ast) :
  list_all ast P l ->
  forall f s, adds f s (fold_left (visit unparse) l s) (flat_map (declared_paths f) l).
Proof.
  induction 1 as [|x Hx l _ IH]; intros f s; simpl.
  - apply adds_refl.
  - eapply adds_app; [apply Hx | apply IH].
Qed.

Lemma adds_opt (o : option ast) :
  option_all ast P o ->
  forall f s, adds f s (visit_opt (visit unparse) s o) (opt_paths (declared_paths f) o).
Proof.
  destruct 1 as [x Hx|]; intros f s; simpl; [apply Hx | apply adds_refl].
Qed.

Lemma adds_arg (x : arg_) :
  arg_of_all ast P x ->
  forall f s, adds f s (visit_arg (visit unparse) s x) (arg_paths (declared_paths f) x).
Proof.
  destruct 1 as [nm ann Hann ps]; intros f s. unfold visit_arg, arg_paths; simpl.
  destruct Hann as [e He|]; simpl; [apply He | apply adds_refl].
Qed.

Lemma adds_fold_arg (l : list arg_) :
  list_all (arg_of ast) (arg_of_all ast P) l ->
  forall f s, adds f s (fold_left (visit_arg (visit unparse)) l s)
                (flat_map (arg_paths (declared_paths f)) l).
Proof.
  induction 1 as [|x Hx l _ IH]; intros f s; simpl.
  - apply adds_refl.
  - eapply adds_app; [apply adds_arg, Hx | apply IH].
Qed.

Lemma adds_opt_arg (o : option arg_) :
  option_all (arg_of ast) (arg_of_all ast P) o ->
  forall f s, adds f s (visit_opt_arg (visit unparse) s o)
                (match o with Some x => arg_paths (declared_paths f) x | None => [] end).
Proof.
  destruct 1 as [x Hx|]; intros f s; simpl; [apply adds_arg, Hx | apply adds_refl].
Qed.

Lemma adds_fold_opt (l : list (option ast)) :
  list_all (option ast) (option_all ast P) l ->
  forall f s, adds f s (fold_left (visit_opt (visit unparse)) l s)
                (flat_map (opt_paths (declared_paths f)) l).
Proof.
  induction 1 as [|x Hx l _ IH]; intros f s; simpl.
  - apply adds_refl.
  - eapply adds_app; [apply adds_opt, Hx | apply IH].
Qed.

Lemma adds_arguments (a : arguments) :
  arguments_of_all ast P a ->
  forall f s, adds f s (visit_arguments (visit unparse) s a)
                (arguments_paths (declared_paths f) a).
Proof.
  destruct 1 as [po Hpo ar Har va Hva ko Hko kd Hkd kw Hkw de Hde]; intros f s.
  unfold visit_arguments, arguments_paths; simpl.
  eapply adds_app; [apply adds_fold_arg, Hpo|].
  eapply adds_app; [apply adds_fold_arg, Har|].
  eapply adds_app; [apply adds_opt_arg, Hva|].
  eapply adds_app; [apply adds_fold_arg, Hko|].
  eapply adds_app; [apply adds_fold_opt, Hkd|].
  eapply adds_app; [apply adds_opt_arg, Hkw|].
  apply adds_fold, Hde.
Qed.

Lemma own_step_pushes self node :
  scope_stack (own_step unparse self node) = scope_stack self ++ pushed_names node.
Proof.
  destruct (declared_name node) as [nm|] eqn:D.
  - rewrite (own_step_scope_stack unparse self node nm D).
    destruct node; try discriminate; injection D as <-; reflexivity.
  - assert (F : frame self (own_step unparse self node))
      by (apply own_step_frame; destruct node; try reflexivity; discriminate).
    rewrite (frame_scope_stack _ _ F).
    destruct node; try discriminate; cbn [pushed_names]; now rewrite app_nil_r.
Qed.

Lemma own_step_inside_function self node :
  inside_function (own_step unparse self node) = inside_function self || is_function node.
Proof.
  unfold inside_function. rewrite own_step_function_id.
  destruct (is_function node); [now rewrite orb_true_r | now rewrite orb_false_r].
Qed.

Lemma created_nodes_paths self node :
  map names_of (created_nodes unparse self node)
  = map (render (scope_stack self)) (own_paths (inside_function self) node).
Proof.
  assert (R : forall k name nd ex,
             names_of (node_record self k name nd ex) = render (scope_stack self) ([], name)).
  { intros. unfold names_of, render. cbn [fst snd app].
    now rewrite (proj1 (node_record_nested self k name nd ex)). }
  unfold inside_function.
  destruct node; cbn [created_nodes own_paths]; try reflexivity.
  - cbn [map]. now rewrite R.
  - cbn [map]. rewrite R. apply f_equal. rewrite !map_map. apply map_ext. intros x.
    unfold parameter_node, names_of, render. cbn [fst snd].
    rewrite (proj1 (node_record_nested _ _ _ _ _)).
    cbn [in_function set_scope scope_stack node_record node_name].
    now rewrite <- app_assoc.
  - destruct (current_function_entity_id self); [reflexivity|].
    unfold target_names. generalize (Assign targets node pos). intros nd.
    induction targets as [|t l IH]; [reflexivity|].
    cbn [flat_map]. rewrite !map_app, IH. apply (f_equal (fun x => x ++ _)).
    destruct t; try reflexivity. cbn [assigned_nodes map]. now rewrite R.
  - destruct node1; try reflexivity.
    destruct (current_function_entity_id self); [reflexivity|].
    cbn [map]. now rewrite R.
Qed.

Lemma leave_frame self node s :
  frame (own_step unparse self node) s ->
  frame self match node with
             | ClassDef _ _ _ _ _ _ _ =>
                 ClassDef_leave (current_class_name self) (current_class_entity_id self) s
             | FunctionDef _ _ _ _ _ _ _ _ =>
                 function_leave (current_function_entity_id self) s
             | _ => s
             end.
Proof.
  intros F.
  destruct node;
    try (eapply frame_trans; [| exact F]; apply own_step_frame; reflexivity).
  - eapply ClassDef_leave_frame. exact F.
  - eapply function_leave_frame. exact F.
Qed.

(** The nodes of a visit from those of its children. *)
Lemma adds_visit f self node cps :
  adds (f || is_function node) (own_step unparse self node)
       (generic_visit unparse (own_step unparse self node) node) cps ->
  adds f self (visit unparse self node)
       (own_paths f node ++ map (under (pushed_names node)) cps).
Proof.
  intros G Hf.
  destruct G as [F (ns & N & Q)];
    [rewrite own_step_inside_function, Hf; reflexivity|].
  rewrite visit_eq. cbv zeta. split; [now apply leave_frame|].
  exists (created_nodes unparse self node ++ ns). split.
  - replace (nodes _) with
      (nodes (generic_visit unparse (own_step unparse self node) node))
      by (destruct node; reflexivity).
    rewrite N, own_step_nodes. now rewrite app_assoc.
  - rewrite !map_app, created_nodes_paths, Hf, Q, own_step_pushes. apply f_equal.
    rewrite map_map. apply map_ext. intros p. apply render_under.
Qed.

Ltac child_paths :=
  first [ apply adds_fold; assumption
        | apply adds_opt; assumption
        | apply adds_arguments; assumption
        | match goal with H : P _ |- _ => apply H end
        | apply adds_refl ].

Lemma visit_adds (node : ast) : P node.
Proof.
  induction node using ast_ind; intros f s;
    rewrite declared_paths_eq; apply adds_visit;
    cbn [generic_visit children_paths];
    repeat (eapply adds_app; [child_paths|]); child_paths.
Qed.

End QualifiedNames.

(** X6: qualified names follow the nesting of the syntax.  The nodes a visit
    creates are, in order, the definitions and parameters of the subtree and
    the assigned names that are not under a function; the qualified name of
    each is the scope stack the visit started with, then the names of the
    classes and functions of the subtree around it, outermost first, then its
    own name, joined by dots. *)
Theorem qualified_names_nest (unparse : ast -> string) (self : parser) (node : ast) :
  exists ns,
    nodes (visit unparse self node) = nodes self ++ ns /\
    map (fun n => (qualified_name n, node_name n)) ns
    = map (fun p => (join "." (scope_stack self ++ fst p ++ [snd p]), snd p))
          (declared_paths match current_function_entity_id self with
                          | Some _ => true
                          | None => false
                          end node).
Proof.
  destruct (visit_adds unparse node (inside_function self) self eq_refl) as [_ H].
  exact H.
Qed.
